(** * mini_v8 FFI bridge (packages/engine/src/worker/runner/javascript/mini_v8/ffi.cc)

    A shallow embedding of the value-marshalling and handle-lifecycle
    layer between the host runtime and the V8 isolate, and the
    properties of it that the specification states.

    Conventions of the embedding:
    - C++ addresses ([v8::Persistent<v8::Value>*], [RustCallback*],
      closure pointers) are integers; [new] hands out addresses from a
      counter that never goes back, so an address is never reused.
    - a [double] is its IEEE-754 binary64 bit pattern, an integer in
      [[0, 2^64)]; the [ValueDescPayload] union is the 8 bytes that
      its three members share (little endian).
    - dereferencing a dead pointer, calling through a NULL function
      pointer or unwrapping an empty handle is undefined behaviour in
      the source; the embedding returns [None] there.
    - engine entry points that may run script (property access, calls,
      coercions, compilation, evaluation) are fields of an [Engine]
      record. What script computes is the engine's business; what it
      does to the bridge is not: script can call a function object made
      by [mv8_function_create], and the engine then runs the trampoline
      [rust_callback] in the middle of the entry point. An entry point
      therefore answers with a [Script]: the calls of registered
      functions it makes, one after the other, each resumed with what
      the trampoline left, and in the end the completion.
    - the host is outside the embedding. Its dispatchers are functions
      of their arguments, and every call to one is recorded.
    - the collector is outside the embedding too. Its weak callbacks
      are events between two calls of the bridge: [callback_drop]
      touches the registration it is run for and nothing else, and the
      function object it is run for is unreachable, so that nothing is
      lost by taking them one at a time.
    - an engine string is held as the UTF-8 encoding of its text.
    - a number and a date hold the double they were made from. V8
      stores the quiet NaN for every NaN and the clipped time
      ([TimeClip]) for a date; the embedding keeps the bits given, and
      what depends on them is stated for the doubles that V8 stores as
      given ([stored_as_given]).
    - stdout is not part of the state: of the diagnostics that
      [try_catch_err] prints, the embedding keeps the handles read to
      print them. *)

From stdpp Require Import gmap list strings fin_maps sorting.
From Stdlib Require Import ZArith Lia.

Local Open Scope Z_scope.

(** ** Machine integers *)

Definition to_uint8 (x : Z) : Z := x mod 2 ^ 8.
Definition to_uint64 (x : Z) : Z := x mod 2 ^ 64.
(** Conversion to [int64_t]: two's complement wrap-around. *)
Definition to_int64 (x : Z) : Z := (x + 2 ^ 63) mod 2 ^ 64 - 2 ^ 63.
(** Conversion to [int], likewise. *)
Definition to_int32 (x : Z) : Z := (x + 2 ^ 31) mod 2 ^ 32 - 2 ^ 31.

(** ** Doubles as binary64 bit patterns *)

Definition dbl_sign (d : Z) : Z := d / 2 ^ 63.
Definition dbl_exp (d : Z) : Z := (d / 2 ^ 52) mod 2 ^ 11.
Definition dbl_frac (d : Z) : Z := d mod 2 ^ 52.

Definition is_double (d : Z) : bool := (0 <=? d) && (d <? 2 ^ 64).

(** [(double)i] for a 32-bit integer [i]: exact, since 32 < 53. *)
Definition double_of_int32 (i : Z) : Z :=
  if i =? 0 then 0
  else
    let a := Z.abs i in
    let k := Z.log2 a in
    (if i <? 0 then 2 ^ 63 else 0) + (1023 + k) * 2 ^ 52
    + (a - 2 ^ k) * 2 ^ (52 - k).

(** The integer a double denotes when it is integral and of magnitude
    below 2^32 (and not a zero). *)
Definition dbl_magnitude (d : Z) : Z :=
  let k := dbl_exp d - 1023 in
  2 ^ k + dbl_frac d / 2 ^ (52 - k).

Definition dbl_integer (d : Z) : Z :=
  if d =? 0 then 0
  else if dbl_sign d =? 1 then - dbl_magnitude d else dbl_magnitude d.

(** [v8::Value::IsInt32] on a number: the double is +0 or an integer
    in [[-2^31, 2^31)]; -0 is not an int32. *)
Definition dbl_is_int32 (d : Z) : bool :=
  is_double d &&
  ((d =? 0)
   || (let k := dbl_exp d - 1023 in
       (0 <=? k) && (k <=? 31)
       && (dbl_frac d mod 2 ^ (52 - k) =? 0)
       && (if dbl_sign d =? 1
           then dbl_magnitude d <=? 2 ^ 31
           else dbl_magnitude d <? 2 ^ 31))).

Definition dbl_is_nan (d : Z) : bool :=
  (dbl_exp d =? 2047) && negb (dbl_frac d =? 0).

(** ** Engine values *)

(** What a [v8::Local<v8::Value>] can refer to. Objects live in the
    script heap and are referred to by address. *)
Inductive Value :=
  | JsUndefined
  | JsNull
  | JsTrue
  | JsFalse
  | JsNumber (bits : Z)
  | JsString (s : string)
  | JsSymbol (id : nat)
  | JsBigInt (n : Z)
  | JsObject (addr : nat).

Global Instance Value_eq_dec : EqDecision Value.
Proof. solve_decision. Defined.

Inductive ObjectClass :=
  | ClsObject
  | ClsArray
  | ClsFunction (data : option Z)   (* [Some ext]: built by a FunctionTemplate with External data *)
  | ClsDate (time : Z)
  | ClsError (message : string).

(** The key of a property. *)
Inductive PropertyKey :=
  | KeyIndex (i : Z)        (* an array index *)
  | KeyName (s : string)    (* a string that is no array index *)
  | KeySymbol (id : nat).

Global Instance PropertyKey_eq_dec : EqDecision PropertyKey.
Proof. solve_decision. Defined.

Record Property := {
  prop_key : PropertyKey;
  prop_value : Value;
  prop_enumerable : bool
}.

Record JsObj := {
  obj_class : ObjectClass;
  (* the External stored under the interface's private symbol, if any *)
  obj_private : option Z;
  (* the own properties, in the order in which they were created *)
  obj_properties : list Property;
  (* the address of the prototype, if it is an object *)
  obj_prototype : option nat
}.

(** An object of the class [cls] as the bridge makes it: no private
    slot, no property that an enumeration sees, and a prototype (of
    the engine's) that has none either. *)
Definition bare (cls : ObjectClass) : JsObj :=
  {| obj_class := cls; obj_private := None; obj_properties := [];
     obj_prototype := None |}.

(** A [v8::Persistent<v8::Value>] cell. *)
Record Persistent := {
  referent : Value;
  wrapper_class_id : Z;
  weak_parameter : option Z   (* [Some cb] after [SetWeak(cb, callback_drop, ...)] *)
}.

Global Instance Persistent_eq_dec : EqDecision Persistent.
Proof. solve_decision. Defined.

Record RustCallback := {
  func : Z;
  func_size : Z;
  interface : Z;
  value_ptr : Z
}.

(** The type of value being passed. *)
Module ValueDescTag.
Definition Null : Z := 0.
Definition Undefined : Z := 1.
Definition Number : Z := 2.
Definition Boolean : Z := 3.
Definition Array : Z := 4.
Definition Function : Z := 5.
Definition Date : Z := 6.
Definition Object : Z := 7.
Definition String : Z := 8.
End ValueDescTag.

(** The union [ValueDescPayload] is its 8 bytes; the members are views. *)
Definition payload_byte (p : Z) : Z := p mod 2 ^ 8.
Definition payload_number (p : Z) : Z := p.
Definition payload_value_ptr (p : Z) : Z := p.
Definition payload_set_byte (p b : Z) : Z := p - p mod 2 ^ 8 + to_uint8 b.

Record ValueDesc := {
  payload : Z;
  tag : Z
}.

Record TryCatchDesc := {
  value_desc : ValueDesc;
  is_exception : Z
}.

Global Instance ValueDesc_eq_dec : EqDecision ValueDesc.
Proof. solve_decision. Defined.
Global Instance TryCatchDesc_eq_dec : EqDecision TryCatchDesc.
Proof. solve_decision. Defined.

(** What the host has been asked to do, most recent call first. *)
Inductive HostCall :=
  | WrapperCall (iface callback : Z) (this_desc : ValueDesc) (arg_descs : list ValueDesc)
  | DropCall (callback : Z).

(** One [Interface] with its isolate. [external_memory] is the amount
    of external memory as the bridge has adjusted it (what else V8
    counts under that heading, the backing stores of array buffers, is
    V8's own and left out). The last five fields are instrumentation:
    they record what happened and nothing reads them. *)
Record Interface := {
  self : Z;                               (* address of the Interface *)
  heap : gmap nat JsObj;                  (* isolate: script heap *)
  persistents : gmap Z Persistent;        (* isolate: live persistent cells *)
  external_memory : Z;                    (* isolate: int64 amount *)
  callbacks : gmap Z RustCallback;        (* live RustCallback records *)
  next_alloc : Z;                         (* next address [new] returns *)
  created : list Z;                       (* persistent cells created *)
  released : list Z;                      (* persistent cells reset and deleted *)
  registered : list Z;                    (* RustCallback records registered *)
  finalized : list Z;                     (* RustCallback records finalized *)
  host_calls : list HostCall
}.

(** ** Primitive state changes *)

Definition set_heap (st : Interface) (h : gmap nat JsObj) : Interface :=
  {| self := self st; heap := h; persistents := persistents st;
     external_memory := external_memory st; callbacks := callbacks st;
     next_alloc := next_alloc st; created := created st;
     released := released st; registered := registered st;
     finalized := finalized st; host_calls := host_calls st |}.

(** Allocates a script object. *)
Definition heap_alloc (st : Interface) (o : JsObj) : Interface * Value :=
  let a := fresh (dom (heap st)) in
  (set_heap st (<[a := o]> (heap st)), JsObject a).

(** [new v8::Persistent<v8::Value>(isolate, value)] *)
Definition Persistent_new (st : Interface) (value : Value) : Interface * Z :=
  let p := next_alloc st in
  ({| self := self st; heap := heap st;
      persistents := <[p := {| referent := value; wrapper_class_id := 0;
                               weak_parameter := None |}]> (persistents st);
      external_memory := external_memory st; callbacks := callbacks st;
      next_alloc := p + 1; created := p :: created st;
      released := released st; registered := registered st;
      finalized := finalized st; host_calls := host_calls st |}, p).

(** [value_ptr->Reset(); delete value_ptr;] *)
Definition Persistent_delete (st : Interface) (p : Z) : option Interface :=
  match persistents st !! p with
  | None => None
  | Some _ =>
      Some {| self := self st; heap := heap st;
              persistents := delete p (persistents st);
              external_memory := external_memory st; callbacks := callbacks st;
              next_alloc := next_alloc st; created := created st;
              released := p :: released st; registered := registered st;
              finalized := finalized st; host_calls := host_calls st |}
  end.

(** [v8::Local<v8::Value>::New(isolate, *value_ptr)] and [value_ptr->Get(isolate)] *)
Definition Persistent_get (st : Interface) (p : Z) : option Value :=
  referent <$> persistents st !! p.

(** ** Classification of engine values (the [v8::Value::Is...] tests) *)

Definition object_class (st : Interface) (value : Value) : option ObjectClass :=
  match value with
  | JsObject a => obj_class <$> heap st !! a
  | _ => None
  end.

Definition IsUndefined (value : Value) : bool :=
  match value with JsUndefined => true | _ => false end.
Definition IsNull (value : Value) : bool :=
  match value with JsNull => true | _ => false end.
Definition IsTrue (value : Value) : bool :=
  match value with JsTrue => true | _ => false end.
Definition IsFalse (value : Value) : bool :=
  match value with JsFalse => true | _ => false end.
Definition IsInt32 (value : Value) : bool :=
  match value with JsNumber d => dbl_is_int32 d | _ => false end.
Definition IsNumber (value : Value) : bool :=
  match value with JsNumber _ => true | _ => false end.
Definition IsString (value : Value) : bool :=
  match value with JsString _ => true | _ => false end.
Definition IsObject (value : Value) : bool :=
  match value with JsObject _ => true | _ => false end.
Definition IsDate (st : Interface) (value : Value) : bool :=
  match object_class st value with Some (ClsDate _) => true | _ => false end.
Definition IsArray (st : Interface) (value : Value) : bool :=
  match object_class st value with Some ClsArray => true | _ => false end.
Definition IsFunction (st : Interface) (value : Value) : bool :=
  match object_class st value with Some (ClsFunction _) => true | _ => false end.

(** [value->Int32Value(context).ToChecked()], called on int32 values only *)
Definition Int32Value (value : Value) : Z :=
  match value with JsNumber d => dbl_integer d | _ => 0 end.
(** [value->NumberValue(context).ToChecked()], called on numbers only *)
Definition NumberValue (value : Value) : Z :=
  match value with JsNumber d => d | _ => 0 end.
(** [v8::Local<v8::Date>::Cast(value)->ValueOf()] *)
Definition Date_ValueOf (st : Interface) (value : Value) : Z :=
  match object_class st value with Some (ClsDate t) => t | _ => 0 end.

(** [v8::Date::New(context, time)] *)
Definition Date_New (st : Interface) (time : Z) : Interface * Value :=
  heap_alloc st (bare (ClsDate time)).

(** [v8::Exception::Error(message)] *)
Definition Exception_Error (st : Interface) (message : string) : Interface * Value :=
  heap_alloc st (bare (ClsError message)).

(** [value->BooleanValue(isolate)]: ToBoolean, which runs no script. *)
Definition BooleanValue (value : Value) : bool :=
  match value with
  | JsUndefined | JsNull | JsFalse => false
  | JsTrue => true
  | JsNumber d => negb ((d =? 0) || (d =? 2 ^ 63) || dbl_is_nan d)
  | JsString s => negb (String.eqb s "")
  | JsBigInt n => negb (n =? 0)
  | JsSymbol _ | JsObject _ => true
  end.

(** ** [ValueDesc]: encode and decode *)

Definition with_tag (desc : ValueDesc) (t : Z) : ValueDesc :=
  {| payload := payload desc; tag := t |}.
Definition with_byte (desc : ValueDesc) (b : Z) : ValueDesc :=
  {| payload := payload_set_byte (payload desc) b; tag := tag desc |}.
Definition with_number (desc : ValueDesc) (d : Z) : ValueDesc :=
  {| payload := d; tag := tag desc |}.
Definition with_value_ptr (desc : ValueDesc) (p : Z) : ValueDesc :=
  {| payload := p; tag := tag desc |}.

(** [{ .payload = { .byte = 0 }, .tag = ValueDescTag::Undefined }] *)
Definition desc_undefined : ValueDesc :=
  {| payload := 0; tag := ValueDescTag.Undefined |}.

(** Converts a [v8::Local<v8::Value>] to a [ValueDesc]. *)
Definition value_to_desc (st : Interface) (value : Value) : Interface * ValueDesc :=
  let desc := desc_undefined in
  if IsUndefined value then (st, desc)
  else if IsNull value then (st, with_tag desc ValueDescTag.Null)
  else if IsTrue value then (st, with_byte (with_tag desc ValueDescTag.Boolean) 1)
  else if IsFalse value then (st, with_tag desc ValueDescTag.Boolean)
  else if IsInt32 value then
    (st, with_number (with_tag desc ValueDescTag.Number)
           (double_of_int32 (Int32Value value)))
  else if IsNumber value then
    (st, with_number (with_tag desc ValueDescTag.Number) (NumberValue value))
  else if IsDate st value then
    (st, with_number (with_tag desc ValueDescTag.Date) (Date_ValueOf st value))
  else
    let reference t :=
      let '(st', p) := Persistent_new st value in
      (st', with_value_ptr (with_tag desc t) p) in
    if IsString value then reference ValueDescTag.String
    else if IsArray st value then reference ValueDescTag.Array
    else if IsFunction st value then reference ValueDescTag.Function
    else if IsObject value then reference ValueDescTag.Object
    else (st, desc).

(** The tags whose payload is a persistent cell. *)
Definition is_reference_tag (t : Z) : bool :=
  (t =? ValueDescTag.Array) || (t =? ValueDescTag.Function)
  || (t =? ValueDescTag.Object) || (t =? ValueDescTag.String).

(** Converts a [ValueDesc] to a [v8::Local<v8::Value>], freeing the
    desc's persistent cell if there is one. The number and the date
    made hold the double of the desc: the doubles that [Number::New]
    and [Date::New] store as they are given ([stored_as_given] below:
    no NaN, and for a date a time value) are the ones for which the
    bits of what is decoded are stated. *)
Definition desc_to_value (st : Interface) (desc : ValueDesc) : option (Interface * Value) :=
  let t := tag desc in
  if t =? ValueDescTag.Null then Some (st, JsNull)
  else if t =? ValueDescTag.Number then Some (st, JsNumber (payload_number (payload desc)))
  else if t =? ValueDescTag.Boolean then
    Some (st, if payload_byte (payload desc) =? 0 then JsFalse else JsTrue)
  else if t =? ValueDescTag.Date then Some (Date_New st (payload_number (payload desc)))
  else if is_reference_tag t then
    let value_ptr := payload_value_ptr (payload desc) in
    local ← Persistent_get st value_ptr;
    st' ← Persistent_delete st value_ptr;
    Some (st', local)
  else Some (st, JsUndefined).

(** ** Strings from bytes *)

(** U+FFFD, the replacement character, in UTF-8: EF BF BD. *)
Definition replacement_character : string :=
  String (Ascii.ascii_of_nat 239)
    (String (Ascii.ascii_of_nat 191) (String (Ascii.ascii_of_nat 189) EmptyString)).

(** What a byte is at the start of a sequence: a character of its own,
    the first byte of a sequence of [n + 2] the second of which lies in
    [[lo, hi]], or no start of anything. *)
Inductive Utf8Lead :=
  | LeadSingle
  | LeadOf (n : nat) (lo hi : N)
  | LeadNone.

Definition utf8_lead (b : N) : Utf8Lead :=
  (if b <? 0x80 then LeadSingle
   else if b <? 0xC2 then LeadNone
   else if b <? 0xE0 then LeadOf 0 0x80 0xBF
   else if b =? 0xE0 then LeadOf 1 0xA0 0xBF
   else if b =? 0xED then LeadOf 1 0x80 0x9F
   else if b <? 0xF0 then LeadOf 1 0x80 0xBF
   else if b =? 0xF0 then LeadOf 2 0x90 0xBF
   else if b <? 0xF4 then LeadOf 2 0x80 0xBF
   else if b =? 0xF4 then LeadOf 2 0x80 0x8F
   else LeadNone)%N.

(** The decoder of [v8::String::NewFromUtf8]: well-formed sequences are
    taken as they are; the longest start of a sequence that cannot be
    continued, a byte that starts none and a sequence cut off by the
    end each become one replacement character. [pending] are the bytes
    of the sequence that is open; [open] says how many bytes that
    sequence wants after the next one and where the next one has to
    lie ([None]: no sequence is open). *)
Fixpoint utf8_decode (pending : string) (open : option (nat * N * N)) (data : string)
  : string :=
  match data with
  | EmptyString =>
      match open with
      | None => EmptyString
      | Some _ => replacement_character
      end
  | String a rest =>
      let b := Ascii.N_of_ascii a in
      let start :=
        match utf8_lead b with
        | LeadSingle => String a (utf8_decode EmptyString None rest)
        | LeadOf n lo hi => utf8_decode (String a EmptyString) (Some (n, lo, hi)) rest
        | LeadNone => replacement_character +:+ utf8_decode EmptyString None rest
        end in
      match open with
      | None => start
      | Some (n, lo, hi) =>
          if ((lo <=? b) && (b <=? hi))%N then
            match n with
            | O => pending +:+ String a (utf8_decode EmptyString None rest)
            | S n =>
                utf8_decode (pending +:+ String a EmptyString) (Some (n, 0x80, 0xBF)%N) rest
            end
          else replacement_character +:+ start
      end
  end.

(** ** The engine's completions *)

(** What the engine keeps about a caught exception besides its value:
    the [.stack] of the thrown object and the message object's text.
    Either handle can be empty. *)
Record Report := {
  report_trace : option string;
  report_message : option string
}.

(** How a call into the engine ends. *)
Inductive Completion (A : Type) :=
  | Returns (a : A)
  | Throws (exception : Value) (report : Report)
  | Terminates (native : option Value) (report : Report).
                                          (* [TerminateExecution] took effect *)
Arguments Returns {A} a.
Arguments Throws {A} exception report.
Arguments Terminates {A} native report.

(** What the bridge reads off a [v8::TryCatch]. *)
Record TryCatch := {
  HasCaught : bool;
  Exception : option Value;     (* [None]: an empty handle *)
  HasTerminated : bool;
  StackTrace : option string;   (* [None]: an empty [MaybeLocal] *)
  Message : option string       (* [None]: an empty handle; else [Message::Get] *)
}.

Definition TryCatch_of {A} (c : Completion A) : TryCatch :=
  match c with
  | Returns _ =>
      {| HasCaught := false; Exception := None; HasTerminated := false;
         StackTrace := None; Message := None |}
  | Throws e r =>
      {| HasCaught := true; Exception := Some e; HasTerminated := false;
         StackTrace := report_trace r; Message := report_message r |}
  | Terminates n r =>
      {| HasCaught := true; Exception := n; HasTerminated := true;
         StackTrace := report_trace r; Message := report_message r |}
  end.

(** The [v8::Maybe] / [v8::MaybeLocal] an engine call hands back. *)
Definition Maybe_of {A} (c : Completion A) : option A :=
  match c with Returns a => Some a | _ => None end.

(** ** The exception channel *)

Definition EXECUTION_TIMEOUT_MESSAGE : string := "execution timed out".

(** [sizeof] of a string literal: its characters and the terminator. *)
Definition sizeof_literal (s : string) : Z := Z.of_nat (String.length s) + 1.

(** [v8::String::kMaxLength], on a 64-bit build with compressed
    pointers. *)
Definition String_kMaxLength : Z := 2 ^ 29 - 24.

(** [strlen(data)]: the bytes before the first NUL, if there is one. *)
Fixpoint strlen (data : string) : option nat :=
  match data with
  | EmptyString => None
  | String a rest =>
      if (Ascii.N_of_ascii a =? 0)%N then Some O else S <$> strlen rest
  end.

(** [string_new(isolate, data, length)]. [data] holds the bytes there
    are at the pointer. [String::NewFromUtf8] takes the length as an
    [int]: 0 gives the empty string without a look at [data], a length
    above [kMaxLength] gives an empty handle, which [ToLocalChecked]
    does not survive, and a negative length stands for [strlen(data)].
    The bytes are read as UTF-8; reading more of them than there are
    is reading past the end. *)
Definition string_new (data : string) (length : Z) : option string :=
  let length := to_int32 length in
  if length =? 0 then Some EmptyString
  else if String_kMaxLength <? length then None
  else
    length ← (if length <? 0 then Z.of_nat <$> strlen data else Some length);
    if length <=? Z.of_nat (String.length data)
    then Some (utf8_decode EmptyString None (String.substring 0 (Z.to_nat length) data))
    else None.

(** Returns an error [TryCatchDesc] with the [v8::TryCatch]'s exception.
    [cout] is what goes to stdout first: the stack trace or, when there
    is none, the text of the try-catch's message, read through whatever
    handle [Message()] returned. *)
Definition try_catch_err (st : Interface) (try_catch : TryCatch)
  : option (Interface * TryCatchDesc) :=
  let maybe_trace := StackTrace try_catch in
  cout ← match maybe_trace with
         | None =>
             msg ← Message try_catch;   (* [try_catch->Message()->Get()] *)
             Some ["CC trace empty"; "CC err msg: " +:+ msg]
         | Some trace => Some ["CC trace: " +:+ trace]
         end;
  let value := Exception try_catch in
  '(st, value) ←
    (if HasTerminated try_catch then
       message ← string_new EXECUTION_TIMEOUT_MESSAGE
                   (sizeof_literal EXECUTION_TIMEOUT_MESSAGE - 1);
       let '(st', e) := Exception_Error st message in
       Some (st', Some e)
     else Some (st, value));
  value ← value;
  let '(st, desc) := value_to_desc st value in
  Some (st, {| value_desc := desc; is_exception := 1 |}).

(** Returns an OK [TryCatchDesc] with the given value. *)
Definition try_catch_ok (st : Interface) (value : Value) : Interface * TryCatchDesc :=
  let '(st, desc) := value_to_desc st value in
  (st, {| value_desc := desc; is_exception := 0 |}).

(** Returns an OK [TryCatchDesc] with no value attached. *)
Definition try_catch_ok_noval : TryCatchDesc :=
  {| value_desc := {| payload := 0; tag := ValueDescTag.Undefined |};
     is_exception := 0 |}.

(** Returns an OK [TryCatchDesc] with the raw [ValueDesc] attached. *)
Definition try_catch_ok_val (desc : ValueDesc) : TryCatchDesc :=
  {| value_desc := desc; is_exception := 0 |}.

(** ** Native callbacks: the trampoline *)

(** The host's dispatchers: [rust_callback_wrapper] gets the interface,
    the closure, [this], the arguments and their number and gives the
    outcome back; [rust_callback_drop] gets the closure. The host is
    outside the embedding: a call to it is recorded in [host_calls]. *)
Definition rust_callback_wrapper : Type :=
  Z → Z → ValueDesc → list ValueDesc → Z → TryCatchDesc.
Definition rust_callback_drop : Type := Z → unit.

(** The two static function pointers; [None] is NULL. *)
Record Globals := {
  main_callback_wrapper_func : option rust_callback_wrapper;
  main_callback_drop_func : option rust_callback_drop
}.

Definition globals_at_start : Globals :=
  {| main_callback_wrapper_func := None; main_callback_drop_func := None |}.

(** Initializes the FFI. *)
Definition mv8_init (wrapper_func : option rust_callback_wrapper)
    (drop_func : option rust_callback_drop) : Globals :=
  {| main_callback_wrapper_func := wrapper_func;
     main_callback_drop_func := drop_func |}.

(** [sizeof(RustCallback)] on LP64: three pointers and a [uint32_t]
    padded to 8 bytes. *)
Definition sizeof_RustCallback : Z := 32.

Definition RUST_CALLBACK_CLASS_ID : Z := 1001.

Definition set_persistents (st : Interface) (m : gmap Z Persistent) : Interface :=
  {| self := self st; heap := heap st; persistents := m;
     external_memory := external_memory st; callbacks := callbacks st;
     next_alloc := next_alloc st; created := created st;
     released := released st; registered := registered st;
     finalized := finalized st; host_calls := host_calls st |}.

Definition record_host_call (st : Interface) (c : HostCall) : Interface :=
  {| self := self st; heap := heap st; persistents := persistents st;
     external_memory := external_memory st; callbacks := callbacks st;
     next_alloc := next_alloc st; created := created st;
     released := released st; registered := registered st;
     finalized := finalized st; host_calls := c :: host_calls st |}.

(** [args.Data()], cast to an External and unwrapped. *)
Definition FunctionCallbackInfo_Data (st : Interface) (callee : Value) : option Z :=
  match object_class st callee with
  | Some (ClsFunction data) => data
  | _ => None
  end.

(** The loop [for (int i = 0; i != arg_descs_len; i++) arg_descs[i] =
    value_to_desc(isolate, context, args[i].As<v8::Value>());].
    [args[i]] is undefined past the arguments passed. *)
Fixpoint encode_args (remaining i : nat) (st : Interface) (args : list Value)
    (arg_descs : list ValueDesc) : Interface * list ValueDesc :=
  match remaining with
  | O => (st, arg_descs)
  | S remaining =>
      let '(st, desc) := value_to_desc st (default JsUndefined (args !! i)) in
      encode_args remaining (S i) st args (<[i := desc]> arg_descs)
  end.

(** What a function callback leaves with the engine when it returns. *)
Inductive CallbackResult :=
  | ReturnValue_Set (value : Value)    (* [args.GetReturnValue().Set(value)] *)
  | ThrowException (value : Value).    (* [isolate->ThrowException(value)] *)

(** The trampoline of a registered function: [callee] is the function
    object called, [this] and [args] what script called it with. The
    result is what script sees: a return value or a thrown one. *)
Definition rust_callback (g : Globals) (st : Interface) (callee this : Value)
    (args : list Value) : option (Interface * CallbackResult) :=
  ext ← FunctionCallbackInfo_Data st callee;
  callback ← callbacks st !! ext;
  let interface := interface callback in
  let arg_descs_len := length args in
  let '(st, this_desc) := value_to_desc st this in
  let '(st, arg_descs) :=
    encode_args arg_descs_len 0 st args (replicate arg_descs_len desc_undefined) in
  wrapper ← main_callback_wrapper_func g;
  let result :=
    wrapper interface (func callback) this_desc arg_descs (Z.of_nat arg_descs_len) in
  let st :=
    record_host_call st (WrapperCall interface (func callback) this_desc arg_descs) in
  let is_exception := negb (is_exception result =? 0) in
  '(st, value) ← desc_to_value st (value_desc result);
  if is_exception then Some (st, ThrowException value)
  else Some (st, ReturnValue_Set value).

(** ** The engine *)

(** What an entry point of the engine does, as far as the bridge is in
    it: script runs, on the heap; it may call a function object made
    from the template of [mv8_function_create], which is a call of
    [rust_callback], and goes on with what the trampoline left (and
    with the heap as the trampoline left it); in the end the entry
    point completes. *)
Inductive Script (A : Type) : Type :=
  | Done (h : gmap nat JsObj) (c : Completion A)
  | CallNative (h : gmap nat JsObj) (callee this : Value) (args : list Value)
      (resume : gmap nat JsObj → CallbackResult → Script A).
Arguments Done {A} h c.
Arguments CallNative {A} h callee this args resume.

(** The engine entry points that may run script, each on the script
    heap it finds. *)
Record Engine := {
  Script_Compile : gmap nat JsObj → string → option (string * Z * Z) → Script Z;
  Script_Run : gmap nat JsObj → Z → Script Value;
  Object_Get : gmap nat JsObj → Value → Value → Script Value;
  Object_GetIndex : gmap nat JsObj → Value → Z → Script Value;
  Object_Set : gmap nat JsObj → Value → Value → Value → Script bool;
  Object_SetIndex : gmap nat JsObj → Value → Z → Value → Script bool;
  Object_Delete : gmap nat JsObj → Value → Value → Script bool;
  Object_Has : gmap nat JsObj → Value → Value → Script bool;
  Object_GetPropertyNames : gmap nat JsObj → Value → Script Value;
  Object_GetOwnPropertyNames : gmap nat JsObj → Value → Script Value;
  Value_ToNumber : gmap nat JsObj → Value → Script Value;
  Value_ToString : gmap nat JsObj → Value → Script Value;
  Function_Call : gmap nat JsObj → Value → Value → list Value → Script Value;
  Function_NewInstance : gmap nat JsObj → Value → list Value → Script Value
}.

(** Runs what an entry point does on the interface's isolate: every
    call of a registered function goes through the trampoline, in the
    state the calls before it left. *)
Fixpoint enter {A} (g : Globals) (st : Interface) (script : Script A)
  : option (Interface * Completion A) :=
  match script with
  | Done h c => Some (set_heap st h, c)
  | CallNative h callee this args resume =>
      '(st, result) ← rust_callback g (set_heap st h) callee this args;
      enter g st (resume (heap st) result)
  end.

(** ** Exported operations on values *)

Section Exports.
Variable g : Globals.
Variable E : Engine.

(** Evaluates a chunk of JavaScript. [name] is [None] for a NULL
    [name_data]. *)
Definition mv8_interface_eval (st : Interface) (source : string) (source_length : Z)
    (name : option (string * Z)) (line_offset column_offset : Z)
  : option (Interface * TryCatchDesc) :=
  source ← string_new source source_length;
  origin ←
    match name with
    | Some (name_data, name_length) =>
        name ← string_new name_data name_length;
        Some (Some (name, line_offset, column_offset))
    | None => Some None
    end;
  '(st, script) ← enter g st (Script_Compile E (heap st) source origin);
  match Maybe_of script with
  | Some s =>
      '(st, maybe_value) ← enter g st (Script_Run E (heap st) s);
      match Maybe_of maybe_value with
      | Some v => Some (try_catch_ok st v)
      | None => try_catch_err st (TryCatch_of maybe_value)
      end
  | None => try_catch_err st (TryCatch_of script)
  end.

(** Creates a new reference to a value pointer. *)
Definition mv8_value_ptr_clone (st : Interface) (value_ptr : Z) : option (Interface * Z) :=
  v ← Persistent_get st value_ptr;
  Some (Persistent_new st v).

(** Destroys a reference to a value pointer. *)
Definition mv8_value_ptr_drop (st : Interface) (value_ptr : Z) : option Interface :=
  Persistent_delete st value_ptr.

(** Fetches an array's value by index. *)
Definition mv8_array_get (st : Interface) (array : Z) (index : Z)
  : option (Interface * TryCatchDesc) :=
  local_object ← Persistent_get st array;
  '(st, maybe_value) ← enter g st (Object_GetIndex E (heap st) local_object index);
  match Maybe_of maybe_value with
  | None => try_catch_err st (TryCatch_of maybe_value)
  | Some v => Some (try_catch_ok st v)
  end.

(** Sets an array's value by index. *)
Definition mv8_array_set (st : Interface) (array : Z) (index : Z) (value_desc : ValueDesc)
  : option (Interface * TryCatchDesc) :=
  local_object ← Persistent_get st array;
  '(st, value) ← desc_to_value st value_desc;
  '(st, r) ← enter g st (Object_SetIndex E (heap st) local_object index value);
  if HasCaught (TryCatch_of r) then try_catch_err st (TryCatch_of r)
  else Some (st, try_catch_ok_noval).

(** Fetches an object's value by key. *)
Definition mv8_object_get (st : Interface) (object : Z) (key_desc : ValueDesc)
  : option (Interface * TryCatchDesc) :=
  local_object ← Persistent_get st object;
  '(st, key) ← desc_to_value st key_desc;
  '(st, maybe_value) ← enter g st (Object_Get E (heap st) local_object key);
  match Maybe_of maybe_value with
  | None => try_catch_err st (TryCatch_of maybe_value)
  | Some v => Some (try_catch_ok st v)
  end.

(** Sets an object's property. *)
Definition mv8_object_set (st : Interface) (object : Z) (key_desc value_desc : ValueDesc)
  : option (Interface * TryCatchDesc) :=
  local_object ← Persistent_get st object;
  '(st, key) ← desc_to_value st key_desc;
  '(st, value) ← desc_to_value st value_desc;
  '(st, r) ← enter g st (Object_Set E (heap st) local_object key value);
  if HasCaught (TryCatch_of r) then try_catch_err st (TryCatch_of r)
  else Some (st, try_catch_ok_noval).

(** Deletes an object's property. *)
Definition mv8_object_remove (st : Interface) (object : Z) (key_desc : ValueDesc)
  : option (Interface * TryCatchDesc) :=
  local_object ← Persistent_get st object;
  '(st, key) ← desc_to_value st key_desc;
  '(st, r) ← enter g st (Object_Delete E (heap st) local_object key);
  if HasCaught (TryCatch_of r) then try_catch_err st (TryCatch_of r)
  else Some (st, try_catch_ok_noval).

(** Returns whether or not an object has a property with the given key. *)
Definition mv8_object_has (st : Interface) (object : Z) (key_desc : ValueDesc)
  : option (Interface * TryCatchDesc) :=
  local_object ← Persistent_get st object;
  '(st, key) ← desc_to_value st key_desc;
  '(st, has) ← enter g st (Object_Has E (heap st) local_object key);
  if HasCaught (TryCatch_of has) then try_catch_err st (TryCatch_of has)
  else
    b ← Maybe_of has;
    Some (st, try_catch_ok_val
                {| payload := payload_set_byte 0 (if b : bool then 1 else 0);
                   tag := ValueDescTag.Boolean |}).

(** Returns an array of the object's property keys. *)
Definition mv8_object_keys (st : Interface) (object : Z) (include_inherited : Z)
  : option (Interface * TryCatchDesc) :=
  local_object ← Persistent_get st object;
  '(st, maybe_keys) ←
    (if negb (include_inherited =? 0)
     then enter g st (Object_GetPropertyNames E (heap st) local_object)
     else enter g st (Object_GetOwnPropertyNames E (heap st) local_object));
  if HasCaught (TryCatch_of maybe_keys) then try_catch_err st (TryCatch_of maybe_keys)
  else
    keys ← Maybe_of maybe_keys;
    let '(st, p) := Persistent_new st keys in
    Some (st, try_catch_ok_val {| payload := p; tag := ValueDescTag.Array |}).

(** Coerces the given value into a boolean. *)
Definition mv8_coerce_boolean (st : Interface) (desc : ValueDesc) : option (Interface * Z) :=
  '(st, value) ← desc_to_value st desc;
  Some (st, to_uint8 (if BooleanValue value then 1 else 0)).

(** Coerces the given value into a number. *)
Definition mv8_coerce_number (st : Interface) (desc : ValueDesc)
  : option (Interface * TryCatchDesc) :=
  '(st, value) ← desc_to_value st desc;
  '(st, maybe_number) ← enter g st (Value_ToNumber E (heap st) value);
  if HasCaught (TryCatch_of maybe_number) then try_catch_err st (TryCatch_of maybe_number)
  else
    n ← Maybe_of maybe_number;
    Some (st, try_catch_ok_val
                {| payload := NumberValue n; tag := ValueDescTag.Number |}).

(** Coerces the given value into a string. *)
Definition mv8_coerce_string (st : Interface) (desc : ValueDesc)
  : option (Interface * TryCatchDesc) :=
  '(st, value) ← desc_to_value st desc;
  '(st, maybe_string) ← enter g st (Value_ToString E (heap st) value);
  if HasCaught (TryCatch_of maybe_string) then try_catch_err st (TryCatch_of maybe_string)
  else
    s ← Maybe_of maybe_string;
    let '(st, p) := Persistent_new st s in
    Some (st, try_catch_ok_val {| payload := p; tag := ValueDescTag.String |}).

(** The loop [for (int i = 0; i != args_len; i++) args[i] =
    desc_to_value(isolate, context, arg_descs[i]);] with [remaining]
    iterations to go. *)
Fixpoint decode_args (remaining i : nat) (st : Interface) (arg_descs : list ValueDesc)
    (args : list Value) : option (Interface * list Value) :=
  match remaining with
  | O => Some (st, args)
  | S remaining =>
      desc ← arg_descs !! i;
      '(st, v) ← desc_to_value st desc;
      decode_args remaining (S i) st arg_descs (<[i := v]> args)
  end.

(** [new v8::Local<v8::Value>[arg_descs_len]] followed by the loop.
    The slots start out as empty handles; [JsUndefined] stands in for
    them until the loop has written every slot. *)
Definition decode_arg_array (st : Interface) (arg_descs : list ValueDesc) (arg_descs_len : Z)
  : option (Interface * list Value) :=
  if arg_descs_len <? 0 then None
  else
    let args_len := Z.to_nat arg_descs_len in
    decode_args args_len 0 st arg_descs (replicate args_len JsUndefined).

(** Calls a function. *)
Definition mv8_function_call (st : Interface) (func_value : Z) (this_desc : ValueDesc)
    (arg_descs : list ValueDesc) (arg_descs_len : Z)
  : option (Interface * TryCatchDesc) :=
  func ← Persistent_get st func_value;
  '(st, this_value) ← desc_to_value st this_desc;
  '(st, args) ← decode_arg_array st arg_descs arg_descs_len;
  '(st, maybe_value) ← enter g st (Function_Call E (heap st) func this_value args);
  match Maybe_of maybe_value with
  | None => try_catch_err st (TryCatch_of maybe_value)
  | Some v => Some (try_catch_ok st v)
  end.

(** Calls a function as a constructor. *)
Definition mv8_function_call_new (st : Interface) (func_value : Z)
    (arg_descs : list ValueDesc) (arg_descs_len : Z)
  : option (Interface * TryCatchDesc) :=
  func ← Persistent_get st func_value;
  '(st, args) ← decode_arg_array st arg_descs arg_descs_len;
  '(st, maybe_object) ← enter g st (Function_NewInstance E (heap st) func args);
  match Maybe_of maybe_object with
  | None => try_catch_err st (TryCatch_of maybe_object)
  | Some object =>
      let '(st, p) := Persistent_new st object in
      Some (st, try_catch_ok_val {| payload := p; tag := ValueDescTag.Object |})
  end.

End Exports.

(** ** Native callbacks: registration and finalization *)

(** [isolate->AdjustAmountOfExternalAllocatedMemory(change_in_bytes)],
    with the argument converted to the parameter's type, [int64_t]. *)
Definition AdjustAmountOfExternalAllocatedMemory (st : Interface) (change_in_bytes : Z)
  : Interface :=
  {| self := self st; heap := heap st; persistents := persistents st;
     external_memory := to_int64 (external_memory st + to_int64 change_in_bytes);
     callbacks := callbacks st;
     next_alloc := next_alloc st; created := created st;
     released := released st; registered := registered st;
     finalized := finalized st; host_calls := host_calls st |}.

(** [new RustCallback], with the three fields that are set at once. *)
Definition RustCallback_new (st : Interface) (func func_size : Z) : Interface * Z :=
  let callback := next_alloc st in
  ({| self := self st; heap := heap st; persistents := persistents st;
      external_memory := external_memory st;
      callbacks := <[callback := {| func := func; func_size := func_size;
                                    interface := self st; value_ptr := 0 |}]>
                     (callbacks st);
      next_alloc := callback + 1; created := created st;
      released := released st; registered := callback :: registered st;
      finalized := finalized st; host_calls := host_calls st |}, callback).

(** [callback->value_ptr = p] *)
Definition RustCallback_set_value_ptr (st : Interface) (callback p : Z) : Interface :=
  {| self := self st; heap := heap st; persistents := persistents st;
     external_memory := external_memory st;
     callbacks := alter (λ c, {| func := func c; func_size := func_size c;
                                 interface := interface c; value_ptr := p |})
                    callback (callbacks st);
     next_alloc := next_alloc st; created := created st;
     released := released st; registered := registered st;
     finalized := finalized st; host_calls := host_calls st |}.

(** [delete callback], at the end of its finalizer. *)
Definition RustCallback_delete (st : Interface) (callback : Z) : Interface :=
  {| self := self st; heap := heap st; persistents := persistents st;
     external_memory := external_memory st;
     callbacks := delete callback (callbacks st);
     next_alloc := next_alloc st; created := created st;
     released := released st; registered := registered st;
     finalized := callback :: finalized st; host_calls := host_calls st |}.

(** [p->SetWrapperClassId(class_id)] *)
Definition SetWrapperClassId (st : Interface) (p class_id : Z) : Interface :=
  set_persistents st
    (alter (λ c, {| referent := referent c; wrapper_class_id := class_id;
                    weak_parameter := weak_parameter c |}) p (persistents st)).

(** [p->SetWeak(parameter, callback_drop, kParameter)] *)
Definition SetWeak (st : Interface) (p parameter : Z) : Interface :=
  set_persistents st
    (alter (λ c, {| referent := referent c; wrapper_class_id := wrapper_class_id c;
                    weak_parameter := Some parameter |}) p (persistents st)).

(** [p->ClearWeak()] *)
Definition ClearWeak (st : Interface) (p : Z) : Interface :=
  set_persistents st
    (alter (λ c, {| referent := referent c; wrapper_class_id := wrapper_class_id c;
                    weak_parameter := None |}) p (persistents st)).

(** [temp->GetFunction(context).ToLocalChecked()] for a template made
    from [rust_callback] and the External [ext]. *)
Definition FunctionTemplate_GetFunction (st : Interface) (ext : Z) : Interface * Value :=
  heap_alloc st (bare (ClsFunction (Some ext))).

(** [object->SetPrivate(context, priv_rust_callback, ext)] *)
Definition SetPrivate (st : Interface) (object : Value) (ext : Z) : Interface :=
  match object with
  | JsObject a =>
      set_heap st (alter (λ o, {| obj_class := obj_class o; obj_private := Some ext;
                                  obj_properties := obj_properties o;
                                  obj_prototype := obj_prototype o |})
                     a (heap st))
  | _ => st
  end.

(** [object->GetPrivate(context, priv_rust_callback).ToLocalChecked()],
    cast to an External and unwrapped. *)
Definition GetPrivate (st : Interface) (object : Value) : option Z :=
  match object with
  | JsObject a => o ← heap st !! a; obj_private o
  | _ => None
  end.

Definition callback_drop_inner (g : Globals) (st : Interface) (callback : Z)
  : option Interface :=
  c ← callbacks st !! callback;
  _ ← persistents st !! value_ptr c;
  let st := ClearWeak st (value_ptr c) in
  _ ← main_callback_drop_func g;
  let st := record_host_call st (DropCall (func c)) in
  st ← Persistent_delete st (value_ptr c);
  let size := to_uint64 (sizeof_RustCallback + func_size c) in
  let st := RustCallback_delete st callback in
  Some (AdjustAmountOfExternalAllocatedMemory st (to_uint64 (- size))).

(** The weak callback; [parameter] is [data.GetParameter()]. *)
Definition callback_drop (g : Globals) (st : Interface) (parameter : Z)
  : option Interface :=
  callback_drop_inner g st parameter.

(** The engine's collector calling the weak callback of the cell [p].
    It does so only for a live cell that is weak, and the callback has
    to have reset the cell when it returns: the collector does not go
    on with a weak cell that its callback left standing. *)
Definition collect (g : Globals) (st : Interface) (p : Z) : option Interface :=
  cell ← persistents st !! p;
  parameter ← weak_parameter cell;
  st ← callback_drop g st parameter;
  match persistents st !! p with
  | None => Some st
  | Some _ => None
  end.

(** [PersistentHandleCleaner::VisitPersistentHandle] *)
Definition VisitPersistentHandle (g : Globals) (st : Interface) (value class_id : Z)
  : option Interface :=
  if negb (class_id =? RUST_CALLBACK_CLASS_ID) then Some st
  else
    local_value ← Persistent_get st value;
    callback ← GetPrivate st local_value;
    callback_drop_inner g st callback.

(** [isolate->VisitHandlesWithClassIds(&visitor)]: the visitor is shown
    every cell that has a class id and is still live when its turn
    comes. [ps] are the cells there were when the visit began. *)
Fixpoint visit_handles (visit : Interface → Z → Z → option Interface) (ps : list Z)
    (st : Interface) : option Interface :=
  match ps with
  | [] => Some st
  | p :: ps =>
      match persistents st !! p with
      | Some cell =>
          if wrapper_class_id cell =? 0 then visit_handles visit ps st
          else st ← visit st p (wrapper_class_id cell); visit_handles visit ps st
      | None => visit_handles visit ps st
      end
  end.

Definition VisitHandlesWithClassIds (visit : Interface → Z → Z → option Interface)
    (st : Interface) : option Interface :=
  visit_handles visit (map_to_list (persistents st)).*1 st.

(** [isolate->Dispose()]: the script heap and the isolate's cells go. *)
Definition Isolate_Dispose (st : Interface) : Interface :=
  set_persistents (set_heap st ∅) ∅.

(** Creates a new [Interface], at the address [self]. *)
Definition mv8_interface_new (self : Z) : Interface :=
  {| self := self; heap := ∅; persistents := ∅; external_memory := 0;
     callbacks := ∅; next_alloc := self + 1; created := []; released := [];
     registered := []; finalized := []; host_calls := [] |}.

(** Drops an [Interface], disposing its isolate. *)
Definition mv8_interface_drop (g : Globals) (st : Interface) : option Interface :=
  st ← VisitHandlesWithClassIds (VisitPersistentHandle g) st;
  Some (Isolate_Dispose st).

(** Creates a function from a Rust callback. *)
Definition mv8_function_create (st : Interface) (func func_size : Z) : Interface * Z :=
  let '(st, callback) := RustCallback_new st func func_size in
  let ext := callback in
  let '(st, local_func) := FunctionTemplate_GetFunction st ext in
  let st := SetPrivate st local_func ext in
  let '(st, func_value) := Persistent_new st local_func in
  let '(st, func_value_weak) := Persistent_new st local_func in
  let st := RustCallback_set_value_ptr st callback func_value_weak in
  let st := SetWrapperClassId st func_value_weak RUST_CALLBACK_CLASS_ID in
  let st := SetWeak st func_value_weak callback in
  let size := to_uint64 (sizeof_RustCallback + func_size) in
  let st := AdjustAmountOfExternalAllocatedMemory st size in
  (st, func_value).

(** ** Exported constructors *)

(** [v8::Array::New(isolate, 0)] *)
Definition Array_New (st : Interface) : Interface * Value :=
  heap_alloc st (bare ClsArray).

(** [v8::Object::New(isolate)] *)
Definition Object_New (st : Interface) : Interface * Value :=
  heap_alloc st (bare ClsObject).

(** Creates a new string from raw bytes. *)
Definition mv8_string_new (st : Interface) (data : string) (length : Z)
  : option (Interface * Z) :=
  string ← string_new data length;
  Some (Persistent_new st (JsString string)).

(** Creates a new, empty array. *)
Definition mv8_array_new (st : Interface) : Interface * Z :=
  let '(st, array) := Array_New st in
  Persistent_new st array.

(** Creates a new object. *)
Definition mv8_object_new (st : Interface) : Interface * Z :=
  let '(st, object) := Object_New st in
  Persistent_new st object.

(** ** Arrow data nodes *)

(** The integer that a finite double is truncated to (toward zero);
    [None] for the infinities and the NaNs. *)
Definition dbl_trunc (d : Z) : option Z :=
  let e := dbl_exp d in
  if e =? 2047 then None
  else
    let m := if e =? 0 then dbl_frac d else 2 ^ 52 + dbl_frac d in
    let k := (if e =? 0 then 1 else e) - 1075 in
    let magnitude := if 0 <=? k then m * 2 ^ k else m / 2 ^ (- k) in
    Some (if dbl_sign d =? 1 then - magnitude else magnitude).

(** [(size_t)d] for a double [d]: the truncated value, which has to be
    one that [size_t] has. *)
Definition size_t_of_double (d : Z) : option Z :=
  t ← dbl_trunc d;
  if (0 <=? t) && (t <? 2 ^ 64) then Some t else None.

Record DataFFI := {
  len : Z;
  null_count : Z;
  n_buffers : Z;
  buffer_ptrs : list Z;          (* [buffer_ptrs[2]] *)
  buffer_capacities : list Z;    (* [buffer_capacities[2]] *)
  null_bits_ptr : Z;
  null_bits_capacity : Z
}.

Section DataNode.
Variable g : Globals.
Variable E : Engine.
(** [v8::Array::Length], a [uint32_t], for a value that is an array. *)
Variable Array_Length : gmap nat JsObj → Value → nat.
(** [v8::ArrayBuffer::GetContents]: the address and the byte length of
    the backing store; [None] for a value that is no ArrayBuffer. *)
Variable ArrayBuffer_GetContents : gmap nat JsObj → Value → option (Z * Z).

(** [obj->Get(context, key).ToLocalChecked()], with no try-catch
    around it. *)
Definition Get_ToLocalChecked (st : Interface) (obj key : Value)
  : option (Interface * Value) :=
  '(st, maybe_value) ← enter g st (Object_Get E (heap st) obj key);
  value ← Maybe_of maybe_value;
  Some (st, value).

(** [v8::Local<v8::Number>::Cast(value)->Value()] *)
Definition Number_Cast_Value (value : Value) : option Z :=
  if IsNumber value then Some (NumberValue value) else None.

(** The loop [for (size_t i = 0; i < data.n_buffers; ++i)], with
    [remaining] iterations to go, on the two arrays of [data]. *)
Fixpoint read_buffers (remaining i : nat) (st : Interface) (buffers : Value)
    (ptrs capacities : list Z) : option (Interface * list Z * list Z) :=
  match remaining with
  | O => Some (st, ptrs, capacities)
  | S remaining =>
      '(st, maybe_value) ←
        enter g st (Object_GetIndex E (heap st) buffers (Z.of_nat i));
      buffer_value ← Maybe_of maybe_value;
      '(data, byte_length) ← ArrayBuffer_GetContents (heap st) buffer_value;
      _ ← ptrs !! i;                       (* the arrays have two slots *)
      read_buffers remaining (S i) st buffers
        (<[i := data]> ptrs) (<[i := byte_length]> capacities)
  end.

Definition mv8_data_node_from_js (st : Interface) (data_desc : ValueDesc)
  : option (Interface * DataFFI) :=
  '(st, value) ← desc_to_value st data_desc;
  obj ← (if IsObject value then Some value else None);
  (* [memset(&data, 0, sizeof(DataFFI))] *)
  let ptrs := [0; 0] in
  let capacities := [0; 0] in
  '(st, len_value) ← Get_ToLocalChecked st obj (JsString "len");
  len_num ← Number_Cast_Value len_value;
  data_len ← size_t_of_double len_num;
  '(st, null_count_value) ← Get_ToLocalChecked st obj (JsString "null_count");
  null_count_num ← Number_Cast_Value null_count_value;
  data_null_count ← size_t_of_double null_count_num;
  '(st, buffers_value) ← Get_ToLocalChecked st obj (JsString "buffers");
  buffers ← (if IsArray st buffers_value then Some buffers_value else None);
  let buffers_length := Array_Length (heap st) buffers in
  (* [assert(buffers->Length() <= 2)] *)
  _ ← (if (buffers_length <=? 2)%nat then Some tt else None);
  let data_n_buffers := Z.of_nat buffers_length in
  '(st, ptrs, capacities) ← read_buffers buffers_length 0 st buffers ptrs capacities;
  '(st, null_bits_value) ← Get_ToLocalChecked st obj (JsString "null_bits");
  '(contents_data, contents_byte_length) ←
    ArrayBuffer_GetContents (heap st) null_bits_value;
  Some (st, {| len := data_len; null_count := data_null_count;
               n_buffers := data_n_buffers;
               buffer_ptrs := ptrs; buffer_capacities := capacities;
               null_bits_ptr := contents_data;
               null_bits_capacity := contents_byte_length |}).

End DataNode.

(** * Specification-level definitions *)

(** ** Encoding and decoding *)

(** The cell that [new v8::Persistent<v8::Value>(isolate, value)] makes. *)
Definition strong_cell (value : Value) : Persistent :=
  {| referent := value; wrapper_class_id := 0; weak_parameter := None |}.

(** [st'] is [st] with one more persistent cell, [p], made just now,
    strong and referring to [value]. *)
Definition fresh_handle (st st' : Interface) (p : Z) (value : Value) : Prop :=
  p = next_alloc st
  ∧ persistents st' = <[p := strong_cell value]> (persistents st)
  ∧ created st' = p :: created st
  ∧ released st' = released st
  ∧ heap st' = heap st
  ∧ callbacks st' = callbacks st
  ∧ external_memory st' = external_memory st.

(** The desc of a reference variant: tag [t], payload the address [p]. *)
Definition reference_desc (t p : Z) : ValueDesc := {| payload := p; tag := t |}.

(** The desc of a double-carrying variant. *)
Definition number_desc (t d : Z) : ValueDesc := {| payload := d; tag := t |}.

(** What [value_to_desc] is to produce for [value] in [st], by the kind
    of [value]. *)
Definition encodes (st : Interface) (value : Value) (st' : Interface) (desc : ValueDesc)
  : Prop :=
  match value with
  | JsUndefined => st' = st ∧ desc = {| payload := 0; tag := ValueDescTag.Undefined |}
  | JsNull => st' = st ∧ desc = {| payload := 0; tag := ValueDescTag.Null |}
  | JsTrue => st' = st ∧ desc = {| payload := 1; tag := ValueDescTag.Boolean |}
  | JsFalse => st' = st ∧ desc = {| payload := 0; tag := ValueDescTag.Boolean |}
  | JsNumber d => st' = st ∧ desc = number_desc ValueDescTag.Number d
  | JsString _ =>
      ∃ p, fresh_handle st st' p value ∧ desc = reference_desc ValueDescTag.String p
  | JsObject a =>
      match obj_class <$> heap st !! a with
      | Some (ClsDate t) => st' = st ∧ desc = number_desc ValueDescTag.Date t
      | Some ClsArray =>
          ∃ p, fresh_handle st st' p value ∧ desc = reference_desc ValueDescTag.Array p
      | Some (ClsFunction _) =>
          ∃ p, fresh_handle st st' p value ∧ desc = reference_desc ValueDescTag.Function p
      | _ =>
          ∃ p, fresh_handle st st' p value ∧ desc = reference_desc ValueDescTag.Object p
      end
  | JsSymbol _ | JsBigInt _ =>
      st' = st ∧ desc = {| payload := 0; tag := ValueDescTag.Undefined |}
  end.

(** Decoding the desc that encoding a value gave. *)
Definition decode_encode (st : Interface) (value : Value) : option (Interface * Value) :=
  let '(st, desc) := value_to_desc st value in
  desc_to_value st desc.

(** Same type and payload for a date, the same value otherwise (for an
    object, the same address). *)
Definition observably_equal (st : Interface) (v : Value) (st' : Interface) (v' : Value)
  : Prop :=
  if IsDate st v
  then IsDate st' v' = true ∧ Date_ValueOf st' v' = Date_ValueOf st v
  else v' = v.

(** The values [value_to_desc] has a variant for. *)
Definition classified (st : Interface) (value : Value) : bool :=
  IsUndefined value || IsNull value || IsTrue value || IsFalse value
  || IsInt32 value || IsNumber value || IsDate st value || IsString value
  || IsArray st value || IsFunction st value || IsObject value.

(** ** States and engines for the examples *)

(** An interface with nothing in it. *)
Definition empty_interface : Interface :=
  {| self := 1; heap := ∅; persistents := ∅; external_memory := 0;
     callbacks := ∅; next_alloc := 16; created := []; released := [];
     registered := []; finalized := []; host_calls := [] |}.

(** What the engine has for a thrown value without a [.stack]: the
    message alone. *)
Definition message_only (text : string) : Report :=
  {| report_trace := None; report_message := Some text |}.

(** Neither a stack trace nor a message. *)
Definition no_report : Report :=
  {| report_trace := None; report_message := None |}.

(** An engine every entry point of which leaves the heap alone, calls
    no registered function and completes the way it is told to. *)
Definition fixed_engine (cv : Completion Value) (cb : Completion bool) (cs : Completion Z)
  : Engine :=
  {| Script_Compile := λ h _ _, Done h cs;
     Script_Run := λ h _, Done h cv;
     Object_Get := λ h _ _, Done h cv;
     Object_GetIndex := λ h _ _, Done h cv;
     Object_Set := λ h _ _ _, Done h cb;
     Object_SetIndex := λ h _ _ _, Done h cb;
     Object_Delete := λ h _ _, Done h cb;
     Object_Has := λ h _ _, Done h cb;
     Object_GetPropertyNames := λ h _, Done h cv;
     Object_GetOwnPropertyNames := λ h _, Done h cv;
     Value_ToNumber := λ h _, Done h cv;
     Value_ToString := λ h _, Done h cv;
     Function_Call := λ h _ _ _, Done h cv;
     Function_NewInstance := λ h _ _, Done h cv |}.

(** How a call of a registered function ends for the script that made
    it, when the script does nothing more: with the value returned, or
    with the value thrown, uncaught. *)
Definition native_result (h : gmap nat JsObj) (result : CallbackResult) : Script Value :=
  match result with
  | ReturnValue_Set value => Done h (Returns value)
  | ThrowException value => Done h (Throws value (message_only "Uncaught"))
  end.

(** Calling [callee]: a function object made from the template of
    [mv8_function_create] is called through the trampoline; nothing
    else is callable here. *)
Definition call_function (h : gmap nat JsObj) (callee this : Value) (args : list Value)
  : Script Value :=
  match callee with
  | JsObject a =>
      match obj_class <$> h !! a with
      | Some (ClsFunction (Some _)) => CallNative h callee this args native_result
      | _ => Done h (Throws JsUndefined (message_only "TypeError: not a function"))
      end
  | _ => Done h (Throws JsUndefined (message_only "TypeError: not a function"))
  end.

(** An engine that calls the function it is asked to call, and whose
    scripts are all the script [f(1, f)] for the function object [f]
    at address 0. *)
Definition calling_engine : Engine :=
  let E := fixed_engine (Returns JsUndefined) (Returns true) (Returns 0) in
  {| Script_Compile := Script_Compile E;
     Script_Run := λ h _,
       call_function h (JsObject 0) JsUndefined
         [JsNumber (double_of_int32 1); JsObject 0];
     Object_Get := Object_Get E;
     Object_GetIndex := Object_GetIndex E;
     Object_Set := Object_Set E;
     Object_SetIndex := Object_SetIndex E;
     Object_Delete := Object_Delete E;
     Object_Has := Object_Has E;
     Object_GetPropertyNames := Object_GetPropertyNames E;
     Object_GetOwnPropertyNames := Object_GetOwnPropertyNames E;
     Value_ToNumber := Value_ToNumber E;
     Value_ToString := Value_ToString E;
     Function_Call := call_function;
     Function_NewInstance := λ h callee args, call_function h callee JsUndefined args |}.

(** An interface holding one plain object behind the persistent cell 16,
    one array behind the cell 17 and one more array. *)
Definition sample_interface : Interface :=
  {| self := 1;
     heap := {[ 0%nat := bare ClsObject; 1%nat := bare ClsArray; 2%nat := bare ClsArray ]};
     persistents := {[ 16 := strong_cell (JsObject 0); 17 := strong_cell (JsObject 1) ]};
     external_memory := 0; callbacks := ∅; next_alloc := 18;
     created := [17; 16]; released := [];
     registered := []; finalized := []; host_calls := [] |}.

(** ** Captured exceptions *)

(** The outcome for a value that script threw: the encoding of that
    value, flagged as an exception. *)
Definition thrown_outcome (st : Interface) (thrown : Value) (st' : Interface)
    (r : TryCatchDesc) : Prop :=
  (st', value_desc r) = value_to_desc st thrown ∧ is_exception r = 1.

(** The outcome for a terminated execution: an Object handle to a new
    Error object with the timeout message, flagged as an exception. *)
Definition timeout_outcome (st st' : Interface) (r : TryCatchDesc) : Prop :=
  ∃ a p,
    a = fresh (dom (heap st))
    ∧ heap st' = <[a := bare (ClsError "execution timed out")]> (heap st)
    ∧ fresh_handle (set_heap st (heap st')) st' p (JsObject a)
    ∧ value_desc r = reference_desc ValueDescTag.Object p
    ∧ is_exception r = 1.

(** ** Consumption of descs *)

(** The persistent cell a desc carries, if it is of a reference variant. *)
Definition desc_handle (desc : ValueDesc) : list Z :=
  if is_reference_tag (tag desc) then [payload_value_ptr (payload desc)] else [].

(** The cells of a list of descs, in order. *)
Fixpoint desc_handles (descs : list ValueDesc) : list Z :=
  match descs with
  | [] => []
  | desc :: descs => desc_handle desc ++ desc_handles descs
  end.

(** From [st] to [st'] exactly the cells [ps] were released, in that
    order, each of them live in [st] and none twice; no cell was made. *)
Record consumed (st st' : Interface) (ps : list Z) : Prop := {
  consumed_released : released st' = rev ps ++ released st;
  consumed_persistents :
    ∀ q, persistents st' !! q = if decide (q ∈ ps) then None else persistents st !! q;
  consumed_live : ∀ p, p ∈ ps → is_Some (persistents st !! p);
  consumed_NoDup : NoDup ps;
  consumed_created : created st' = created st;
  consumed_next_alloc : next_alloc st' = next_alloc st
}.

(** A desc whose cell, if it has one, is live. *)
Definition live_desc (st : Interface) (desc : ValueDesc) : Prop :=
  ∀ p, p ∈ desc_handle desc → is_Some (persistents st !! p).

(** As many cells were created as were released or are live. *)
Definition balanced (st : Interface) : Prop :=
  length (created st) = (length (released st) + size (persistents st))%nat.

(** Every live cell is at an address that [new] has handed out. *)
Definition alloc_ok (st : Interface) : Prop :=
  ∀ p, is_Some (persistents st !! p) → p < next_alloc st.

(** The exported operations that take descs. *)
Inductive Operation :=
  | ArraySet (array index : Z) (value_desc : ValueDesc)
  | ObjectGet (object : Z) (key_desc : ValueDesc)
  | ObjectSet (object : Z) (key_desc value_desc : ValueDesc)
  | ObjectRemove (object : Z) (key_desc : ValueDesc)
  | ObjectHas (object : Z) (key_desc : ValueDesc)
  | CoerceBoolean (desc : ValueDesc)
  | CoerceNumber (desc : ValueDesc)
  | CoerceString (desc : ValueDesc)
  | FunctionCall (func_value : Z) (this_desc : ValueDesc) (arg_descs : list ValueDesc)
  | FunctionCallNew (func_value : Z) (arg_descs : list ValueDesc).

Definition perform (g : Globals) (E : Engine) (st : Interface) (op : Operation)
  : option (Interface * (TryCatchDesc + Z)) :=
  match op with
  | ArraySet array index value_desc =>
      prod_map id inl <$> mv8_array_set g E st array index value_desc
  | ObjectGet object key_desc =>
      prod_map id inl <$> mv8_object_get g E st object key_desc
  | ObjectSet object key_desc value_desc =>
      prod_map id inl <$> mv8_object_set g E st object key_desc value_desc
  | ObjectRemove object key_desc =>
      prod_map id inl <$> mv8_object_remove g E st object key_desc
  | ObjectHas object key_desc =>
      prod_map id inl <$> mv8_object_has g E st object key_desc
  | CoerceBoolean desc => prod_map id inr <$> mv8_coerce_boolean st desc
  | CoerceNumber desc => prod_map id inl <$> mv8_coerce_number g E st desc
  | CoerceString desc => prod_map id inl <$> mv8_coerce_string g E st desc
  | FunctionCall func_value this_desc arg_descs =>
      prod_map id inl <$>
        mv8_function_call g E st func_value this_desc arg_descs
          (Z.of_nat (length arg_descs))
  | FunctionCallNew func_value arg_descs =>
      prod_map id inl <$>
        mv8_function_call_new g E st func_value arg_descs (Z.of_nat (length arg_descs))
  end.

(** The descs an operation takes, in the order it decodes them. *)
Definition operands (op : Operation) : list ValueDesc :=
  match op with
  | ArraySet _ _ value_desc => [value_desc]
  | ObjectGet _ key_desc | ObjectRemove _ key_desc | ObjectHas _ key_desc => [key_desc]
  | ObjectSet _ key_desc value_desc => [key_desc; value_desc]
  | CoerceBoolean desc | CoerceNumber desc | CoerceString desc => [desc]
  | FunctionCall _ this_desc arg_descs => this_desc :: arg_descs
  | FunctionCallNew _ arg_descs => arg_descs
  end.

(** The persistent cell an operation works on without consuming it. *)
Definition receiver (op : Operation) : option Z :=
  match op with
  | ArraySet p _ _ | ObjectGet p _ | ObjectSet p _ _ | ObjectRemove p _
  | ObjectHas p _ | FunctionCall p _ _ | FunctionCallNew p _ => Some p
  | CoerceBoolean _ | CoerceNumber _ | CoerceString _ => None
  end.

(** The receiver is live, and the reference descs carry live cells, no
    two the same one. *)
Definition well_formed (st : Interface) (op : Operation) : Prop :=
  (∀ p, receiver op = Some p → is_Some (persistents st !! p))
  ∧ NoDup (desc_handles (operands op))
  ∧ ∀ p, p ∈ desc_handles (operands op) → is_Some (persistents st !! p).

(** Operations one after the other. *)
Fixpoint perform_all (g : Globals) (E : Engine) (st : Interface) (ops : list Operation)
  : option Interface :=
  match ops with
  | [] => Some st
  | op :: ops => '(st, _) ← perform g E st op; perform_all g E st ops
  end.

(** The cells of the operands of a sequence of operations, in the order
    in which they are decoded. *)
Fixpoint operand_handles (ops : list Operation) : list Z :=
  match ops with
  | [] => []
  | op :: ops => desc_handles (operands op) ++ operand_handles ops
  end.

(** The desc of what an operation returns; the byte of a boolean
    coercion carries no desc. *)
Definition returned_desc (r : TryCatchDesc + Z) : ValueDesc :=
  match r with
  | inl r => value_desc r
  | inr _ => desc_undefined
  end.

(** What an operation returns is flagged 0 or 1. *)
Definition flagged (r : TryCatchDesc + Z) : Prop :=
  match r with
  | inl r => is_exception r = 0 ∨ is_exception r = 1
  | inr b => b = 0 ∨ b = 1
  end.

(** The exported operations that take a handle and no desc, and
    evaluation. *)
Inductive Inspection :=
  | Eval (source : string) (source_length : Z) (name : option (string * Z))
      (line_offset column_offset : Z)
  | ArrayGet (array index : Z)
  | ObjectKeys (object include_inherited : Z).

Definition inspect (g : Globals) (E : Engine) (st : Interface) (q : Inspection)
  : option (Interface * TryCatchDesc) :=
  match q with
  | Eval source source_length name line_offset column_offset =>
      mv8_interface_eval g E st source source_length name line_offset column_offset
  | ArrayGet array index => mv8_array_get g E st array index
  | ObjectKeys object include_inherited =>
      mv8_object_keys g E st object include_inherited
  end.

(** The origin that [mv8_interface_eval] gives the script: none
    without a name. *)
Definition script_origin (name : option (string * Z)) (line_offset column_offset : Z)
  : option (option (string * Z * Z)) :=
  match name with
  | Some (name_data, name_length) =>
      name ← string_new name_data name_length;
      Some (Some (name, line_offset, column_offset))
  | None => Some None
  end.

(** The exported constructors of values. *)
Inductive Construction :=
  | NewString (data : string) (length : Z)
  | NewArray
  | NewObject.

Definition construct (st : Interface) (c : Construction) : option (Interface * Z) :=
  match c with
  | NewString data length => mv8_string_new st data length
  | NewArray => Some (mv8_array_new st)
  | NewObject => Some (mv8_object_new st)
  end.

(** Text of ASCII characters only: every byte is below 0x80. *)
Fixpoint ascii_text (s : string) : bool :=
  match s with
  | EmptyString => true
  | String a rest => (Ascii.N_of_ascii a <? 0x80)%N && ascii_text rest
  end.

(** The variant under which the host holds what it constructed. *)
Definition constructed_tag (c : Construction) : Z :=
  match c with
  | NewString _ _ => ValueDescTag.String
  | NewArray => ValueDescTag.Array
  | NewObject => ValueDescTag.Object
  end.

(** ** The books of the cells *)

(** What a stretch of the bridge's code does to the cells and to the
    host, from one state to another: the cells it made, the cells it
    released and the calls of the host it made, each list with the
    latest first, as the logs have them. *)
Inductive ledger : Interface → list Z → list Z → list HostCall → Interface → Prop :=
  | ledger_refl st : ledger st [] [] [] st
  | ledger_heap st h : ledger st [] [] [] (set_heap st h)
  | ledger_new st value : ledger st [next_alloc st] [] [] (Persistent_new st value).1
  | ledger_delete st p st' :
      Persistent_delete st p = Some st' → ledger st [] [p] [] st'
  | ledger_host st c : ledger st [] [] [c] (record_host_call st c)
  | ledger_seq st1 made1 gone1 calls1 st2 made2 gone2 calls2 st3 :
      ledger st1 made1 gone1 calls1 st2 →
      ledger st2 made2 gone2 calls2 st3 →
      ledger st1 (made2 ++ made1) (gone2 ++ gone1) (calls2 ++ calls1) st3.

(** The cells handed to the host in a call of it: those of the descs
    of [this] and of the arguments. *)
Definition call_handles (c : HostCall) : list Z :=
  match c with
  | WrapperCall _ _ this_desc arg_descs => desc_handles (this_desc :: arg_descs)
  | DropCall _ => []
  end.

(** The cell the host hands back from a call of it: that of the desc
    its dispatcher returns. *)
Definition call_result (g : Globals) (c : HostCall) : list Z :=
  match c, main_callback_wrapper_func g with
  | WrapperCall interface func this_desc arg_descs, Some wrapper =>
      desc_handle
        (value_desc (wrapper interface func this_desc arg_descs
                       (Z.of_nat (length arg_descs))))
  | _, _ => []
  end.

(** The cells handed to the host, and back by it, in a list of calls,
    the latest first. *)
Definition handed_out (calls : list HostCall) : list Z :=
  flat_map (λ c, rev (call_handles c)) calls.

Definition handed_back (g : Globals) (calls : list HostCall) : list Z :=
  flat_map (call_result g) calls.

(** The closures that the host was told to drop, the latest first. *)
Definition drop_calls (calls : list HostCall) : list Z :=
  omap (λ c, match c with DropCall func => Some func | _ => None end) calls.

(** ** Registrations and their lifetime *)

(** The weak cell of the registration [cb] of the function object [a]. *)
Definition weak_cell (a : nat) (cb : Z) : Persistent :=
  {| referent := JsObject a; wrapper_class_id := RUST_CALLBACK_CLASS_ID;
     weak_parameter := Some cb |}.

(** What holds of the registrations between operations. *)
Record registry_ok (st : Interface) : Prop := {
  (* a live record has its weak cell, and the cell's function object
     has the record in its private slot *)
  ok_record : ∀ cb c, callbacks st !! cb = Some c →
    ∃ a o, persistents st !! value_ptr c = Some (weak_cell a cb)
           ∧ heap st !! a = Some o ∧ obj_private o = Some cb;
  (* a cell with a class id, or a weak one, is the weak cell of a live record *)
  ok_cell : ∀ p cell, persistents st !! p = Some cell →
    wrapper_class_id cell ≠ 0 ∨ weak_parameter cell ≠ None →
    ∃ cb c a, cell = weak_cell a cb ∧ callbacks st !! cb = Some c ∧ value_ptr c = p;
  (* a registered record is live and not finalized, or dead and finalized once *)
  ok_registered : ∀ cb, cb ∈ registered st →
    (is_Some (callbacks st !! cb) ∧ count_occ Z.eq_dec (finalized st) cb = 0%nat)
    ∨ (callbacks st !! cb = None ∧ count_occ Z.eq_dec (finalized st) cb = 1%nat);
  ok_live : ∀ cb, is_Some (callbacks st !! cb) → cb ∈ registered st;
  ok_finalized : ∀ cb, cb ∈ finalized st → cb ∈ registered st;
  ok_alloc_cell : ∀ p, is_Some (persistents st !! p) → p < next_alloc st;
  ok_alloc_record : ∀ cb, cb ∈ registered st → cb < next_alloc st;
  ok_distinct : NoDup (registered st)
}.

(** The private slots of the objects of [h] are what they were in [h']. *)
Definition keeps_private_slots (h h' : gmap nat JsObj) : Prop :=
  ∀ a o, h !! a = Some o → ∃ o', h' !! a = Some o' ∧ obj_private o' = obj_private o.

(** From [st] to [st'] the registrations were left alone: the records,
    the logs, the external memory and the closures dropped are the
    same, every cell is one there was or a strong one made since, and
    the private slots are kept. *)
Record frame (st st' : Interface) : Prop := {
  frame_callbacks : callbacks st' = callbacks st;
  frame_registered : registered st' = registered st;
  frame_finalized : finalized st' = finalized st;
  frame_external_memory : external_memory st' = external_memory st;
  frame_drop_calls : drop_calls (host_calls st') = drop_calls (host_calls st);
  frame_next_alloc : next_alloc st <= next_alloc st';
  frame_cells : ∀ p cell, persistents st' !! p = Some cell →
    persistents st !! p = Some cell
    ∨ (next_alloc st <= p < next_alloc st'
       ∧ wrapper_class_id cell = 0 ∧ weak_parameter cell = None);
  frame_private : keeps_private_slots (heap st) (heap st')
}.

(** The scripts of the entry points of [E] on the heap [h]. *)
Inductive script_of (E : Engine) (h : gmap nat JsObj) : ∀ A : Type, Script A → Prop :=
  | of_Compile source origin : script_of E h Z (Script_Compile E h source origin)
  | of_Run script : script_of E h Value (Script_Run E h script)
  | of_Get object key : script_of E h Value (Object_Get E h object key)
  | of_GetIndex object index : script_of E h Value (Object_GetIndex E h object index)
  | of_Set object key value : script_of E h bool (Object_Set E h object key value)
  | of_SetIndex object index value :
      script_of E h bool (Object_SetIndex E h object index value)
  | of_Delete object key : script_of E h bool (Object_Delete E h object key)
  | of_Has object key : script_of E h bool (Object_Has E h object key)
  | of_GetPropertyNames object :
      script_of E h Value (Object_GetPropertyNames E h object)
  | of_GetOwnPropertyNames object :
      script_of E h Value (Object_GetOwnPropertyNames E h object)
  | of_ToNumber value : script_of E h Value (Value_ToNumber E h value)
  | of_ToString value : script_of E h Value (Value_ToString E h value)
  | of_Call callee this args : script_of E h Value (Function_Call E h callee this args)
  | of_NewInstance callee args :
      script_of E h Value (Function_NewInstance E h callee args).
Arguments script_of E h {A} s.

(** Script that started on the heap [h] keeps the private slots,
    whatever the functions it calls return and leave of the heap. *)
Fixpoint script_ok {A} (h : gmap nat JsObj) (s : Script A) : Prop :=
  match s with
  | Done h' _ => keeps_private_slots h h'
  | CallNative h' _ _ _ resume =>
      keeps_private_slots h h' ∧ ∀ h'' result, script_ok h'' (resume h'' result)
  end.

(** An engine whose entry points keep the private slots: script has
    no access to a private symbol. *)
Definition engine_ok (E : Engine) : Prop :=
  ∀ h A (s : Script A), script_of E h s → script_ok h s.

(** The engine left a stack trace or a message with what it caught, so
    that the diagnostics of [try_catch_err] have a handle to read. *)
Definition reported {A} (c : Completion A) : Prop :=
  match c with
  | Returns _ => True
  | Throws _ r | Terminates _ r =>
      is_Some (report_trace r) ∨ is_Some (report_message r)
  end.

Fixpoint script_reports {A} (s : Script A) : Prop :=
  match s with
  | Done _ c => reported c
  | CallNative _ _ _ _ resume => ∀ h result, script_reports (resume h result)
  end.

Definition engine_reports (E : Engine) : Prop :=
  ∀ h A (s : Script A), script_of E h s → script_reports s.

(** The functions that script calls are function objects of the
    template whose registration is among [cbs]. *)
Fixpoint calls_registered {A} (cbs : gmap Z RustCallback) (s : Script A) : Prop :=
  match s with
  | Done _ _ => True
  | CallNative h callee _ _ resume =>
      (∃ a o ext, callee = JsObject a ∧ h !! a = Some o
                  ∧ obj_class o = ClsFunction (Some ext) ∧ is_Some (cbs !! ext))
      ∧ ∀ h' result, calls_registered cbs (resume h' result)
  end.

(** On the heap of [st], the engine calls no function object whose
    registration is finalized (such an object is unreachable). *)
Definition calls_live (E : Engine) (st : Interface) : Prop :=
  ∀ A (s : Script A), script_of E (heap st) s → calls_registered (callbacks st) s.

(** Every function object of the template has its registration. *)
Definition function_registered (cbs : gmap Z RustCallback) (o : JsObj) : bool :=
  match obj_class o with
  | ClsFunction (Some ext) => bool_decide (is_Some (cbs !! ext))
  | _ => true
  end.

Definition functions_registered (st : Interface) : Prop :=
  map_Forall (λ _ o, function_registered (callbacks st) o = true) (heap st).

(** The host has installed its dispatcher, and what a closure returns
    is a desc without a cell or with one of the cells that the call
    handed to it. *)
Definition host_answers (g : Globals) : Prop :=
  ∃ wrapper, main_callback_wrapper_func g = Some wrapper
    ∧ ∀ interface func this_desc arg_descs n p,
        p ∈ desc_handle (value_desc (wrapper interface func this_desc arg_descs n)) →
        p ∈ desc_handles (this_desc :: arg_descs).

(** The engine was entered, any number of times in a row, between [st]
    and [st']. *)
Inductive engine_phase (g : Globals) (E : Engine) : Interface → Interface → Prop :=
  | phase_none st : engine_phase g E st st
  | phase_enter st A (s : Script A) st' c :
      script_of E (heap st) s → enter g st s = Some (st', c) →
      engine_phase g E st st'
  | phase_seq st1 st2 st3 :
      engine_phase g E st1 st2 → engine_phase g E st2 st3 → engine_phase g E st1 st3.

(** How an operation ends: with the heap as the engine left it or with
    one more object (the Error made for a termination), and with the
    cell of the desc it returns, if that has one, made last. *)
Definition finish_phase (st st' : Interface) (desc : ValueDesc) : Prop :=
  ∃ h, keeps_private_slots (heap st) h
       ∧ ((st' = set_heap st h ∧ desc_handle desc = [])
          ∨ ∃ value, st' = (Persistent_new (set_heap st h) value).1
                     ∧ desc_handle desc = [next_alloc st]).

(** Every weak cell of [st] is still there, unchanged, in [st']. *)
Definition weak_cells_kept (st st' : Interface) : bool :=
  forallb (λ pc : Z * Persistent,
             match weak_parameter pc.2 with
             | Some _ => bool_decide (persistents st' !! pc.1 = Some pc.2)
             | None => true
             end)
          (map_to_list (persistents st)).

(** What happens to an interface between its creation and its drop.
    Script calls registered functions in the course of an operation or
    an evaluation; the collector runs a weak callback between two of
    the host's calls. *)
Inductive Event :=
  | Register (func func_size : Z)        (* the host registers a closure *)
  | Clone (value_ptr : Z)                (* the host clones a handle *)
  | Release (value_ptr : Z)              (* the host drops a handle *)
  | Construct (c : Construction)         (* the host makes a value *)
  | Operate (op : Operation)             (* the host runs an operation on values *)
  | Inspect (q : Inspection)             (* the host evaluates, reads or lists *)
  | ReadNode (Array_Length : gmap nat JsObj → Value → nat)
      (ArrayBuffer_GetContents : gmap nat JsObj → Value → option (Z * Z))
      (data_desc : ValueDesc)            (* the host reads a data node *)
  | Collect (cell : Z).                  (* the collector runs a weak callback *)

(** What an event does to the interface. *)
Definition transition (g : Globals) (E : Engine) (st : Interface) (e : Event)
  : option Interface :=
  match e with
  | Register func func_size => Some (mv8_function_create st func func_size).1
  | Clone p => fst <$> mv8_value_ptr_clone st p
  | Release p => mv8_value_ptr_drop st p
  | Construct c => fst <$> construct st c
  | Operate op => fst <$> perform g E st op
  | Inspect q => fst <$> inspect g E st q
  | ReadNode Array_Length ArrayBuffer_GetContents data_desc =>
      fst <$> mv8_data_node_from_js g E Array_Length ArrayBuffer_GetContents st data_desc
  | Collect p => collect g st p
  end.

(** The events in which the host passes cells in, or gets one back. *)
Definition by_host (e : Event) : bool :=
  match e with
  | Register _ _ | Collect _ => false
  | _ => true
  end.

(** The host holds strong cells only (the weak cell of a registration
    is never handed out), so an event by which the host would release
    a weak cell is not one that happens. *)
Definition step (g : Globals) (E : Engine) (st : Interface) (e : Event)
  : option Interface :=
  st' ← transition g E st e;
  if by_host e && negb (weak_cells_kept st st') then None else Some st'.

(** Events one after the other. *)
Fixpoint run (g : Globals) (E : Engine) (st : Interface) (events : list Event)
  : option Interface :=
  match events with
  | [] => Some st
  | e :: events => st ← step g E st e; run g E st events
  end.

(** The number of closures registered by a sequence of events. *)
Definition is_registration (e : Event) : bool :=
  match e with Register _ _ => true | _ => false end.

Definition registrations (events : list Event) : nat :=
  length (filter (λ e, is_registration e = true) events).

(** The closures registered by a sequence of events, in order. *)
Definition registered_funcs (events : list Event) : list Z :=
  omap (λ e, match e with Register func _ => Some func | _ => None end) events.

(** The closures of the registrations that are live. *)
Definition live_funcs (st : Interface) : list Z :=
  func <$> (map_to_list (callbacks st)).*2.

(** Dispatchers of a host whose closures return their second argument. *)
Definition sample_globals : Globals :=
  mv8_init
    (Some (λ _ _ _ arg_descs _,
             {| value_desc := default desc_undefined (arg_descs !! 1%nat);
                is_exception := 0 |}))
    (Some (λ _, tt)).

(** ** The trampoline, as specified *)

(** Encoding a list of values one after the other, first to last. *)
Fixpoint encode_values (st : Interface) (values : list Value) : Interface * list ValueDesc :=
  match values with
  | [] => (st, [])
  | value :: values =>
      let '(st, desc) := value_to_desc st value in
      let '(st, descs) := encode_values st values in
      (st, desc :: descs)
  end.

(** What the trampoline is to do, in the words of the specification:
    encode [this], then each argument in call order; hand the closure
    pointer and the descs to the dispatcher; decode the desc of the
    outcome; throw it if the outcome is an exception, return it
    otherwise. *)
Definition invoke_trampoline (wrapper : rust_callback_wrapper) (st : Interface)
    (callback : RustCallback) (this : Value) (args : list Value)
  : option (Interface * CallbackResult) :=
  let '(st, this_desc) := value_to_desc st this in
  let '(st, arg_descs) := encode_values st args in
  let outcome :=
    wrapper (interface callback) (func callback) this_desc arg_descs
      (Z.of_nat (length args)) in
  let st :=
    record_host_call st
      (WrapperCall (interface callback) (func callback) this_desc arg_descs) in
  '(st, value) ← desc_to_value st (value_desc outcome);
  Some (st, if is_exception outcome =? 0 then ReturnValue_Set value
            else ThrowException value).

(** [descs] are the descs of [values], one for one and in order, each
    encoded in the state its predecessors left. *)
Inductive encoded_in_order : Interface → list Value → Interface → list ValueDesc → Prop :=
  | encoded_nil st : encoded_in_order st [] st []
  | encoded_cons st value st1 desc values st2 descs :
      encodes st value st1 desc →
      encoded_in_order st1 values st2 descs →
      encoded_in_order st (value :: values) st2 (desc :: descs).

(** The sample interface with one closure registered. *)
Definition registered_interface : Interface :=
  (mv8_function_create sample_interface 4096 16).1.

(** ** Descs in normal form *)

(** The desc that encoding gives for the value a desc without a cell
    decodes to: the tag if it is one of the five variants without a
    cell and Undefined otherwise, the double of a Number or a Date, 0
    or 1 for a Boolean, and no payload otherwise. *)
Definition normal_form (desc : ValueDesc) : ValueDesc :=
  let t := tag desc in
  if t =? ValueDescTag.Null then {| payload := 0; tag := ValueDescTag.Null |}
  else if t =? ValueDescTag.Number then number_desc ValueDescTag.Number (payload desc)
  else if t =? ValueDescTag.Boolean then
    {| payload := if payload_byte (payload desc) =? 0 then 0 else 1;
       tag := ValueDescTag.Boolean |}
  else if t =? ValueDescTag.Date then number_desc ValueDescTag.Date (payload desc)
  else {| payload := 0; tag := ValueDescTag.Undefined |}.

(** A time value: a double that is a whole number of milliseconds of
    magnitude 8.64e15 at most, and not minus zero. [Date::New] stores
    these as they are, and clips the others. *)
Definition time_value (d : Z) : bool :=
  (d =? 0)
  || (let k := dbl_exp d - 1023 in
      is_double d && (0 <=? k) && (k <=? 52)
      && (dbl_frac d mod 2 ^ (52 - k) =? 0)
      && (2 ^ k + dbl_frac d / 2 ^ (52 - k) <=? 8640000000000000)).

(** The descs whose double V8 stores as it is given: a Number that is
    no NaN (for a NaN, [Number::New] stores the quiet NaN), a Date of a
    time value. The other variants carry no double. *)
Definition stored_as_given (desc : ValueDesc) : bool :=
  if tag desc =? ValueDescTag.Number then negb (dbl_is_nan (payload_number (payload desc)))
  else if tag desc =? ValueDescTag.Date then time_value (payload_number (payload desc))
  else true.

(** ** Argument arrays *)

(** Decoding a list of descs one after the other, first to last. *)
Fixpoint decode_values (st : Interface) (descs : list ValueDesc)
  : option (Interface * list Value) :=
  match descs with
  | [] => Some (st, [])
  | desc :: descs =>
      '(st, value) ← desc_to_value st desc;
      '(st, values) ← decode_values st descs;
      Some (st, value :: values)
  end.

(** The values that go through a desc and come back as themselves: the
    ones [value_to_desc] has a variant for, dates apart (a date comes
    back as another Date object of the same time). *)
Definition passes_through (st : Interface) (value : Value) : Prop :=
  classified st value = true ∧ IsDate st value = false.

(** ** External memory, over the lifetime of an interface *)

(** What a registration is charged: the record and the closure. *)
Definition charge (c : RustCallback) : Z := sizeof_RustCallback + func_size c.

(** The charges of the live registrations, added up. *)
Definition charged (cs : gmap Z RustCallback) : Z :=
  map_fold (λ _ c total, total + charge c) 0 cs.

(** The amount by which the bridge has adjusted the isolate's counter
    stands at the charges of the live registrations (as the [int64_t]
    that it is). *)
Definition memory_accounted (st : Interface) : Prop :=
  external_memory st = to_int64 (charged (callbacks st)).

(** ** A data node for the examples *)

(** An engine on which every object reads as a data node of three
    rows with no nulls and one buffer: [len] is 3, [null_count] is 0,
    [buffers] is the array at address 1, whose elements, like
    [null_bits], are the object at address 2. *)
Definition data_engine : Engine :=
  let E := fixed_engine (Returns (JsObject 2)) (Returns true) (Returns 0) in
  {| Script_Compile := Script_Compile E;
     Script_Run := Script_Run E;
     Object_Get := λ h _ key,
       Done h (Returns (match key with
                        | JsString s =>
                            if String.eqb s "len" then JsNumber (double_of_int32 3)
                            else if String.eqb s "null_count" then JsNumber 0
                            else if String.eqb s "buffers" then JsObject 1
                            else JsObject 2
                        | _ => JsUndefined
                        end));
     Object_GetIndex := Object_GetIndex E;
     Object_Set := Object_Set E;
     Object_SetIndex := Object_SetIndex E;
     Object_Delete := Object_Delete E;
     Object_Has := Object_Has E;
     Object_GetPropertyNames := Object_GetPropertyNames E;
     Object_GetOwnPropertyNames := Object_GetOwnPropertyNames E;
     Value_ToNumber := Value_ToNumber E;
     Value_ToString := Value_ToString E;
     Function_Call := Function_Call E;
     Function_NewInstance := Function_NewInstance E |}.

(** The backing store of the object at address 2: 8 bytes at 4096. *)
Definition data_contents (h : gmap nat JsObj) (value : Value) : option (Z * Z) :=
  match value with
  | JsObject 2 => Some (4096, 8)
  | _ => None
  end.

(** ** Property keys, as the engine lists them *)

(** The keys of the enumerable properties of an object, in the order
    in which the properties were created. *)
Definition enumerable_keys (o : JsObj) : list PropertyKey :=
  prop_key <$> filter (λ p, prop_enumerable p = true) (obj_properties o).

Definition key_index (k : PropertyKey) : option Z :=
  match k with KeyIndex i => Some i | _ => None end.

Definition key_name (k : PropertyKey) : option string :=
  match k with KeyName s => Some s | _ => None end.

(** [GetOwnPropertyNames(context)]: the own properties that are
    enumerable and whose key is no symbol; the array indices come
    first, in ascending order, and the names after them, in the order
    of their creation. *)
Definition own_property_names (o : JsObj) : list PropertyKey :=
  (KeyIndex <$> merge_sort Z.le (omap key_index (enumerable_keys o)))
  ++ (KeyName <$> omap key_name (enumerable_keys o)).

(** The keys of all own properties, enumerable or not: an inherited
    property of one of these keys is shadowed. *)
Definition own_keys (o : JsObj) : list PropertyKey := prop_key <$> obj_properties o.

(** [objs] is the prototype chain of [o]: [o], its prototype, the
    prototype of that, up to the object that has none. *)
Inductive prototype_chain (h : gmap nat JsObj) : JsObj → list JsObj → Prop :=
  | chain_end o : obj_prototype o = None → prototype_chain h o [o]
  | chain_next o a prototype objs :
      obj_prototype o = Some a → h !! a = Some prototype →
      prototype_chain h prototype objs →
      prototype_chain h o (o :: objs).

(** [GetPropertyNames(context)] along a prototype chain: the names of
    the object, then those of its prototype for which the object has
    no property, and so on; [shadowed] are the keys of the properties
    of the objects passed. *)
Fixpoint chain_names (shadowed : list PropertyKey) (objs : list JsObj)
  : list PropertyKey :=
  match objs with
  | [] => []
  | o :: objs =>
      filter (λ k, k ∉ shadowed) (own_property_names o)
      ++ chain_names (shadowed ++ own_keys o) objs
  end.

(** The first [depth] objects and one of the prototype chain of [o]. *)
Fixpoint prototype_objects (depth : nat) (h : gmap nat JsObj) (o : JsObj) : list JsObj :=
  o :: match depth, obj_prototype o with
       | S depth, Some a =>
           match h !! a with
           | Some prototype => prototype_objects depth h prototype
           | None => []
           end
       | _, _ => []
       end.

(** [(double)i] for an array index [i]: exact, since 32 < 53. *)
Definition double_of_index (i : Z) : Z :=
  if i =? 0 then 0
  else (1023 + Z.log2 i) * 2 ^ 52 + (i - 2 ^ Z.log2 i) * 2 ^ (52 - Z.log2 i).

(** A key as an element of the keys array: an index is kept as a
    number ([KeyConversionMode::kKeepNumbers] is the default). *)
Definition key_value (k : PropertyKey) : Value :=
  match k with
  | KeyIndex i => JsNumber (double_of_index i)
  | KeyName s => JsString s
  | KeySymbol id => JsSymbol id
  end.

(** An array with the elements [values]. *)
Definition array_of (values : list Value) : JsObj :=
  {| obj_class := ClsArray; obj_private := None;
     obj_properties :=
       imap (λ i value, {| prop_key := KeyIndex (Z.of_nat i); prop_value := value;
                           prop_enumerable := true |}) values;
     obj_prototype := None |}.

(** The elements of an array, in index order. *)
Definition array_elements (o : JsObj) : list Value := prop_value <$> obj_properties o.

(** An entry point that makes the array of [keys] and returns it,
    running no script. *)
Definition keys_array (h : gmap nat JsObj) (keys : list PropertyKey) : Script Value :=
  let a := fresh (dom h) in
  Done (<[a := array_of (key_value <$> keys)]> h) (Returns (JsObject a)).

(** The engine lists the keys of the object at [a], whose prototype
    chain is [objs], as said above. *)
Definition lists_keys (E : Engine) (h : gmap nat JsObj) (a : nat) (objs : list JsObj)
  : Prop :=
  Object_GetOwnPropertyNames E h (JsObject a)
  = keys_array h (own_property_names (default (bare ClsObject) (head objs)))
  ∧ Object_GetPropertyNames E h (JsObject a) = keys_array h (chain_names [] objs).

(** An engine that lists keys, and does nothing else. A prototype
    chain is no longer than the heap has objects. *)
Definition listing_engine : Engine :=
  let E := fixed_engine (Returns JsUndefined) (Returns true) (Returns 0) in
  let list_keys (names : gmap nat JsObj → JsObj → list PropertyKey)
        (h : gmap nat JsObj) (object : Value) : Script Value :=
    match object with
    | JsObject a =>
        match h !! a with
        | Some o => keys_array h (names h o)
        | None => Done h (Returns JsUndefined)
        end
    | _ => Done h (Returns JsUndefined)
    end in
  {| Script_Compile := Script_Compile E;
     Script_Run := Script_Run E;
     Object_Get := Object_Get E;
     Object_GetIndex := Object_GetIndex E;
     Object_Set := Object_Set E;
     Object_SetIndex := Object_SetIndex E;
     Object_Delete := Object_Delete E;
     Object_Has := Object_Has E;
     Object_GetPropertyNames :=
       list_keys (λ h o, chain_names [] (prototype_objects (size h) h o));
     Object_GetOwnPropertyNames := list_keys (λ _, own_property_names);
     Value_ToNumber := Value_ToNumber E;
     Value_ToString := Value_ToString E;
     Function_Call := Function_Call E;
     Function_NewInstance := Function_NewInstance E |}.

(** The keys in the order of creation, as the specification words it. *)
Definition keys_in_creation_order (o : JsObj) : list PropertyKey :=
  filter (λ k, is_Some (key_index k) ∨ is_Some (key_name k)) (enumerable_keys o).

(** A property with a value of no interest. *)
Definition property (k : PropertyKey) (enumerable : bool) : Property :=
  {| prop_key := k; prop_value := JsTrue; prop_enumerable := enumerable |}.

(** The object [{b: true, 2: true, a: true, 1: true}] with one more
    property, [d], that is not enumerable, and its prototype, with the
    enumerable properties [c], [a], [d] and [0]. *)
Definition keyed_object : JsObj :=
  {| obj_class := ClsObject; obj_private := None;
     obj_properties :=
       [property (KeyName "b") true; property (KeyIndex 2) true;
        property (KeyName "a") true; property (KeyIndex 1) true;
        property (KeyName "d") false];
     obj_prototype := Some 1%nat |}.

Definition keyed_prototype : JsObj :=
  {| obj_class := ClsObject; obj_private := None;
     obj_properties :=
       [property (KeyName "c") true; property (KeyName "a") true;
        property (KeyName "d") true; property (KeyIndex 0) true];
     obj_prototype := None |}.

(** An interface with the two, the object behind the cell 16. *)
Definition keyed_interface : Interface :=
  {| self := 1;
     heap := {[ 0%nat := keyed_object; 1%nat := keyed_prototype ]};
     persistents := {[ 16 := strong_cell (JsObject 0) ]};
     external_memory := 0; callbacks := ∅; next_alloc := 17;
     created := [16]; released := [];
     registered := []; finalized := []; host_calls := [] |}.

(** * Properties *)

(** ** Doubles *)

Lemma dbl_decompose d :
  0 <= d < 2 ^ 64 →
  d = dbl_sign d * 2 ^ 63 + dbl_exp d * 2 ^ 52 + dbl_frac d
  ∧ 0 <= dbl_sign d <= 1.
Proof.
  intros Hd. unfold dbl_sign, dbl_exp, dbl_frac.
  assert (H63 : d / 2 ^ 63 = d / 2 ^ 52 / 2 ^ 11)
    by (rewrite Z.div_div by lia; reflexivity).
  pose proof (Z.div_mod d (2 ^ 52) ltac:(lia)) as H1.
  pose proof (Z.div_mod (d / 2 ^ 52) (2 ^ 11) ltac:(lia)) as H2.
  rewrite <- H63 in H2.
  assert (0 <= d / 2 ^ 63) by (apply Z.div_pos; lia).
  assert (d / 2 ^ 63 < 2) by (apply Z.div_lt_upper_bound; lia).
  lia.
Qed.

(** Converting an int32 double to [int32_t] and back to [double] gives
    the double back. *)
Lemma double_of_int32_integer d :
  dbl_is_int32 d = true → double_of_int32 (dbl_integer d) = d.
Proof.
  unfold dbl_is_int32, is_double. intros H.
  apply andb_true_iff in H as [Hd H].
  apply andb_true_iff in Hd as [Hd0 Hd1].
  apply Z.leb_le in Hd0. apply Z.ltb_lt in Hd1.
  unfold dbl_integer.
  destruct (Z.eqb_spec d 0) as [->|Hnz]; [reflexivity|].
  simpl in H.
  repeat (apply andb_true_iff in H as [H ?]).
  destruct (dbl_decompose d ltac:(lia)) as [Hdec Hs].
  unfold dbl_magnitude in *.
  set (k := dbl_exp d - 1023) in *.
  assert (Hk0 : 0 <= k) by (apply Z.leb_le; assumption).
  assert (Hk1 : k <= 31) by (apply Z.leb_le; assumption).
  assert (Hf : 0 <= dbl_frac d < 2 ^ 52)
    by (unfold dbl_frac; apply Z.mod_pos_bound; lia).
  set (q := dbl_frac d / 2 ^ (52 - k)) in *.
  assert (Hp : 0 < 2 ^ (52 - k)) by (apply Z.pow_pos_nonneg; lia).
  assert (Hpk : 0 < 2 ^ k) by (apply Z.pow_pos_nonneg; lia).
  assert (Hsplit : 2 ^ 52 = 2 ^ (52 - k) * 2 ^ k)
    by (rewrite <- Z.pow_add_r by lia; f_equal; lia).
  assert (Hfq : dbl_frac d = q * 2 ^ (52 - k)).
  { pose proof (Z.div_mod (dbl_frac d) (2 ^ (52 - k)) ltac:(lia)) as Hdm.
    assert (dbl_frac d mod 2 ^ (52 - k) = 0) by (apply Z.eqb_eq; assumption).
    subst q. lia. }
  assert (Hq : 0 <= q < 2 ^ k).
  { split; [subst q; apply Z.div_pos; lia|].
    subst q. apply Z.div_lt_upper_bound; lia. }
  assert (Hlog : Z.log2 (2 ^ k + q) = k).
  { apply Z.log2_unique; [lia|]. rewrite Z.pow_succ_r by lia. lia. }
  unfold double_of_int32.
  destruct (Z.eqb_spec (dbl_sign d) 1) as [Hs1|Hs1].
  - destruct (Z.eqb_spec (- (2 ^ k + q)) 0); [lia|].
    replace (Z.abs (- (2 ^ k + q))) with (2 ^ k + q) by lia.
    rewrite Hlog.
    destruct (Z.ltb_spec (- (2 ^ k + q)) 0); [|lia].
    subst k. lia.
  - destruct (Z.eqb_spec (2 ^ k + q) 0); [lia|].
    replace (Z.abs (2 ^ k + q)) with (2 ^ k + q) by lia.
    rewrite Hlog.
    destruct (Z.ltb_spec (2 ^ k + q) 0); [lia|].
    subst k. lia.
Qed.

(** The fields of the double made of the sign [s], the exponent field
    [e] and the fraction [f]. *)
Lemma dbl_fields s e f :
  0 <= s <= 1 → 0 <= e < 2 ^ 11 → 0 <= f < 2 ^ 52 →
  let d := s * 2 ^ 63 + e * 2 ^ 52 + f in
  0 <= d < 2 ^ 64 ∧ dbl_sign d = s ∧ dbl_exp d = e ∧ dbl_frac d = f.
Proof.
  intros Hs He Hf d. unfold dbl_sign, dbl_exp, dbl_frac.
  assert (Hd : d = f + (s * 2 ^ 11 + e) * 2 ^ 52) by (subst d; lia).
  split; [subst d; lia|]. split; [|split].
  - symmetry. apply (Z.div_unique d (2 ^ 63) s (e * 2 ^ 52 + f)); [lia|subst d; lia].
  - rewrite Hd, Z.div_add by lia. rewrite (Z.div_small f), Z.add_0_l by lia.
    rewrite (Z.add_comm (s * 2 ^ 11) e), Z.mod_add by lia. apply Z.mod_small. lia.
  - rewrite Hd, Z.mod_add by lia. apply Z.mod_small. lia.
Qed.

(** A 32-bit integer, converted to a double, is an int32 number, and
    its integer value is the integer. *)
Lemma double_of_int32_is_int32 i :
  - 2 ^ 31 <= i < 2 ^ 31 →
  dbl_is_int32 (double_of_int32 i) = true ∧ dbl_integer (double_of_int32 i) = i.
Proof.
  intros Hi. unfold double_of_int32.
  destruct (Z.eqb_spec i 0) as [->|Hnz]; [split; reflexivity|].
  set (a := Z.abs i). set (k := Z.log2 a).
  assert (Ha : 0 < a <= 2 ^ 31) by (subst a; lia).
  destruct (Z.log2_spec a ltac:(lia)) as [Hlo Hhi]. fold k in Hlo, Hhi.
  assert (Hk0 : 0 <= k) by (subst k; apply Z.log2_nonneg).
  assert (Hk1 : k <= 31).
  { destruct (Z_le_gt_dec k 31) as [|Hgt]; [assumption|exfalso].
    assert (2 ^ 32 <= 2 ^ k) by (apply Z.pow_le_mono_r; lia). lia. }
  rewrite Z.pow_succ_r in Hhi by lia.
  assert (Hp : 0 < 2 ^ (52 - k)) by (apply Z.pow_pos_nonneg; lia).
  assert (Hsplit : 2 ^ 52 = 2 ^ (52 - k) * 2 ^ k)
    by (rewrite <- Z.pow_add_r by lia; f_equal; lia).
  set (f := (a - 2 ^ k) * 2 ^ (52 - k)).
  assert (Hf : 0 <= f < 2 ^ 52) by (subst f; nia).
  set (s := if i <? 0 then 1 else 0).
  replace ((if i <? 0 then 2 ^ 63 else 0) + (1023 + k) * 2 ^ 52 + f)
    with (s * 2 ^ 63 + (1023 + k) * 2 ^ 52 + f)
    by (subst s; destruct (i <? 0); lia).
  destruct (dbl_fields s (1023 + k) f) as (Hd & Hsign & Hexp & Hfrac);
    [subst s; destruct (i <? 0); lia|lia|assumption|].
  set (d := s * 2 ^ 63 + (1023 + k) * 2 ^ 52 + f) in *.
  assert (Hdnz : d ≠ 0) by (subst d s; destruct (i <? 0); lia).
  assert (Hmag : dbl_magnitude d = a).
  { unfold dbl_magnitude. rewrite Hexp, Hfrac.
    replace (1023 + k - 1023) with k by lia.
    subst f. rewrite Z.div_mul by lia. lia. }
  split.
  - unfold dbl_is_int32, is_double.
    replace (0 <=? d) with true by (symmetry; apply Z.leb_le; lia).
    replace (d <? 2 ^ 64) with true by (symmetry; apply Z.ltb_lt; lia).
    destruct (Z.eqb_spec d 0); [contradiction|]. simpl.
    rewrite Hexp, Hfrac, Hmag, Hsign.
    replace (1023 + k - 1023) with k by lia.
    replace (0 <=? k) with true by (symmetry; apply Z.leb_le; lia).
    replace (k <=? 31) with true by (symmetry; apply Z.leb_le; lia).
    subst f. rewrite Z.mod_mul by lia. simpl.
    subst s. destruct (Z.ltb_spec i 0); simpl.
    + apply Z.leb_le. lia.
    + apply Z.ltb_lt. subst a. lia.
  - unfold dbl_integer. destruct (Z.eqb_spec d 0); [contradiction|].
    rewrite Hsign, Hmag. subst s a. destruct (Z.ltb_spec i 0); simpl; lia.
Qed.

Example double_of_int32_42 : double_of_int32 42 = 0x4045000000000000.
Proof. reflexivity. Qed.

Example dbl_is_int32_42 : dbl_is_int32 0x4045000000000000 = true.
Proof. reflexivity. Qed.

Example dbl_is_int32_half : dbl_is_int32 0x3FE0000000000000 = false.
Proof. reflexivity. Qed.

Example dbl_is_int32_minus_zero : dbl_is_int32 (2 ^ 63) = false.
Proof. reflexivity. Qed.

Example dbl_is_int32_min : dbl_is_int32 (double_of_int32 (- 2 ^ 31)) = true.
Proof. reflexivity. Qed.

Example dbl_is_int32_2p31 : dbl_is_int32 0x41E0000000000000 = false.
Proof. reflexivity. Qed.

(** ** Encoding: [value_to_desc] *)

Lemma Persistent_new_fresh st value :
  fresh_handle st (Persistent_new st value).1 (Persistent_new st value).2 value.
Proof. unfold fresh_handle; simpl; repeat split. Qed.

(** [value_to_desc] gives what [encodes] asks for. *)
Lemma value_to_desc_encodes (st : Interface) (value : Value) :
  ∃ st' desc, value_to_desc st value = (st', desc) ∧ encodes st value st' desc.
Proof.
  destruct (value_to_desc st value) as [st' desc] eqn:Hv.
  exists st', desc. split; [reflexivity|].
  destruct value as [| | | |d|s|id|n|a]; simpl in *;
    try (injection Hv as <- <-; split; reflexivity).
  - (* number *)
    unfold value_to_desc in Hv; simpl in Hv.
    destruct (dbl_is_int32 d) eqn:Hint; injection Hv as <- <-;
      (split; [reflexivity|]).
    + unfold with_number, number_desc; simpl. f_equal.
      apply double_of_int32_integer; assumption.
    + reflexivity.
  - (* string *)
    unfold value_to_desc in Hv; simpl in Hv. injection Hv as <- <-.
    eexists; split; [apply (Persistent_new_fresh st (JsString s))|reflexivity].
  - (* object *)
    unfold value_to_desc, IsDate, IsArray, IsFunction, Date_ValueOf in Hv;
      simpl in Hv.
    destruct (heap st !! a) as [[[ | |data|t|m] priv]|]; simpl in *;
      injection Hv as <- <-;
      try (eexists; split; [apply (Persistent_new_fresh st (JsObject a))|reflexivity]).
    split; reflexivity.
Qed.

(** [value_to_desc] makes one cell or leaves the state as it is. *)
Lemma value_to_desc_cases st value :
  (value_to_desc st value).1 = st
  ∨ (value_to_desc st value).1 = (Persistent_new st value).1.
Proof.
  unfold value_to_desc.
  repeat match goal with
  | |- context [if ?b then _ else _] => destruct b; simpl; auto
  end.
Qed.

(** C4. [value_to_desc] is a total function with no failure result, and
    it classifies every engine value: undefined as Undefined, null as
    Null, true and false as Boolean with byte 1 and 0, every number as
    Number carrying the number as a double (a 32-bit integer goes
    through the int32 branch and is widened to the same double), a date
    object as Date carrying its time value, a string, an array, a
    function and any other object as the reference variant of its kind
    carrying a persistent cell made by this call, strong and referring
    to that very value, and anything else (a symbol, a bigint) as
    Undefined, leaving the state as it was. *)
Theorem value_to_desc_total (st : Interface) (value : Value) :
  (∃ st' desc, value_to_desc st value = (st', desc) ∧ encodes st value st' desc)
  ∧ ∀ i, - 2 ^ 31 <= i < 2 ^ 31 →
      IsInt32 (JsNumber (double_of_int32 i)) = true
      ∧ Int32Value (JsNumber (double_of_int32 i)) = i
      ∧ value_to_desc st (JsNumber (double_of_int32 i))
        = (st, number_desc ValueDescTag.Number (double_of_int32 i)).
Proof.
  split; [apply value_to_desc_encodes|].
  intros i Hi. destruct (double_of_int32_is_int32 i Hi) as [Hint Hval].
  split; [exact Hint|]. split; [exact Hval|].
  unfold value_to_desc. simpl. rewrite Hint, Hval. reflexivity.
Qed.

Lemma value_to_desc_total_witness :
  IsInt32 (JsNumber (double_of_int32 (-7))) = true
  ∧ Int32Value (JsNumber (double_of_int32 (-7))) = -7
  ∧ value_to_desc sample_interface (JsNumber (double_of_int32 (-7)))
    = (sample_interface, number_desc ValueDescTag.Number (double_of_int32 (-7))).
Proof.
  apply (proj2 (value_to_desc_total sample_interface JsUndefined) (-7)). lia.
Defined.

Example value_to_desc_int32 (st : Interface) :
  value_to_desc st (JsNumber (double_of_int32 (-7)))
  = (st, {| payload := 0xC01C000000000000; tag := ValueDescTag.Number |}).
Proof. reflexivity. Qed.

(** ** Decoding after encoding *)

(** C3, as stated, fails: a symbol encodes as Undefined, and decoding
    that gives undefined, not the symbol. A script whose value is a
    symbol is reported just as one whose value is undefined. *)
Lemma decode_encode_symbol :
  decode_encode empty_interface (JsSymbol 0) = Some (empty_interface, JsUndefined)
  ∧ ¬ observably_equal empty_interface (JsSymbol 0) empty_interface JsUndefined
  ∧ mv8_interface_eval sample_globals
      (fixed_engine (Returns (JsSymbol 0)) (Returns true) (Returns 0))
      empty_interface "Symbol()" 8 None 0 0
    = Some (empty_interface,
            {| value_desc := {| payload := 0; tag := ValueDescTag.Undefined |};
               is_exception := 0 |}).
Proof.
  split; [reflexivity|]. split; [|reflexivity].
  unfold observably_equal; simpl. discriminate.
Qed.

(** C3, amended. For every engine value that [value_to_desc] has a
    variant for, decoding its desc gives a value observably equal to
    it: the same value for undefined, null, a boolean, a number, the
    identical referent for a string, an array, a function and an
    object, and a date with the same time value for a date. *)
Theorem decode_encode_classified (st : Interface) (value : Value) :
  classified st value = true →
  ∃ st' value', decode_encode st value = Some (st', value')
                ∧ observably_equal st value st' value'.
Proof.
  intros Hc. unfold decode_encode.
  destruct (value_to_desc_encodes st value) as (st1 & desc & Hv & Henc).
  rewrite Hv. unfold observably_equal, IsDate.
  assert (Href : ∀ t p, is_reference_tag t = true → t ≠ ValueDescTag.Null →
                 t ≠ ValueDescTag.Number → t ≠ ValueDescTag.Boolean →
                 t ≠ ValueDescTag.Date →
                 fresh_handle st st1 p value →
                 ∃ st', desc_to_value st1 (reference_desc t p) = Some (st', value)).
  { intros t p Ht H1 H2 H3 H4 (-> & Hp & _).
    unfold desc_to_value; simpl.
    repeat match goal with
    | |- context [?x =? ?y] =>
        lazymatch x with
        | t => destruct (Z.eqb_spec x y); [congruence|]
        end
    end.
    rewrite Ht. unfold Persistent_get, Persistent_delete, payload_value_ptr.
    rewrite Hp, lookup_insert_eq. simpl. eauto. }
  destruct value as [| | | |d|s|id|n|a]; simpl in Henc; try discriminate Hc.
  1-5: destruct Henc as [-> ->]; eexists _, _; split; reflexivity.
  - destruct Henc as (p & Hp & ->).
    destruct (Href ValueDescTag.String p) as [st' ->]; try done.
    eexists _, _; split; reflexivity.
  - simpl. destruct (heap st !! a) as [[[ | |data|t|m] priv props proto]|] eqn:Ha; simpl in *.
    1-3,5-6: destruct Henc as (p & Hp & ->).
    + destruct (Href ValueDescTag.Object p) as [st' ->]; try done.
      eexists _, _; split; reflexivity.
    + destruct (Href ValueDescTag.Array p) as [st' ->]; try done.
      eexists _, _; split; reflexivity.
    + destruct (Href ValueDescTag.Function p) as [st' ->]; try done.
      eexists _, _; split; reflexivity.
    + destruct (Href ValueDescTag.Object p) as [st' ->]; try done.
      eexists _, _; split; reflexivity.
    + destruct (Href ValueDescTag.Object p) as [st' ->]; try done.
      eexists _, _; split; reflexivity.
    + destruct Henc as [-> ->].
      eexists _, _; split; [reflexivity|].
      unfold IsDate, Date_ValueOf, object_class; simpl.
      rewrite lookup_insert_eq, Ha. simpl. split; reflexivity.
Qed.

(** The sample array goes out as an Array handle and comes back as
    itself. *)
Lemma decode_encode_classified_witness :
  ∃ st' value',
    decode_encode sample_interface (JsObject 1) = Some (st', value')
    ∧ observably_equal sample_interface (JsObject 1) st' value'.
Proof. apply (decode_encode_classified sample_interface (JsObject 1)). reflexivity. Defined.

(** ** The exception channel *)

(** ** The exception channel *)

Lemma set_heap_id st : set_heap st (heap st) = st.
Proof. destruct st; reflexivity. Qed.

Lemma enter_Done {A} g st h (c : Completion A) :
  enter g st (Done h c) = Some (set_heap st h, c).
Proof. reflexivity. Qed.

Lemma timeout_message :
  string_new EXECUTION_TIMEOUT_MESSAGE (sizeof_literal EXECUTION_TIMEOUT_MESSAGE - 1)
  = Some "execution timed out".
Proof. reflexivity. Qed.

Lemma reported_cases (trace message : option string) :
  is_Some trace ∨ is_Some message →
  (∃ t, trace = Some t) ∨ (trace = None ∧ ∃ m, message = Some m).
Proof.
  intros [[t ->]|[m ->]]; [eauto|]. destruct trace; eauto.
Qed.

(** A value thrown by script goes out as its own encoding. *)
Lemma try_catch_err_thrown st caught thrown trace message :
  is_Some trace ∨ is_Some message →
  ∃ st' r,
    try_catch_err st {| HasCaught := caught; Exception := Some thrown;
                        HasTerminated := false;
                        StackTrace := trace; Message := message |} = Some (st', r)
    ∧ thrown_outcome st thrown st' r.
Proof.
  intros Hrep. unfold try_catch_err; simpl.
  destruct (value_to_desc st thrown) as [st' desc] eqn:Hv.
  exists st', {| value_desc := desc; is_exception := 1 |}. split.
  - destruct (reported_cases _ _ Hrep) as [[t ->]|[-> [m ->]]]; simpl; rewrite ?Hv;
      reflexivity.
  - unfold thrown_outcome; simpl. rewrite Hv. split; reflexivity.
Qed.

(** After a termination, with something to print, the timeout error
    goes out instead of what the try-catch holds. *)
Lemma try_catch_err_terminated st caught native trace message :
  is_Some trace ∨ is_Some message →
  ∃ st' r,
    try_catch_err st {| HasCaught := caught; Exception := native;
                        HasTerminated := true;
                        StackTrace := trace; Message := message |} = Some (st', r)
    ∧ timeout_outcome st st' r.
Proof.
  intros Hrep.
  assert (Hbody : ∃ st' r,
    (let '(st1, e) := Exception_Error st "execution timed out" in
     let '(st2, desc) := value_to_desc st1 e in
     Some (st2, {| value_desc := desc; is_exception := 1 |})) = Some (st', r)
    ∧ timeout_outcome st st' r).
  { unfold Exception_Error, heap_alloc; simpl.
    set (a := fresh (dom (heap st))).
    set (st1 := set_heap st _).
    destruct (value_to_desc_encodes st1 (JsObject a)) as (st' & desc & Hv & Henc).
    rewrite Hv. eexists _, _; split; [reflexivity|].
    simpl in Henc. subst st1. simpl in Henc.
    rewrite lookup_insert_eq in Henc. simpl in Henc.
    destruct Henc as (p & Hp & ->).
    assert (Hh : heap st' = <[a := bare (ClsError "execution timed out")]> (heap st))
      by (destruct Hp as (_ & _ & _ & _ & -> & _); reflexivity).
    exists a, p. simpl. rewrite Hh. repeat split; try reflexivity; apply Hp. }
  destruct Hbody as (st' & r & Hbody & Hout). exists st', r. split; [|exact Hout].
  rewrite <- Hbody. unfold try_catch_err. rewrite timeout_message. simpl.
  destruct (reported_cases _ _ Hrep) as [[t ->]|[-> [m ->]]]; simpl;
    destruct (Exception_Error _ _) as [st1 e]; simpl;
    destruct (value_to_desc st1 e); reflexivity.
Qed.

(** With neither a stack trace nor a message the diagnostics read an
    empty handle: nothing is returned. *)
Lemma try_catch_err_unreported st caught value terminated :
  try_catch_err st {| HasCaught := caught; Exception := value;
                      HasTerminated := terminated;
                      StackTrace := None; Message := None |} = None.
Proof. reflexivity. Qed.

(** C5, the termination case. [try_catch_err] does substitute an Error
    object with the message "execution timed out" for whatever the
    try-catch holds after a termination, and reports it with
    [is_exception] = 1, provided the try-catch has a stack trace or a
    message for the diagnostics printed first. A termination leaves
    neither with the try-catch: the diagnostics then read the text of an
    empty message handle, before the substitution is reached, and no
    outcome comes back, from [try_catch_err] or from an evaluation that
    was terminated. *)
Theorem try_catch_err_termination_unreported :
  (∀ st caught native,
      try_catch_err st {| HasCaught := caught; Exception := native;
                          HasTerminated := true;
                          StackTrace := None; Message := None |} = None)
  ∧ (∀ g, mv8_interface_eval g
      (fixed_engine (Terminates (Some JsNull) no_report) (Returns true) (Returns 0))
      empty_interface "for (;;) {}" 11 None 0 0 = None)
  ∧ (∀ st caught native text, ∃ st' r,
      try_catch_err st {| HasCaught := caught; Exception := native;
                          HasTerminated := true;
                          StackTrace := None; Message := Some text |} = Some (st', r)
      ∧ timeout_outcome st st' r).
Proof.
  split; [|split].
  - reflexivity.
  - reflexivity.
  - intros st caught native text. apply try_catch_err_terminated. right. eauto.
Qed.

(** What [mv8_interface_eval] does, with the strings made first. *)
Lemma mv8_interface_eval_steps g E st source source_length name line column :
  mv8_interface_eval g E st source source_length name line column
  = (src ← string_new source source_length;
     origin ← script_origin name line column;
     '(st, script) ← enter g st (Script_Compile E (heap st) src origin);
     match Maybe_of script with
     | Some s =>
         '(st, maybe_value) ← enter g st (Script_Run E (heap st) s);
         match Maybe_of maybe_value with
         | Some v => Some (try_catch_ok st v)
         | None => try_catch_err st (TryCatch_of maybe_value)
         end
     | None => try_catch_err st (TryCatch_of script)
     end).
Proof.
  unfold mv8_interface_eval, script_origin.
  destruct (string_new source source_length) as [src|]; [|reflexivity]. simpl.
  destruct name as [[name_data name_length]|]; [|reflexivity]. simpl.
  destruct (string_new name_data name_length); reflexivity.
Qed.

(** Evaluation reports what running the script threw in that way. *)
Lemma mv8_interface_eval_throws g E st source source_length name line column src origin
    st1 s st2 thrown report :
  string_new source source_length = Some src →
  script_origin name line column = Some origin →
  enter g st (Script_Compile E (heap st) src origin) = Some (st1, Returns s) →
  enter g st1 (Script_Run E (heap st1) s) = Some (st2, Throws thrown report) →
  reported (@Throws Value thrown report) →
  ∃ st' r, mv8_interface_eval g E st source source_length name line column = Some (st', r)
           ∧ thrown_outcome st2 thrown st' r.
Proof.
  intros Hs Ho Hc Hr Hrep. rewrite mv8_interface_eval_steps, Hs, Ho; simpl.
  rewrite Hc; simpl. rewrite Hr; simpl.
  destruct (try_catch_err_thrown st2 true thrown _ _ Hrep) as (st' & r & Ht & Hout).
  eauto.
Qed.

Lemma mv8_interface_eval_terminated g E st source source_length name line column src origin
    st1 s st2 native report :
  string_new source source_length = Some src →
  script_origin name line column = Some origin →
  enter g st (Script_Compile E (heap st) src origin) = Some (st1, Returns s) →
  enter g st1 (Script_Run E (heap st1) s) = Some (st2, Terminates native report) →
  reported (@Terminates Value native report) →
  ∃ st' r, mv8_interface_eval g E st source source_length name line column = Some (st', r)
           ∧ timeout_outcome st2 st' r.
Proof.
  intros Hs Ho Hc Hr Hrep. rewrite mv8_interface_eval_steps, Hs, Ho; simpl.
  rewrite Hc; simpl. rewrite Hr; simpl.
  destruct (try_catch_err_terminated st2 true native _ _ Hrep) as (st' & r & Ht & Hout).
  eauto.
Qed.

Lemma mv8_interface_eval_terminated_unreported g E st source source_length name line column
    src origin st1 s st2 native :
  string_new source source_length = Some src →
  script_origin name line column = Some origin →
  enter g st (Script_Compile E (heap st) src origin) = Some (st1, Returns s) →
  enter g st1 (Script_Run E (heap st1) s) = Some (st2, Terminates native no_report) →
  mv8_interface_eval g E st source source_length name line column = None.
Proof.
  intros Hs Ho Hc Hr. rewrite mv8_interface_eval_steps, Hs, Ho; simpl.
  rewrite Hc; simpl. rewrite Hr; simpl. reflexivity.
Qed.

(** Evaluating "throw 42" on an engine that runs it by throwing 42. *)
Example mv8_interface_eval_throw_42 :
  mv8_interface_eval sample_globals
    (fixed_engine (Throws (JsNumber (double_of_int32 42)) (message_only "Uncaught 42"))
       (Returns true) (Returns 0))
    empty_interface "throw 42" 8 None 0 0
  = Some (empty_interface,
          {| value_desc := number_desc ValueDescTag.Number (double_of_int32 42);
             is_exception := 1 |}).
Proof. reflexivity. Qed.

(** A thrown number 42 is Number 42 on the other side, not an Error
    object. *)
Example try_catch_err_throw_42 st :
  try_catch_err st
    (TryCatch_of (@Throws unit (JsNumber (double_of_int32 42)) (message_only "Uncaught 42")))
  = Some (st, {| value_desc := number_desc ValueDescTag.Number 0x4045000000000000;
                 is_exception := 1 |}).
Proof. reflexivity. Qed.

(** A terminated evaluation, had the try-catch a message. *)
Example mv8_interface_eval_timeout :
  ∃ st r, mv8_interface_eval sample_globals
            (fixed_engine (Terminates (Some JsNull) (message_only "terminated"))
               (Returns true) (Returns 0))
            empty_interface "for (;;) {}" 11 None 0 0 = Some (st, r)
          ∧ value_desc r = reference_desc ValueDescTag.Object 16
          ∧ is_exception r = 1
          ∧ object_class st (JsObject 0) = Some (ClsError "execution timed out").
Proof. eexists _, _. split; [reflexivity|]. repeat split; reflexivity. Qed.

(** What [try_catch_err] returns, when it returns: the encoding of the
    value thrown or, after a termination, of the Error it made. *)
Lemma try_catch_err_cases st try_catch st' r :
  try_catch_err st try_catch = Some (st', r) →
  is_exception r = 1
  ∧ ∃ st1 value,
      (st', value_desc r) = value_to_desc st1 value
      ∧ ((HasTerminated try_catch = false ∧ st1 = st
          ∧ Exception try_catch = Some value)
         ∨ (HasTerminated try_catch = true
            ∧ (st1, value) = Exception_Error st "execution timed out")).
Proof.
  unfold try_catch_err. intros H.
  assert (H' : ('(st, value) ←
             (if HasTerminated try_catch then
                message ← string_new EXECUTION_TIMEOUT_MESSAGE
                            (sizeof_literal EXECUTION_TIMEOUT_MESSAGE - 1);
                let '(st', e) := Exception_Error st message in
                Some (st', Some e)
              else Some (st, Exception try_catch));
            value ← value;
            let '(st, desc) := value_to_desc st value in
            Some (st, {| value_desc := desc; is_exception := 1 |})) = Some (st', r)).
  { destruct (StackTrace try_catch); [|destruct (Message try_catch)]; simpl in H;
      [exact H|exact H|discriminate]. }
  clear H. rewrite timeout_message in H'.
  destruct (HasTerminated try_catch).
  - cbn [mbind option_bind] in H'.
    destruct (Exception_Error st "execution timed out") as [st1 e] eqn:He.
    cbn [mbind option_bind] in H'.
    destruct (value_to_desc st1 e) as [st2 desc] eqn:Hv. injection H' as <- <-.
    split; [reflexivity|]. exists st1, e. rewrite Hv. split; [reflexivity|].
    right. split; reflexivity.
  - cbn [mbind option_bind] in H'.
    destruct (Exception try_catch) as [e|]; cbn [mbind option_bind] in H'; [|discriminate].
    destruct (value_to_desc st e) as [st2 desc] eqn:Hv. injection H' as <- <-.
    split; [reflexivity|]. exists st, e. rewrite Hv. split; [reflexivity|].
    left. repeat split; reflexivity.
Qed.

Lemma try_catch_err_is_exception st try_catch st' r :
  try_catch_err st try_catch = Some (st', r) → is_exception r = 1.
Proof. intros H. apply (try_catch_err_cases _ _ _ _ H). Qed.

(** ** Outcomes without a value *)

(** C10. The success outcome without a value is the Undefined desc
    with [is_exception] = 0; it carries no handle; it is the very
    outcome that a call producing the undefined value gives, be it
    [try_catch_ok] or a read of a property that is undefined; whenever
    set-by-key, set-by-index or delete-by-key return without an
    exception, that is the outcome they return; and they do return it
    whenever the receiver is live, the descs decode and the engine's
    set or delete comes back without having thrown, then with the
    state as the engine left it. *)
Theorem try_catch_ok_noval_outcome (g : Globals) (E : Engine) (st : Interface) :
  try_catch_ok_noval
  = {| value_desc := {| payload := 0; tag := ValueDescTag.Undefined |};
       is_exception := 0 |}
  ∧ is_reference_tag (tag (value_desc try_catch_ok_noval)) = false
  ∧ try_catch_ok st JsUndefined = (st, try_catch_ok_noval)
  ∧ (∀ object key_desc value_desc st' r,
       mv8_object_set g E st object key_desc value_desc = Some (st', r) →
       is_exception r = 0 → r = try_catch_ok_noval)
  ∧ (∀ array index value_desc st' r,
       mv8_array_set g E st array index value_desc = Some (st', r) →
       is_exception r = 0 → r = try_catch_ok_noval)
  ∧ (∀ object key_desc st' r,
       mv8_object_remove g E st object key_desc = Some (st', r) →
       is_exception r = 0 → r = try_catch_ok_noval)
  ∧ (∀ object local key_desc value_desc st1 key st2 value st3 done,
       Persistent_get st object = Some local →
       desc_to_value st key_desc = Some (st1, key) →
       desc_to_value st1 value_desc = Some (st2, value) →
       enter g st2 (Object_Set E (heap st2) local key value) = Some (st3, Returns done) →
       mv8_object_set g E st object key_desc value_desc = Some (st3, try_catch_ok_noval))
  ∧ (∀ array local index value_desc st1 value st2 done,
       Persistent_get st array = Some local →
       desc_to_value st value_desc = Some (st1, value) →
       enter g st1 (Object_SetIndex E (heap st1) local index value)
       = Some (st2, Returns done) →
       mv8_array_set g E st array index value_desc = Some (st2, try_catch_ok_noval))
  ∧ (∀ object local key_desc st1 key st2 done,
       Persistent_get st object = Some local →
       desc_to_value st key_desc = Some (st1, key) →
       enter g st1 (Object_Delete E (heap st1) local key) = Some (st2, Returns done) →
       mv8_object_remove g E st object key_desc = Some (st2, try_catch_ok_noval))
  ∧ (∀ object local key_desc st1 key st2,
       Persistent_get st object = Some local →
       desc_to_value st key_desc = Some (st1, key) →
       enter g st1 (Object_Get E (heap st1) local key) = Some (st2, Returns JsUndefined) →
       mv8_object_get g E st object key_desc = Some (st2, try_catch_ok_noval)).
Proof.
  assert (Hend : ∀ (s : Interface) (c : Completion bool) st' r,
            (if HasCaught (TryCatch_of c) then try_catch_err s (TryCatch_of c)
             else Some (s, try_catch_ok_noval)) = Some (st', r) →
            is_exception r = 0 → r = try_catch_ok_noval).
  { intros s c st' r H H0. destruct (HasCaught (TryCatch_of c)).
    - apply try_catch_err_is_exception in H. lia.
    - congruence. }
  split; [reflexivity|]. split; [reflexivity|]. split; [reflexivity|].
  split; [|split; [|split; [|split; [|split; [|split]]]]].
  - intros object key_desc value_desc st' r H H0.
    unfold mv8_object_set in H.
    destruct (Persistent_get st object) as [local|]; simpl in H; [|discriminate].
    destruct (desc_to_value st key_desc) as [[st1 key]|]; simpl in H; [|discriminate].
    destruct (desc_to_value st1 value_desc) as [[st2 value]|]; simpl in H; [|discriminate].
    destruct (enter g st2 _) as [[st3 c]|]; simpl in H; [|discriminate].
    eapply Hend; eassumption.
  - intros array index value_desc st' r H H0.
    unfold mv8_array_set in H.
    destruct (Persistent_get st array) as [local|]; simpl in H; [|discriminate].
    destruct (desc_to_value st value_desc) as [[st1 value]|]; simpl in H; [|discriminate].
    destruct (enter g st1 _) as [[st3 c]|]; simpl in H; [|discriminate].
    eapply Hend; eassumption.
  - intros object key_desc st' r H H0.
    unfold mv8_object_remove in H.
    destruct (Persistent_get st object) as [local|]; simpl in H; [|discriminate].
    destruct (desc_to_value st key_desc) as [[st1 key]|]; simpl in H; [|discriminate].
    destruct (enter g st1 _) as [[st3 c]|]; simpl in H; [|discriminate].
    eapply Hend; eassumption.
  - intros object local key_desc value_desc st1 key st2 value st3 done Hg Hk Hv He.
    unfold mv8_object_set. rewrite Hg; simpl. rewrite Hk; simpl. rewrite Hv; simpl.
    rewrite He; reflexivity.
  - intros array local index value_desc st1 value st2 done Hg Hv He.
    unfold mv8_array_set. rewrite Hg; simpl. rewrite Hv; simpl. rewrite He; reflexivity.
  - intros object local key_desc st1 key st2 done Hg Hk He.
    unfold mv8_object_remove. rewrite Hg; simpl. rewrite Hk; simpl.
    rewrite He; reflexivity.
  - intros object local key_desc st1 key st2 Hg Hk He.
    unfold mv8_object_get. rewrite Hg; simpl. rewrite Hk; simpl. rewrite He; reflexivity.
Qed.

(** The array's handle as key and a number as value, set on the sample
    object by an engine that stores them; the number set as the first
    element of the sample array; the key deleted from the object. *)
Lemma try_catch_ok_noval_outcome_witness :
  let E := fixed_engine (Returns JsUndefined) (Returns true) (Returns 0) in
  let key := {| payload := 17; tag := ValueDescTag.Array |} in
  let value := number_desc ValueDescTag.Number (double_of_int32 1) in
  (∃ st', mv8_object_set sample_globals E sample_interface 16 key value
          = Some (st', try_catch_ok_noval))
  ∧ (∃ st', mv8_array_set sample_globals E sample_interface 17 0 value
            = Some (st', try_catch_ok_noval))
  ∧ (∃ st', mv8_object_remove sample_globals E sample_interface 16 key
            = Some (st', try_catch_ok_noval)).
Proof.
  intros E key value.
  pose proof (try_catch_ok_noval_outcome sample_globals E sample_interface)
    as (_ & _ & _ & _ & _ & _ & Hset & Hindex & Hremove & _).
  split; [|split]; eexists.
  - eapply (Hset 16 (JsObject 0) key value); reflexivity.
  - eapply (Hindex 17 (JsObject 1) 0 value); reflexivity.
  - eapply (Hremove 16 (JsObject 0) key); reflexivity.
Defined.

(** ** Key enumeration *)

Lemma own_property_names_elem o k :
  k ∈ own_property_names o
  ↔ (k ∈ enumerable_keys o ∧ (is_Some (key_index k) ∨ is_Some (key_name k))).
Proof.
  unfold own_property_names. rewrite elem_of_app, !list_elem_of_fmap. split.
  - intros [(i & -> & Hi)|(s & -> & Hs)].
    + rewrite merge_sort_Permutation in Hi. apply list_elem_of_omap in Hi as (k & Hk & Hi).
      destruct k; try discriminate. injection Hi as ->. split; [assumption|].
      left. simpl. eauto.
    + apply list_elem_of_omap in Hs as (k & Hk & Hs).
      destruct k; try discriminate. injection Hs as ->. split; [assumption|].
      right. simpl. eauto.
  - intros [Hk [[i Hi]|[s Hs]]].
    + left. exists i. destruct k; try discriminate. injection Hi as ->.
      split; [reflexivity|]. rewrite merge_sort_Permutation.
      apply list_elem_of_omap. eauto.
    + right. exists s. destruct k; try discriminate. injection Hs as ->.
      split; [reflexivity|]. apply list_elem_of_omap. eauto.
Qed.

Lemma own_property_names_order o :
  ∃ indices,
    own_property_names o
    = (KeyIndex <$> indices) ++ (KeyName <$> omap key_name (enumerable_keys o))
    ∧ StronglySorted Z.le indices
    ∧ indices ≡ₚ omap key_index (enumerable_keys o).
Proof.
  exists (merge_sort Z.le (omap key_index (enumerable_keys o))).
  split; [reflexivity|]. split.
  - apply StronglySorted_merge_sort; apply _.
  - apply merge_sort_Permutation.
Qed.

Lemma names_in_creation_order (ks : list PropertyKey) :
  omap key_index ks = [] →
  KeyName <$> omap key_name ks
  = filter (λ k, is_Some (key_index k) ∨ is_Some (key_name k)) ks.
Proof.
  induction ks as [|k ks IH]; intros H; [reflexivity|].
  destruct k as [i|s|id]; simpl in H; [discriminate| |].
  - rewrite filter_cons_True by (right; simpl; eauto).
    change (KeyName <$> omap key_name (KeyName s :: ks))
      with (KeyName s :: (KeyName <$> omap key_name ks)).
    rewrite IH by assumption. reflexivity.
  - rewrite filter_cons_False by (intros [[? ?]|[? ?]]; discriminate).
    change (omap key_name (KeySymbol id :: ks)) with (omap key_name ks).
    apply IH. assumption.
Qed.

Lemma own_property_names_no_index o :
  omap key_index (enumerable_keys o) = [] →
  own_property_names o = keys_in_creation_order o.
Proof.
  intros H. unfold own_property_names, keys_in_creation_order. rewrite H. simpl.
  apply names_in_creation_order. assumption.
Qed.

Lemma chain_names_elem objs : ∀ shadowed k,
  k ∈ chain_names shadowed objs
  ↔ ((k ∉ shadowed)
     ∧ ∃ i o, objs !! i = Some o ∧ k ∈ own_property_names o
              ∧ ∀ j o', (j < i)%nat → objs !! j = Some o' → k ∉ own_keys o').
Proof.
  induction objs as [|o objs IH]; intros shadowed k; simpl.
  - split; [intros H; inversion H|]. intros (_ & i & o & H & _). discriminate.
  - rewrite elem_of_app, list_elem_of_filter, IH. split.
    + intros [[Hs Hk]|(Hs & i & o' & Hi & Hk & Hbefore)].
      * split; [assumption|]. exists O, o. split; [reflexivity|]. split; [assumption|].
        intros j o' Hj. lia.
      * rewrite elem_of_app in Hs. split; [tauto|].
        exists (S i), o'. split; [assumption|]. split; [assumption|].
        intros [|j] o'' Hj Ho''.
        -- injection Ho'' as <-. tauto.
        -- apply (Hbefore j o''); [lia|assumption].
    + intros (Hs & [|i] & o' & Hi & Hk & Hbefore).
      * injection Hi as <-. left. split; assumption.
      * right. split.
        -- rewrite elem_of_app. intros [?|Ho]; [tauto|].
           apply (Hbefore O o); [lia|reflexivity|assumption].
        -- exists i, o'. split; [assumption|]. split; [assumption|].
           intros j o'' Hj Ho''. apply (Hbefore (S j) o''); [lia|assumption].
Qed.

Lemma chain_names_own o objs :
  chain_names [] (o :: objs) = own_property_names o ++ chain_names (own_keys o) objs.
Proof.
  simpl. f_equal. induction (own_property_names o) as [|k ks IH]; [reflexivity|].
  rewrite filter_cons_True by (intros H; inversion H). rewrite IH. reflexivity.
Qed.

Lemma array_elements_of values : array_elements (array_of values) = values.
Proof.
  unfold array_elements, array_of; simpl.
  rewrite fmap_imap. unfold compose; simpl.
  induction values as [|v values IH]; [reflexivity|]. simpl. f_equal.
  rewrite <- IH at 2. apply imap_ext. reflexivity.
Qed.

(** C8, as stated, fails: the own keys do not come in the order of
    their creation. Of the object made as [{b: .., 2: .., a: .., 1: ..}]
    the keys array is [[1, 2, "b", "a"]]: the array indices come first
    and in ascending order. *)
Lemma own_keys_not_in_creation_order :
  keys_in_creation_order keyed_object
  = [KeyName "b"; KeyIndex 2; KeyName "a"; KeyIndex 1]
  ∧ ∃ st' array o,
      mv8_object_keys sample_globals listing_engine keyed_interface 16 0
      = Some (st', {| value_desc := reference_desc ValueDescTag.Array 17;
                      is_exception := 0 |})
      ∧ Persistent_get st' 17 = Some (JsObject array)
      ∧ heap st' !! array = Some o
      ∧ array_elements o
        = key_value <$> [KeyIndex 1; KeyIndex 2; KeyName "b"; KeyName "a"]
      ∧ array_elements o ≠ key_value <$> keys_in_creation_order keyed_object.
Proof.
  split; [reflexivity|].
  eexists _, 2%nat, _. split; [reflexivity|]. split; [reflexivity|].
  split; [reflexivity|]. split; [reflexivity|]. discriminate.
Qed.

(** C8, amended. [mv8_object_keys] on the handle of an object whose
    keys the engine lists: the outcome is a success whose desc is the
    Array variant carrying a persistent cell made by this call and
    referring to a new array, the keys array. With [include_inherited]
    0 its elements are the keys of the object's own enumerable
    properties, symbols apart: the array indices first, in ascending
    order, then the names in the order of their creation (which is the
    order of creation of them all when no key is an array index).
    Otherwise these are followed by the inherited ones: the enumerable
    keys of the objects up the prototype chain, each object's at its
    turn, for which neither the object nor a prototype before that one
    has a property. *)
Theorem mv8_object_keys_outcome (g : Globals) (E : Engine) (st : Interface)
    (object include_inherited : Z) (a : nat) (o : JsObj) (prototypes : list JsObj) :
  Persistent_get st object = Some (JsObject a) →
  heap st !! a = Some o →
  prototype_chain (heap st) o (o :: prototypes) →
  lists_keys E (heap st) a (o :: prototypes) →
  let keys := if include_inherited =? 0 then own_property_names o
              else own_property_names o ++ chain_names (own_keys o) prototypes in
  let array := fresh (dom (heap st)) in
  (∃ st' p,
     mv8_object_keys g E st object include_inherited
     = Some (st', {| value_desc := reference_desc ValueDescTag.Array p;
                     is_exception := 0 |})
     ∧ heap st !! array = None
     ∧ heap st' = <[array := array_of (key_value <$> keys)]> (heap st)
     ∧ array_elements (array_of (key_value <$> keys)) = key_value <$> keys
     ∧ fresh_handle (set_heap st (heap st')) st' p (JsObject array))
  ∧ (∀ k, k ∈ own_property_names o
          ↔ (k ∈ enumerable_keys o
             ∧ (is_Some (key_index k) ∨ is_Some (key_name k))))
  ∧ (∃ indices,
       own_property_names o
       = (KeyIndex <$> indices) ++ (KeyName <$> omap key_name (enumerable_keys o))
       ∧ StronglySorted Z.le indices
       ∧ indices ≡ₚ omap key_index (enumerable_keys o))
  ∧ (omap key_index (enumerable_keys o) = [] →
       own_property_names o = keys_in_creation_order o)
  ∧ (∀ k, k ∈ chain_names (own_keys o) prototypes
          ↔ ((k ∉ own_keys o)
             ∧ ∃ i o', prototypes !! i = Some o' ∧ k ∈ own_property_names o'
                       ∧ ∀ j o'', (j < i)%nat → prototypes !! j = Some o'' →
                                  k ∉ own_keys o'')).
Proof.
  intros Hobj Ho Hchain [Hown Hall] keys array.
  split; [|split; [apply own_property_names_elem|
           split; [apply own_property_names_order|
           split; [apply own_property_names_no_index|apply chain_names_elem]]]].
  assert (Hfresh : heap st !! array = None).
  { apply not_elem_of_dom. apply is_fresh. }
  unfold mv8_object_keys. rewrite Hobj; simpl.
  assert (Henter : (if negb (include_inherited =? 0)
                    then enter g st (Object_GetPropertyNames E (heap st) (JsObject a))
                    else enter g st (Object_GetOwnPropertyNames E (heap st) (JsObject a)))
                   = Some (set_heap st (<[array := array_of (key_value <$> keys)]> (heap st)),
                           Returns (JsObject array))).
  { subst keys. destruct (include_inherited =? 0); simpl.
    - rewrite Hown. reflexivity.
    - rewrite Hall, chain_names_own. reflexivity. }
  rewrite Henter; simpl.
  eexists _, _. split; [reflexivity|]. split; [assumption|].
  split; [reflexivity|]. split; [apply array_elements_of|].
  exact (Persistent_new_fresh
           (set_heap st (<[array := array_of (key_value <$> keys)]> (heap st)))
           (JsObject array)).
Qed.

(** The keys of the keyed object, own and inherited: its own four, the
    indices first, and of the prototype's four the two that the object
    has no property for. *)
Lemma mv8_object_keys_outcome_witness :
  ∃ st' p,
    mv8_object_keys sample_globals listing_engine keyed_interface 16 1
    = Some (st', {| value_desc := reference_desc ValueDescTag.Array p;
                    is_exception := 0 |})
    ∧ heap st'
      = <[2%nat := array_of (key_value <$> [KeyIndex 1; KeyIndex 2; KeyName "b";
                                             KeyName "a"; KeyIndex 0; KeyName "c"])]>
          (heap keyed_interface).
Proof.
  destruct (mv8_object_keys_outcome sample_globals listing_engine keyed_interface 16 1
              0%nat keyed_object [keyed_prototype])
    as [(st' & p & Hkeys & _ & Hheap & _) _].
  - reflexivity.
  - reflexivity.
  - eapply chain_next; [reflexivity|reflexivity|]. apply chain_end. reflexivity.
  - split; reflexivity.
  - exists st', p. split; [exact Hkeys|exact Hheap].
Defined.

(** ** Consuming descs *)

Arguments Persistent_new : simpl never.
Arguments value_to_desc : simpl never.

Lemma consumed_nil st st' :
  released st' = released st → persistents st' = persistents st →
  created st' = created st → next_alloc st' = next_alloc st →
  consumed st st' [].
Proof.
  intros Hr Hp Hc Hn. split; try assumption.
  - intros q. rewrite Hp. case_decide as Hq; [inversion Hq|reflexivity].
  - intros p Hp'. inversion Hp'.
  - constructor.
Qed.

Lemma consumed_app st st1 st2 ps1 ps2 :
  consumed st st1 ps1 → consumed st1 st2 ps2 → consumed st st2 (ps1 ++ ps2).
Proof.
  intros [Hr1 Hp1 Hl1 Hn1 Hc1 Ha1] [Hr2 Hp2 Hl2 Hn2 Hc2 Ha2].
  assert (Hdisj : ∀ p, p ∈ ps2 → p ∉ ps1).
  { intros p H2 H1. destruct (Hl2 p H2) as [x Hx].
    rewrite Hp1 in Hx. rewrite decide_True in Hx by assumption. discriminate. }
  split.
  - rewrite Hr2, Hr1, rev_app_distr, app_assoc. reflexivity.
  - intros q. rewrite Hp2, Hp1.
    destruct (decide (q ∈ ps2)) as [H2|H2], (decide (q ∈ ps1)) as [H1|H1];
      case_decide as H12; try reflexivity;
      rewrite elem_of_app in H12; tauto.
  - intros p Hp. apply elem_of_app in Hp as [Hp|Hp]; [auto|].
    specialize (Hl2 p Hp). rewrite Hp1 in Hl2.
    rewrite decide_False in Hl2 by auto. assumption.
  - apply NoDup_app. split; [assumption|]. split; [|assumption].
    intros p H1 H2. exact (Hdisj p H2 H1).
  - congruence.
  - congruence.
Qed.

Lemma desc_to_value_consumed st desc st' value :
  desc_to_value st desc = Some (st', value) → consumed st st' (desc_handle desc).
Proof.
  unfold desc_to_value, desc_handle. intros H.
  destruct (tag desc =? ValueDescTag.Null) eqn:H1.
  { apply Z.eqb_eq in H1. rewrite H1. injection H as <- _.
    apply consumed_nil; reflexivity. }
  destruct (tag desc =? ValueDescTag.Number) eqn:H2.
  { apply Z.eqb_eq in H2. rewrite H2. injection H as <- _.
    apply consumed_nil; reflexivity. }
  destruct (tag desc =? ValueDescTag.Boolean) eqn:H3.
  { apply Z.eqb_eq in H3. rewrite H3. injection H as <- _.
    apply consumed_nil; reflexivity. }
  destruct (tag desc =? ValueDescTag.Date) eqn:H4.
  { apply Z.eqb_eq in H4. rewrite H4. injection H as <- _.
    apply consumed_nil; reflexivity. }
  destruct (is_reference_tag (tag desc)).
  - unfold Persistent_get, Persistent_delete, payload_value_ptr in *.
    destruct (persistents st !! payload desc) as [cell|] eqn:Hcell; simpl in H;
      [|discriminate].
    injection H as <- _. split; simpl; try reflexivity.
    + intros q. case_decide as Hq.
      * apply list_elem_of_singleton in Hq as ->. apply lookup_delete_eq.
      * rewrite list_elem_of_singleton in Hq. apply lookup_delete_ne. congruence.
    + intros p Hp. apply list_elem_of_singleton in Hp as ->. eauto.
    + apply NoDup_singleton.
  - injection H as <- _. apply consumed_nil; reflexivity.
Qed.

Lemma desc_to_value_live st desc :
  live_desc st desc → is_Some (desc_to_value st desc).
Proof.
  unfold live_desc, desc_to_value, desc_handle. intros Hl.
  destruct (tag desc =? ValueDescTag.Null); [eauto|].
  destruct (tag desc =? ValueDescTag.Number); [eauto|].
  destruct (tag desc =? ValueDescTag.Boolean); [eauto|].
  destruct (tag desc =? ValueDescTag.Date); [eauto|].
  destruct (is_reference_tag (tag desc)); [|eauto].
  destruct (Hl _ (list_elem_of_here _ _)) as [cell Hcell].
  unfold Persistent_get, Persistent_delete. rewrite Hcell. simpl. eauto.
Qed.

Lemma decode_args_consumed remaining : ∀ i st arg_descs args st' args',
  decode_args remaining i st arg_descs args = Some (st', args') →
  consumed st st' (desc_handles (take remaining (drop i arg_descs))).
Proof.
  induction remaining as [|n IH]; intros i st arg_descs args st' args' H; simpl in H.
  - injection H as <- _. rewrite take_0. apply consumed_nil; reflexivity.
  - destruct (arg_descs !! i) as [desc|] eqn:Hi; simpl in H; [|discriminate].
    destruct (desc_to_value st desc) as [[st1 v]|] eqn:Hd; simpl in H; [|discriminate].
    rewrite (drop_S _ _ _ Hi). simpl.
    eapply consumed_app; [eapply desc_to_value_consumed; eassumption|].
    eapply IH; eassumption.
Qed.

Lemma decode_args_live remaining : ∀ i st arg_descs args,
  (remaining + i ≤ length arg_descs)%nat →
  NoDup (desc_handles (take remaining (drop i arg_descs))) →
  (∀ p, p ∈ desc_handles (take remaining (drop i arg_descs)) →
        is_Some (persistents st !! p)) →
  is_Some (decode_args remaining i st arg_descs args).
Proof.
  induction remaining as [|n IH]; intros i st arg_descs args Hlen Hnd Hlive; simpl.
  - eauto.
  - destruct (lookup_lt_is_Some_2 arg_descs i ltac:(lia)) as [desc Hi].
    rewrite Hi; simpl. rewrite (drop_S _ _ _ Hi) in Hnd, Hlive. simpl in Hnd, Hlive.
    apply NoDup_app in Hnd as (Hnd1 & Hdisj & Hnd2).
    destruct (desc_to_value_live st desc) as [[st1 v] Hd].
    { intros p Hp. apply Hlive, elem_of_app. auto. }
    rewrite Hd; simpl.
    pose proof (desc_to_value_consumed _ _ _ _ Hd) as Hc.
    apply IH; [lia|assumption|].
    intros p Hp. rewrite (consumed_persistents _ _ _ Hc).
    rewrite decide_False by (intros Hp1; exact (Hdisj p Hp1 Hp)).
    apply Hlive, elem_of_app. auto.
Qed.

Lemma decode_values_consumed descs : ∀ st st' values,
  decode_values st descs = Some (st', values) → consumed st st' (desc_handles descs).
Proof.
  induction descs as [|d descs IH]; intros st st' values H; simpl in H.
  - injection H as <- _. apply consumed_nil; reflexivity.
  - destruct (desc_to_value st d) as [[st1 v]|] eqn:Hd; simpl in H; [|discriminate].
    destruct (decode_values st1 descs) as [[st2 vs]|] eqn:Hds; simpl in H; [|discriminate].
    injection H as <- _. simpl.
    eapply consumed_app; [eapply desc_to_value_consumed; eassumption|].
    eapply IH; eassumption.
Qed.

Lemma decode_values_live descs : ∀ st,
  NoDup (desc_handles descs) →
  (∀ p, p ∈ desc_handles descs → is_Some (persistents st !! p)) →
  is_Some (decode_values st descs).
Proof.
  induction descs as [|d descs IH]; intros st Hnd Hlive; simpl; [eauto|].
  simpl in Hnd, Hlive. apply NoDup_app in Hnd as (Hnd1 & Hdisj & Hnd2).
  destruct (desc_to_value_live st d) as [[st1 v] Hd].
  { intros p Hp. apply Hlive, elem_of_app. auto. }
  rewrite Hd; simpl.
  pose proof (desc_to_value_consumed _ _ _ _ Hd) as Hc.
  destruct (IH st1 Hnd2) as [[st2 vs] Hds].
  { intros p Hp. rewrite (consumed_persistents _ _ _ Hc).
    rewrite decide_False by (intros Hp1; exact (Hdisj p Hp1 Hp)).
    apply Hlive, elem_of_app. auto. }
  rewrite Hds; simpl. eauto.
Qed.

Lemma try_catch_err_caught {A} st (c : Completion A) :
  reported c → Maybe_of c = None → is_Some (try_catch_err st (TryCatch_of c)).
Proof.
  destruct c as [a|e r|n r]; [discriminate|..]; simpl; intros Hrep _.
  - destruct (try_catch_err_thrown st true e _ _ Hrep) as (st' & d & -> & _). eauto.
  - destruct (try_catch_err_terminated st true n _ _ Hrep) as (st' & d & -> & _). eauto.
Qed.

Lemma caught_returns {A} st (c : Completion A) (k : option (Interface * TryCatchDesc)) :
  reported c →
  (∀ a, c = Returns a → is_Some k) →
  is_Some (if HasCaught (TryCatch_of c) then try_catch_err st (TryCatch_of c) else k).
Proof.
  intros Hrep Hk. destruct c as [a|e r|n r]; simpl.
  - eauto.
  - apply (try_catch_err_caught st (@Throws A e r)); [assumption|reflexivity].
  - apply (try_catch_err_caught st (@Terminates A n r)); [assumption|reflexivity].
Qed.

Lemma empty_returns {A} st (c : Completion A) (k : A → option (Interface * TryCatchDesc)) :
  reported c →
  (∀ a, is_Some (k a)) →
  is_Some (match Maybe_of c with
           | None => try_catch_err st (TryCatch_of c)
           | Some a => k a
           end).
Proof.
  intros Hrep Hk. destruct (Maybe_of c) eqn:Hc; [auto|].
  apply try_catch_err_caught; assumption.
Qed.

Lemma Persistent_get_live st p :
  is_Some (persistents st !! p) → is_Some (Persistent_get st p).
Proof. intros [c Hc]. unfold Persistent_get. rewrite Hc. simpl. eauto. Qed.

(** ** Argument arrays *)

(** The decoding loop decodes the descs in index order. *)
Lemma decode_args_values remaining : ∀ i st arg_descs done,
  length done = i →
  (i + remaining ≤ length arg_descs)%nat →
  decode_args remaining i st arg_descs (done ++ replicate remaining JsUndefined)
  = ('(st', values) ← decode_values st (take remaining (drop i arg_descs));
     Some (st', done ++ values)).
Proof.
  induction remaining as [|n IH]; intros i st arg_descs done Hi Hlen; simpl.
  - rewrite app_nil_r. reflexivity.
  - destruct (lookup_lt_is_Some_2 arg_descs i ltac:(lia)) as [desc Hd].
    rewrite Hd, (drop_S _ _ _ Hd); simpl.
    destruct (desc_to_value st desc) as [[st1 v]|]; simpl; [|reflexivity].
    replace (<[i := v]> (done ++ JsUndefined :: replicate n JsUndefined))
      with ((done ++ [v]) ++ replicate n JsUndefined).
    + rewrite IH by (rewrite ?length_app; simpl; lia).
      destruct (decode_values st1 (take n (drop (S i) arg_descs))) as [[st2 vs]|];
        simpl; [|reflexivity].
      rewrite <- app_assoc. reflexivity.
    + rewrite <- app_assoc. simpl. subst i.
      rewrite <- (Nat.add_0_r (length done)) at 1.
      rewrite insert_app_r. reflexivity.
Qed.

(** Past the end of the descs there is nothing to decode. *)
Lemma decode_args_short remaining : ∀ i st arg_descs args,
  (i ≤ length arg_descs < i + remaining)%nat →
  decode_args remaining i st arg_descs args = None.
Proof.
  induction remaining as [|n IH]; intros i st arg_descs args Hlen; simpl; [lia|].
  destruct (arg_descs !! i) as [desc|] eqn:Hd; simpl; [|reflexivity].
  apply lookup_lt_Some in Hd.
  destruct (desc_to_value st desc) as [[st1 v]|]; simpl; [|reflexivity].
  apply IH. lia.
Qed.

Lemma decode_values_length descs : ∀ st st' values,
  decode_values st descs = Some (st', values) → length values = length descs.
Proof.
  induction descs as [|d descs IH]; intros st st' values H; simpl in H.
  - injection H as _ <-. reflexivity.
  - destruct (desc_to_value st d) as [[st1 v]|]; simpl in H; [|discriminate].
    destruct (decode_values st1 descs) as [[st2 vs]|] eqn:Hd; simpl in H; [|discriminate].
    injection H as _ <-. simpl. f_equal. eapply IH. exact Hd.
Qed.

(** With the length of the descs, the loop decodes them all. *)
Lemma decode_arg_array_values st arg_descs :
  decode_arg_array st arg_descs (Z.of_nat (length arg_descs))
  = decode_values st arg_descs.
Proof.
  unfold decode_arg_array.
  destruct (Z.ltb_spec (Z.of_nat (length arg_descs)) 0); [lia|].
  rewrite Nat2Z.id.
  pose proof (decode_args_values (length arg_descs) 0%nat st arg_descs [] eq_refl
                ltac:(simpl; lia)) as Hv.
  simpl in Hv. rewrite Hv, drop_0, firstn_all.
  destruct (decode_values st arg_descs) as [[st' values]|]; reflexivity.
Qed.

(** ** What the bridge leaves alone *)

Lemma keeps_private_slots_refl h : keeps_private_slots h h.
Proof. intros a o H. eauto. Qed.

Lemma keeps_private_slots_trans h1 h2 h3 :
  keeps_private_slots h1 h2 → keeps_private_slots h2 h3 → keeps_private_slots h1 h3.
Proof.
  intros H12 H23 a o H. destruct (H12 a o H) as (o2 & H2 & E2).
  destruct (H23 a o2 H2) as (o3 & H3 & E3). exists o3. split; [assumption|congruence].
Qed.

Lemma keeps_private_slots_alloc h o :
  keeps_private_slots h (<[fresh (dom h) := o]> h).
Proof.
  intros a o' H. exists o'. split; [|reflexivity].
  rewrite lookup_insert_ne; [assumption|].
  intros <-. apply (is_fresh (dom h)). apply elem_of_dom. eauto.
Qed.

Lemma frame_refl st : frame st st.
Proof.
  split; try reflexivity; try lia; auto using keeps_private_slots_refl.
Qed.

Lemma frame_trans st1 st2 st3 : frame st1 st2 → frame st2 st3 → frame st1 st3.
Proof.
  intros [Hc1 Hr1 Hf1 Hm1 Hd1 Hn1 Hp1 Hh1] [Hc2 Hr2 Hf2 Hm2 Hd2 Hn2 Hp2 Hh2].
  split; try congruence; try lia; [|eapply keeps_private_slots_trans; eassumption].
  intros p cell H3. destruct (Hp2 p cell H3) as [H2|(Hrange & Hs)].
  - destruct (Hp1 p cell H2) as [H1|(Hrange & Hs)]; [auto|].
    right. split; [lia|assumption].
  - right. split; [lia|assumption].
Qed.

Lemma frame_set_heap st h :
  keeps_private_slots (heap st) h → frame st (set_heap st h).
Proof. intros H. split; simpl; try reflexivity; try lia; auto. Qed.

Lemma frame_heap_alloc st o : frame st (heap_alloc st o).1.
Proof. apply frame_set_heap, keeps_private_slots_alloc. Qed.

Lemma frame_Persistent_new st value : frame st (Persistent_new st value).1.
Proof.
  unfold Persistent_new.
  split; simpl; try reflexivity; try lia; [|apply keeps_private_slots_refl].
  intros p cell. rewrite lookup_insert. case_decide as Heq.
  - intros [= <-]. right. simpl. split; [lia|]. split; reflexivity.
  - auto.
Qed.

Lemma frame_Persistent_delete st p st' : Persistent_delete st p = Some st' → frame st st'.
Proof.
  unfold Persistent_delete. destruct (persistents st !! p); [|discriminate].
  intros [= <-].
  split; simpl; try reflexivity; try lia; [|apply keeps_private_slots_refl].
  intros q cell. rewrite lookup_delete. case_decide; [discriminate|auto].
Qed.

Lemma frame_record_host_call st interface func this_desc arg_descs :
  frame st (record_host_call st (WrapperCall interface func this_desc arg_descs)).
Proof.
  split; simpl; try reflexivity; try lia; auto using keeps_private_slots_refl.
Qed.

Lemma frame_value_to_desc st value : frame st (value_to_desc st value).1.
Proof.
  destruct (value_to_desc_cases st value) as [-> | ->];
    [apply frame_refl|apply frame_Persistent_new].
Qed.

Lemma frame_desc_to_value st desc st' value :
  desc_to_value st desc = Some (st', value) → frame st st'.
Proof.
  unfold desc_to_value. intros H.
  destruct (tag desc =? ValueDescTag.Null); [injection H as <- _; apply frame_refl|].
  destruct (tag desc =? ValueDescTag.Number); [injection H as <- _; apply frame_refl|].
  destruct (tag desc =? ValueDescTag.Boolean); [injection H as <- _; apply frame_refl|].
  destruct (tag desc =? ValueDescTag.Date).
  { injection H as <- _. apply (frame_heap_alloc st). }
  destruct (is_reference_tag (tag desc)); [|injection H as <- _; apply frame_refl].
  destruct (Persistent_get st _); cbn in H; [|discriminate].
  destruct (Persistent_delete st _) as [st1|] eqn:Hd; cbn in H; [|discriminate].
  injection H as <- _. eapply frame_Persistent_delete; eassumption.
Qed.

Lemma frame_try_catch_ok st value : frame st (try_catch_ok st value).1.
Proof.
  unfold try_catch_ok. pose proof (frame_value_to_desc st value) as H.
  destruct (value_to_desc st value). exact H.
Qed.

Lemma frame_try_catch_err st try_catch st' r :
  try_catch_err st try_catch = Some (st', r) → frame st st'.
Proof.
  intros H. apply try_catch_err_cases in H as (_ & st1 & value & Hv & Hcase).
  pose proof (frame_value_to_desc st1 value) as Hf. rewrite <- Hv in Hf. simpl in Hf.
  destruct Hcase as [(_ & -> & _)|(_ & He)]; [exact Hf|].
  eapply frame_trans; [|exact Hf].
  unfold Exception_Error in He.
  pose proof (frame_heap_alloc st (bare (ClsError "execution timed out"))) as Hh.
  rewrite <- He in Hh. exact Hh.
Qed.

Lemma frame_decode_args remaining : ∀ i st arg_descs args st' args',
  decode_args remaining i st arg_descs args = Some (st', args') → frame st st'.
Proof.
  induction remaining as [|n IH]; intros i st arg_descs args st' args' H; simpl in H.
  - injection H as <- _. apply frame_refl.
  - destruct (arg_descs !! i) as [desc|]; cbn in H; [|discriminate].
    destruct (desc_to_value st desc) as [[st1 v]|] eqn:Hd; cbn in H; [|discriminate].
    eapply frame_trans; [eapply frame_desc_to_value; eassumption|].
    eapply IH; eassumption.
Qed.

Lemma frame_decode_arg_array st arg_descs len st' args :
  decode_arg_array st arg_descs len = Some (st', args) → frame st st'.
Proof.
  unfold decode_arg_array. destruct (len <? 0); [discriminate|].
  apply frame_decode_args.
Qed.

Lemma frame_encode_args remaining : ∀ i st args arg_descs,
  frame st (encode_args remaining i st args arg_descs).1.
Proof.
  induction remaining as [|n IH]; intros i st args arg_descs; simpl.
  - apply frame_refl.
  - pose proof (frame_value_to_desc st (default JsUndefined (args !! i))) as H.
    destruct (value_to_desc st _) as [st1 desc].
    eapply frame_trans; [exact H|apply IH].
Qed.

Lemma frame_decode_values descs : ∀ st st' values,
  decode_values st descs = Some (st', values) → frame st st'.
Proof.
  induction descs as [|d descs IH]; intros st st' values H; simpl in H.
  - injection H as <- _. apply frame_refl.
  - destruct (desc_to_value st d) as [[st1 v]|] eqn:Hd; simpl in H; [|discriminate].
    destruct (decode_values st1 descs) as [[st2 vs]|] eqn:Hds; simpl in H; [|discriminate].
    injection H as <- _.
    eapply frame_trans; [eapply frame_desc_to_value; eassumption|].
    eapply IH; eassumption.
Qed.

Lemma frame_rust_callback g st callee this args st' c :
  rust_callback g st callee this args = Some (st', c) → frame st st'.
Proof.
  unfold rust_callback. intros H.
  destruct (FunctionCallbackInfo_Data st callee) as [ext|]; cbn in H; [|discriminate].
  destruct (callbacks st !! ext) as [callback|]; cbn in H; [|discriminate].
  pose proof (frame_value_to_desc st this) as H1.
  destruct (value_to_desc st this) as [st1 this_desc].
  match type of H with
  | context [encode_args ?n ?i ?s ?a ?d] =>
      pose proof (frame_encode_args n i s a d) as H2;
      destruct (encode_args n i s a d) as [st2 arg_descs]
  end.
  destruct (main_callback_wrapper_func g) as [wrapper|]; cbn in H; [|discriminate].
  destruct (desc_to_value _ _) as [[st3 value]|] eqn:Hd; cbn in H; [|discriminate].
  apply frame_desc_to_value in Hd.
  assert (st' = st3) as -> by (destruct (negb _); congruence).
  eapply frame_trans; [exact H1|]. eapply frame_trans; [exact H2|].
  eapply frame_trans; [apply frame_record_host_call|exact Hd].
Qed.

(** ** The books of the cells *)

Lemma ledger_eq st made gone calls st' made' gone' calls' :
  ledger st made gone calls st' →
  made' = made → gone' = gone → calls' = calls →
  ledger st made' gone' calls' st'.
Proof. intros H -> -> ->. exact H. Qed.

(** What the books say of the logs, of the registrations and of the
    cells that were not made in between. *)
Lemma ledger_logs st made gone calls st' :
  ledger st made gone calls st' →
  created st' = made ++ created st
  ∧ released st' = gone ++ released st
  ∧ host_calls st' = calls ++ host_calls st
  ∧ callbacks st' = callbacks st
  ∧ registered st' = registered st
  ∧ finalized st' = finalized st
  ∧ external_memory st' = external_memory st
  ∧ next_alloc st <= next_alloc st'
  ∧ ∀ q, q ∉ made →
      persistents st' !! q = if decide (q ∈ gone) then None else persistents st !! q.
Proof.
  induction 1 as [st|st h|st value|st p st' Hd|st c|
                  st1 made1 gone1 calls1 st2 made2 gone2 calls2 st3 _ IH1 _ IH2].
  - repeat split; try reflexivity; try lia.
  - repeat split; try reflexivity; simpl; try lia.
  - unfold Persistent_new; simpl. repeat split; try reflexivity; try lia.
    intros q Hq. apply lookup_insert_ne. rewrite list_elem_of_singleton in Hq.
    congruence.
  - unfold Persistent_delete in Hd.
    destruct (persistents st !! p) as [cell|]; [|discriminate]. injection Hd as <-.
    simpl. repeat split; try reflexivity; try lia.
    intros q _. case_decide as Hq.
    + apply list_elem_of_singleton in Hq as ->. apply lookup_delete_eq.
    + rewrite list_elem_of_singleton in Hq. apply lookup_delete_ne. congruence.
  - repeat split; try reflexivity; simpl; try lia.
  - destruct IH1 as (Hc1 & Hr1 & Hh1 & Hcb1 & Hrg1 & Hf1 & Hm1 & Hn1 & Hp1).
    destruct IH2 as (Hc2 & Hr2 & Hh2 & Hcb2 & Hrg2 & Hf2 & Hm2 & Hn2 & Hp2).
    split; [rewrite Hc2, Hc1, app_assoc; reflexivity|].
    split; [rewrite Hr2, Hr1, app_assoc; reflexivity|].
    split; [rewrite Hh2, Hh1, app_assoc; reflexivity|].
    split; [congruence|]. split; [congruence|]. split; [congruence|].
    split; [congruence|]. split; [lia|].
    intros q Hq. rewrite elem_of_app in Hq.
    rewrite Hp2, Hp1 by tauto.
    destruct (decide (q ∈ gone2)) as [H2|H2], (decide (q ∈ gone1)) as [H1|H1];
      case_decide as H12; try reflexivity; rewrite elem_of_app in H12; tauto.
Qed.

(** What the books say of the cells when every live cell is at an
    address handed out: a cell is made at a new address, strong, and
    once; a cell released was live, is dead for good and is released
    once; and the cells live are as many more as were made and as many
    fewer as were released. *)
Lemma ledger_sound st made gone calls st' :
  ledger st made gone calls st' →
  alloc_ok st →
  alloc_ok st'
  ∧ (size (persistents st') + length gone = size (persistents st) + length made)%nat
  ∧ NoDup gone
  ∧ NoDup made
  ∧ (∀ p, p ∈ made → next_alloc st <= p < next_alloc st')
  ∧ (∀ p, p ∈ gone →
       persistents st' !! p = None ∧ p < next_alloc st'
       ∧ (is_Some (persistents st !! p) ∨ p ∈ made))
  ∧ (∀ p, p ∈ made → p ∉ gone → ∃ value, persistents st' !! p = Some (strong_cell value)).
Proof.
  induction 1 as [st|st h|st value|st p st' Hd|st c|
                  st1 made1 gone1 calls1 st2 made2 gone2 calls2 st3 L1 IH1 L2 IH2];
    intros Ha.
  - split; [assumption|]. split; [reflexivity|]. split; [constructor|].
    split; [constructor|].
    split; [intros q Hq; inversion Hq|split; intros q Hq; inversion Hq].
  - split; [assumption|]. split; [reflexivity|]. split; [constructor|].
    split; [constructor|].
    split; [intros q Hq; inversion Hq|split; intros q Hq; inversion Hq].
  - assert (Hfree : persistents st !! next_alloc st = None).
    { destruct (persistents st !! next_alloc st) eqn:E; [|reflexivity].
      specialize (Ha (next_alloc st) ltac:(eauto)). lia. }
    unfold Persistent_new; simpl. split.
    { intros p [cell Hcell]. simpl in *. rewrite lookup_insert in Hcell.
      case_decide; [lia|]. specialize (Ha p ltac:(eauto)). lia. }
    split; [rewrite map_size_insert_None by assumption; simpl; lia|].
    split; [constructor|]. split; [apply NoDup_singleton|].
    split; [intros q Hq; apply list_elem_of_singleton in Hq as ->; lia|].
    split; [intros q Hq; inversion Hq|].
    intros q Hq _. apply list_elem_of_singleton in Hq as ->.
    exists value. apply lookup_insert_eq.
  - unfold Persistent_delete in Hd.
    destruct (persistents st !! p) as [cell|] eqn:Hcell; [|discriminate].
    injection Hd as <-. simpl. split.
    { intros q [c Hc]. simpl in *. rewrite lookup_delete in Hc.
      case_decide; [discriminate|]. apply Ha. eauto. }
    split.
    { assert (Hs : size (delete p (persistents st)) = Nat.pred (size (persistents st)))
        by (apply map_size_delete_Some; eauto).
      assert (size (persistents st) ≠ 0%nat).
      { intros H0. apply map_size_empty_inv in H0. rewrite H0, lookup_empty in Hcell.
        discriminate. }
      simpl. lia. }
    split; [apply NoDup_singleton|]. split; [constructor|].
    split; [intros q Hq; inversion Hq|]. split.
    + intros q Hq. apply list_elem_of_singleton in Hq as ->.
      split; [apply lookup_delete_eq|]. split; [apply Ha; eauto|]. left. eauto.
    + intros q Hq. inversion Hq.
  - split; [assumption|]. split; [reflexivity|]. split; [constructor|].
    split; [constructor|].
    split; [intros q Hq; inversion Hq|split; intros q Hq; inversion Hq].
  - destruct (IH1 Ha) as (Ha2 & Hs1 & Hg1 & Hm1 & Hr1 & Hd1 & Hf1).
    destruct (IH2 Ha2) as (Ha3 & Hs2 & Hg2 & Hm2 & Hr2 & Hd2 & Hf2).
    destruct (ledger_logs _ _ _ _ _ L1) as (_ & _ & _ & _ & _ & _ & _ & Hn1 & Hp1).
    destruct (ledger_logs _ _ _ _ _ L2) as (_ & _ & _ & _ & _ & _ & _ & Hn2 & Hp2).
    assert (Hold : ∀ p, p ∈ gone1 → p ∉ made2).
    { intros p Hp Hin. destruct (Hd1 p Hp) as (_ & Hlt & _).
      specialize (Hr2 p Hin). lia. }
    split; [assumption|].
    split; [rewrite !length_app; lia|]. split.
    { apply NoDup_app. split; [assumption|]. split; [|assumption].
      intros p H2 H1. destruct (Hd1 p H1) as (Hdead & Hlt & _).
      destruct (Hd2 p H2) as (_ & _ & [[c Hc]|Hin]); [congruence|].
      exact (Hold p H1 Hin). }
    split.
    { apply NoDup_app. split; [assumption|]. split; [|assumption].
      intros p H2 H1. specialize (Hr1 p H1). specialize (Hr2 p H2). lia. }
    split.
    { intros p Hp. apply elem_of_app in Hp as [Hp|Hp];
        [specialize (Hr2 p Hp)|specialize (Hr1 p Hp)]; lia. }
    split.
    + intros p Hp. apply elem_of_app in Hp as [Hp|Hp].
      * destruct (Hd2 p Hp) as (Hdead & Hlt & Hwas).
        split; [assumption|]. split; [assumption|].
        destruct Hwas as [Hlive|Hin]; [|right; apply elem_of_app; auto].
        destruct (decide (p ∈ made1)) as [Hm|Hm]; [right; apply elem_of_app; auto|].
        left. rewrite Hp1 in Hlive by assumption.
        case_decide; [destruct Hlive; discriminate|assumption].
      * destruct (Hd1 p Hp) as (Hdead & Hlt & Hwas).
        split; [|split; [lia|]].
        -- rewrite Hp2 by (apply Hold; assumption). case_decide; [reflexivity|assumption].
        -- destruct Hwas as [?|?]; [auto|right; apply elem_of_app; auto].
    + intros p Hp Hng. rewrite elem_of_app in Hng.
      apply elem_of_app in Hp as [Hp|Hp]; [apply Hf2; tauto|].
      destruct (Hf1 p Hp ltac:(tauto)) as [value Hv]. exists value.
      rewrite Hp2 by (intros Hin; specialize (Hr1 p Hp); specialize (Hr2 p Hin); lia).
      rewrite decide_False by tauto. assumption.
Qed.

Lemma balanced_ledger st made gone calls st' :
  ledger st made gone calls st' → alloc_ok st → balanced st → balanced st'.
Proof.
  intros L Ha Hb. destruct (ledger_sound _ _ _ _ _ L Ha) as (_ & Hs & _).
  destruct (ledger_logs _ _ _ _ _ L) as (Hc & Hr & _).
  unfold balanced in *. rewrite Hc, Hr, !length_app. lia.
Qed.

(** *** The books of encoding and decoding *)

Lemma rev_desc_handle desc : rev (desc_handle desc) = desc_handle desc.
Proof. unfold desc_handle. destruct (is_reference_tag (tag desc)); reflexivity. Qed.

(** Encoding makes the cell of the desc, if it has one, and that last. *)
Lemma value_to_desc_finish st value :
  ((value_to_desc st value).1 = st ∧ desc_handle (value_to_desc st value).2 = [])
  ∨ ((value_to_desc st value).1 = (Persistent_new st value).1
     ∧ desc_handle (value_to_desc st value).2 = [next_alloc st]).
Proof.
  unfold value_to_desc.
  repeat match goal with
  | |- context [if ?b then _ else _] => destruct b; simpl; auto
  end.
Qed.

Lemma ledger_value_to_desc st value :
  ledger st (desc_handle (value_to_desc st value).2) [] [] (value_to_desc st value).1.
Proof.
  destruct (value_to_desc_finish st value) as [[-> ->]|[-> ->]];
    [apply ledger_refl|apply ledger_new].
Qed.

Lemma ledger_desc_to_value st desc st' value :
  desc_to_value st desc = Some (st', value) → ledger st [] (desc_handle desc) [] st'.
Proof.
  unfold desc_to_value, desc_handle. intros H.
  destruct (tag desc =? ValueDescTag.Null) eqn:H1.
  { apply Z.eqb_eq in H1. rewrite H1. injection H as <- _. apply ledger_refl. }
  destruct (tag desc =? ValueDescTag.Number) eqn:H2.
  { apply Z.eqb_eq in H2. rewrite H2. injection H as <- _. apply ledger_refl. }
  destruct (tag desc =? ValueDescTag.Boolean) eqn:H3.
  { apply Z.eqb_eq in H3. rewrite H3. injection H as <- _. apply ledger_refl. }
  destruct (tag desc =? ValueDescTag.Date) eqn:H4.
  { apply Z.eqb_eq in H4. rewrite H4. injection H as <- _. apply ledger_heap. }
  destruct (is_reference_tag (tag desc)).
  - destruct (Persistent_get st _); cbn in H; [|discriminate].
    destruct (Persistent_delete st _) as [st1|] eqn:Hd; cbn in H; [|discriminate].
    injection H as <- _. apply ledger_delete. exact Hd.
  - injection H as <- _. apply ledger_refl.
Qed.

Lemma ledger_encode_values values : ∀ st,
  ledger st (rev (desc_handles (encode_values st values).2)) [] []
    (encode_values st values).1.
Proof.
  induction values as [|v values IH]; intros st; simpl; [apply ledger_refl|].
  pose proof (ledger_value_to_desc st v) as L1.
  destruct (value_to_desc st v) as [st1 desc]. specialize (IH st1).
  destruct (encode_values st1 values) as [st2 descs]. simpl in *.
  eapply ledger_eq; [exact (ledger_seq _ _ _ _ _ _ _ _ _ L1 IH)|..]; try reflexivity.
  rewrite rev_app_distr, rev_desc_handle. reflexivity.
Qed.

Lemma encode_values_length values : ∀ st,
  length (encode_values st values).2 = length values.
Proof.
  induction values as [|v values IH]; intros st; simpl; [reflexivity|].
  destruct (value_to_desc st v) as [st1 desc]. specialize (IH st1).
  destruct (encode_values st1 values) as [st2 descs]. simpl in *. congruence.
Qed.

Lemma ledger_decode_values descs : ∀ st st' values,
  decode_values st descs = Some (st', values) →
  ledger st [] (rev (desc_handles descs)) [] st'.
Proof.
  induction descs as [|d descs IH]; intros st st' values H; simpl in H.
  - injection H as <- _. apply ledger_refl.
  - destruct (desc_to_value st d) as [[st1 v]|] eqn:Hd; simpl in H; [|discriminate].
    destruct (decode_values st1 descs) as [[st2 vs]|] eqn:Hds; simpl in H; [|discriminate].
    injection H as <- _.
    eapply ledger_eq;
      [exact (ledger_seq _ _ _ _ _ _ _ _ _ (ledger_desc_to_value _ _ _ _ Hd)
                (IH _ _ _ Hds))|..]; try reflexivity.
    simpl. rewrite rev_app_distr, rev_desc_handle. reflexivity.
Qed.

(** *** The books of the trampoline *)

Lemma encode_args_values remaining : ∀ i st args done,
  length done = i →
  (i + remaining)%nat = length args →
  encode_args remaining i st args (done ++ replicate remaining desc_undefined)
  = (let '(st', descs) := encode_values st (drop i args) in (st', done ++ descs)).
Proof.
  induction remaining as [|n IH]; intros i st args done Hi Hlen; simpl.
  - rewrite drop_ge by lia. simpl. reflexivity.
  - destruct (lookup_lt_is_Some_2 args i ltac:(lia)) as [v Hv].
    rewrite Hv, (drop_S _ _ _ Hv). simpl.
    destruct (value_to_desc st v) as [st1 desc].
    replace (<[i := desc]> (done ++ desc_undefined :: replicate n desc_undefined))
      with ((done ++ [desc]) ++ replicate n desc_undefined).
    + rewrite IH by (rewrite ?length_app; simpl; lia).
      destruct (encode_values st1 (drop (S i) args)) as [st2 descs].
      rewrite <- app_assoc. reflexivity.
    + rewrite <- app_assoc. simpl. subst i.
      rewrite <- (Nat.add_0_r (length done)) at 1.
      rewrite insert_app_r. reflexivity.
Qed.

Lemma encode_values_in_order values : ∀ st,
  encoded_in_order st values (encode_values st values).1 (encode_values st values).2.
Proof.
  induction values as [|v values IH]; intros st; simpl; [constructor|].
  destruct (value_to_desc_encodes st v) as (st1 & desc & Hv & Henc). rewrite Hv.
  specialize (IH st1). destruct (encode_values st1 values) as [st2 descs].
  econstructor; eassumption.
Qed.

(** With a dispatcher installed, the trampoline of a registered
    function is [invoke_trampoline]. *)
Lemma rust_callback_invoke_trampoline g wrapper st callee this args ext callback :
  main_callback_wrapper_func g = Some wrapper →
  FunctionCallbackInfo_Data st callee = Some ext →
  callbacks st !! ext = Some callback →
  rust_callback g st callee this args = invoke_trampoline wrapper st callback this args.
Proof.
  intros Hw Hdata Hcb.
  unfold rust_callback, invoke_trampoline. rewrite Hdata; cbn. rewrite Hcb; cbn.
  destruct (value_to_desc st this) as [st1 this_desc].
  pose proof (encode_args_values (length args) 0 st1 args [] eq_refl eq_refl) as He.
  simpl in He. rewrite He, drop_0.
  destruct (encode_values st1 args) as [st2 arg_descs]. rewrite Hw. cbn.
  destruct (desc_to_value _ _) as [[st3 value]|]; cbn; [|reflexivity].
  destruct (is_exception _ =? 0); reflexivity.
Qed.

Lemma rust_callback_invoke wrapper drop_func st callee this args ext callback :
  FunctionCallbackInfo_Data st callee = Some ext →
  callbacks st !! ext = Some callback →
  rust_callback (mv8_init (Some wrapper) drop_func) st callee this args
  = invoke_trampoline wrapper st callback this args.
Proof. apply rust_callback_invoke_trampoline. reflexivity. Qed.

(** A call that returns was the call of a registered function, with a
    dispatcher installed. *)
Lemma rust_callback_registered g st callee this args st' result :
  rust_callback g st callee this args = Some (st', result) →
  ∃ wrapper ext callback,
    main_callback_wrapper_func g = Some wrapper
    ∧ FunctionCallbackInfo_Data st callee = Some ext
    ∧ callbacks st !! ext = Some callback.
Proof.
  unfold rust_callback. intros H.
  destruct (FunctionCallbackInfo_Data st callee) as [ext|] eqn:Hd; cbn in H;
    [|discriminate].
  destruct (callbacks st !! ext) as [callback|] eqn:Hc; cbn in H; [|discriminate].
  destruct (value_to_desc st this) as [st1 this_desc].
  destruct (encode_args _ _ _ _ _) as [st2 arg_descs].
  destruct (main_callback_wrapper_func g) as [wrapper|] eqn:Hw; cbn in H; [|discriminate].
  exists wrapper, ext, callback. auto.
Qed.

(** The books of one call: the cells of the descs handed to the host
    are made, the cell of the desc it returns is released. *)
Lemma ledger_rust_callback g st callee this args st' result :
  rust_callback g st callee this args = Some (st', result) →
  ∃ iface closure this_desc arg_descs,
    let c := WrapperCall iface closure this_desc arg_descs in
    ledger st (rev (call_handles c)) (call_result g c) [c] st'
    ∧ (∀ ext callback,
         FunctionCallbackInfo_Data st callee = Some ext →
         callbacks st !! ext = Some callback →
         iface = interface callback ∧ closure = func callback)
    ∧ length arg_descs = length args.
Proof.
  intros H.
  destruct (rust_callback_registered _ _ _ _ _ _ _ H) as (wrapper & ext & cb & Hw & Hd & Hc).
  rewrite (rust_callback_invoke_trampoline _ _ _ _ _ _ _ _ Hw Hd Hc) in H.
  unfold invoke_trampoline in H.
  pose proof (ledger_value_to_desc st this) as L1.
  destruct (value_to_desc st this) as [st1 this_desc].
  pose proof (ledger_encode_values args st1) as L2.
  pose proof (encode_values_length args st1) as Hlen.
  destruct (encode_values st1 args) as [st2 arg_descs]. simpl in L1, L2, Hlen.
  destruct (desc_to_value _ _) as [[st3 value]|] eqn:Hv; cbn in H; [|discriminate].
  injection H as <- _.
  exists (interface cb), (func cb), this_desc, arg_descs. cbn zeta.
  split; [|split; [|exact Hlen]].
  - pose proof (ledger_desc_to_value _ _ _ _ Hv) as L4.
    pose proof (ledger_host st2 (WrapperCall (interface cb) (func cb) this_desc
                                   arg_descs)) as L3.
    eapply ledger_eq;
      [exact (ledger_seq _ _ _ _ _ _ _ _ _
                (ledger_seq _ _ _ _ _ _ _ _ _
                   (ledger_seq _ _ _ _ _ _ _ _ _ L1 L2) L3) L4)|..].
    + simpl. rewrite rev_app_distr, rev_desc_handle. reflexivity.
    + unfold call_result. rewrite Hw, Hlen. simpl. rewrite app_nil_r. reflexivity.
    + reflexivity.
  - intros ext' cb' Hd' Hc'. rewrite Hd in Hd'. injection Hd' as <-.
    rewrite Hc in Hc'. injection Hc' as <-. split; reflexivity.
Qed.

(** ** Entering the engine *)

Lemma handed_out_app calls1 calls2 :
  handed_out (calls1 ++ calls2) = handed_out calls1 ++ handed_out calls2.
Proof. apply flat_map_app. Qed.

Lemma handed_back_app g calls1 calls2 :
  handed_back g (calls1 ++ calls2) = handed_back g calls1 ++ handed_back g calls2.
Proof. apply flat_map_app. Qed.

Lemma drop_calls_app calls1 calls2 :
  drop_calls (calls1 ++ calls2) = drop_calls calls1 ++ drop_calls calls2.
Proof. apply omap_app. Qed.

(** The books of an entry point: the cells of the calls that script
    made of registered functions, handed out and handed back. *)
Lemma ledger_enter {A} g (s : Script A) : ∀ st st' c,
  enter g st s = Some (st', c) →
  ∃ calls, ledger st (handed_out calls) (handed_back g calls) calls st'
           ∧ drop_calls calls = [].
Proof.
  induction s as [h c0|h callee this args resume IH]; intros st st' c H; simpl in H.
  - injection H as <- <-. exists []. split; [apply ledger_heap|reflexivity].
  - destruct (rust_callback g (set_heap st h) callee this args) as [[st1 result]|] eqn:Hr;
      simpl in H; [|discriminate].
    destruct (ledger_rust_callback _ _ _ _ _ _ _ Hr)
      as (iface & closure & this_desc & arg_descs & L & _ & _). cbn zeta in L.
    destruct (IH _ _ _ _ _ H) as (calls & L' & Hd).
    exists (calls ++ [WrapperCall iface closure this_desc arg_descs]). split.
    + eapply ledger_eq;
        [exact (ledger_seq _ _ _ _ _ _ _ _ _
                  (ledger_seq _ _ _ _ _ _ _ _ _ (ledger_heap st h) L) L')|..].
      * rewrite handed_out_app. simpl. rewrite !app_nil_r. reflexivity.
      * rewrite handed_back_app. simpl. rewrite !app_nil_r. reflexivity.
      * rewrite app_nil_r. reflexivity.
    + rewrite drop_calls_app, Hd. reflexivity.
Qed.

Lemma frame_enter {A} g (s : Script A) : ∀ st st' c,
  script_ok (heap st) s → enter g st s = Some (st', c) → frame st st'.
Proof.
  induction s as [h c0|h callee this args resume IH]; intros st st' c Hok H; simpl in *.
  - injection H as <- <-. apply frame_set_heap. exact Hok.
  - destruct Hok as [Hh Hresume].
    destruct (rust_callback g (set_heap st h) callee this args) as [[st1 result]|] eqn:Hr;
      simpl in H; [|discriminate].
    eapply frame_trans; [apply frame_set_heap; exact Hh|].
    eapply frame_trans; [eapply frame_rust_callback; exact Hr|].
    eapply IH; [apply Hresume|exact H].
Qed.

Lemma reported_enter {A} g (s : Script A) : ∀ st st' c,
  script_reports s → enter g st s = Some (st', c) → reported c.
Proof.
  induction s as [h c0|h callee this args resume IH]; intros st st' c Hrep H; simpl in *.
  - injection H as _ <-. exact Hrep.
  - destruct (rust_callback g (set_heap st h) callee this args) as [[st1 result]|];
      simpl in H; [|discriminate].
    eapply IH; [apply Hrep|exact H].
Qed.

(** Encoding leaves the cells it makes live, and every cell that was. *)
Lemma value_to_desc_live st value :
  (∀ p, p ∈ desc_handle (value_to_desc st value).2 →
        is_Some (persistents (value_to_desc st value).1 !! p))
  ∧ ∀ p, is_Some (persistents st !! p) →
         is_Some (persistents (value_to_desc st value).1 !! p).
Proof.
  destruct (value_to_desc_finish st value) as [[-> ->]|[-> ->]].
  - split; [intros p Hp; inversion Hp|auto].
  - unfold Persistent_new; simpl. split.
    + intros p Hp. apply list_elem_of_singleton in Hp as ->.
      rewrite lookup_insert_eq. eauto.
    + intros p Hp. rewrite lookup_insert. case_decide; eauto.
Qed.

Lemma encode_values_live values : ∀ st,
  (∀ p, p ∈ desc_handles (encode_values st values).2 →
        is_Some (persistents (encode_values st values).1 !! p))
  ∧ ∀ p, is_Some (persistents st !! p) →
         is_Some (persistents (encode_values st values).1 !! p).
Proof.
  induction values as [|v values IH]; intros st; simpl.
  - split; [intros p Hp; inversion Hp|auto].
  - destruct (value_to_desc_live st v) as [Hnew Hold].
    destruct (value_to_desc st v) as [st1 desc]. specialize (IH st1).
    destruct (encode_values st1 values) as [st2 descs]. simpl in *.
    destruct IH as [Hnew2 Hold2]. split; [|auto].
    intros p Hp. apply elem_of_app in Hp as [Hp|Hp]; auto.
Qed.

(** A host that answers with what it was handed lets the trampoline
    return. *)
Lemma rust_callback_returns g st callee this args ext :
  host_answers g →
  FunctionCallbackInfo_Data st callee = Some ext →
  is_Some (callbacks st !! ext) →
  is_Some (rust_callback g st callee this args).
Proof.
  intros (wrapper & Hw & Hanswer) Hd [callback Hc].
  rewrite (rust_callback_invoke_trampoline _ _ _ _ _ _ _ _ Hw Hd Hc).
  unfold invoke_trampoline.
  pose proof (encode_values_live (this :: args) st) as [Hlive _]. simpl in Hlive.
  destruct (value_to_desc st this) as [st1 this_desc].
  destruct (encode_values st1 args) as [st2 arg_descs]. simpl in Hlive.
  set (outcome := wrapper _ _ _ _ _).
  destruct (desc_to_value_live
              (record_host_call st2
                 (WrapperCall (interface callback) (func callback) this_desc arg_descs))
              (value_desc outcome)) as [[st3 value] Hv].
  { intros p Hp. apply Hlive. exact (Hanswer _ _ _ _ _ _ Hp). }
  rewrite Hv. simpl. eauto.
Qed.

Lemma enter_returns {A} g (s : Script A) : ∀ st,
  host_answers g → calls_registered (callbacks st) s → is_Some (enter g st s).
Proof.
  induction s as [h c0|h callee this args resume IH]; intros st Hg Hs; simpl in *.
  - eauto.
  - destruct Hs as [(a & o & ext & -> & Ho & Hcls & Hreg) Hresume].
    destruct (rust_callback_returns g (set_heap st h) (JsObject a) this args ext Hg)
      as [[st1 result] Hr].
    { unfold FunctionCallbackInfo_Data, object_class. simpl. rewrite Ho. simpl.
      rewrite Hcls. reflexivity. }
    { exact Hreg. }
    rewrite Hr. simpl. apply IH; [exact Hg|].
    destruct (ledger_rust_callback _ _ _ _ _ _ _ Hr) as (? & ? & ? & ? & L & _).
    destruct (ledger_logs _ _ _ _ _ L) as (_ & _ & _ & -> & _). apply Hresume.
Qed.

(** *** Phases *)

Lemma ledger_phase g E st st' :
  engine_phase g E st st' →
  ∃ calls, ledger st (handed_out calls) (handed_back g calls) calls st'
           ∧ drop_calls calls = [].
Proof.
  induction 1 as [st|st A s st' c Hs He|st1 st2 st3 _ IH1 _ IH2].
  - exists []. split; [apply ledger_refl|reflexivity].
  - eapply ledger_enter. exact He.
  - destruct IH1 as (calls1 & L1 & Hd1). destruct IH2 as (calls2 & L2 & Hd2).
    exists (calls2 ++ calls1). split.
    + eapply ledger_eq; [exact (ledger_seq _ _ _ _ _ _ _ _ _ L1 L2)|..].
      * apply handed_out_app.
      * apply handed_back_app.
      * reflexivity.
    + rewrite drop_calls_app, Hd1, Hd2. reflexivity.
Qed.

Lemma frame_phase g E st st' : engine_ok E → engine_phase g E st st' → frame st st'.
Proof.
  intros HE. induction 1 as [st|st A s st' c Hs He|st1 st2 st3 _ IH1 _ IH2].
  - apply frame_refl.
  - eapply frame_enter; [apply HE; exact Hs|exact He].
  - eapply frame_trans; eassumption.
Qed.

Lemma finish_refl st desc : desc_handle desc = [] → finish_phase st st desc.
Proof.
  intros H. exists (heap st). split; [apply keeps_private_slots_refl|].
  left. split; [symmetry; apply set_heap_id|exact H].
Qed.

Lemma finish_Persistent_new st value desc :
  desc_handle desc = [next_alloc st] → finish_phase st (Persistent_new st value).1 desc.
Proof.
  intros H. exists (heap st). split; [apply keeps_private_slots_refl|].
  right. exists value. rewrite set_heap_id. split; [reflexivity|exact H].
Qed.

Lemma finish_value_to_desc st value :
  finish_phase st (value_to_desc st value).1 (value_to_desc st value).2.
Proof.
  destruct (value_to_desc_finish st value) as [[-> H]|[-> H]];
    [apply finish_refl|apply finish_Persistent_new]; exact H.
Qed.

Lemma finish_try_catch_ok st value :
  finish_phase st (try_catch_ok st value).1 (value_desc (try_catch_ok st value).2).
Proof.
  unfold try_catch_ok. pose proof (finish_value_to_desc st value) as H.
  destruct (value_to_desc st value). exact H.
Qed.

Lemma finish_try_catch_err st try_catch st' r :
  try_catch_err st try_catch = Some (st', r) → finish_phase st st' (value_desc r).
Proof.
  intros H. apply try_catch_err_cases in H as (_ & st1 & value & Hv & Hcase).
  pose proof (finish_value_to_desc st1 value) as Hf. rewrite <- Hv in Hf. simpl in Hf.
  destruct Hcase as [(_ & -> & _)|(_ & He)]; [exact Hf|].
  unfold Exception_Error, heap_alloc in He. injection He as -> _.
  destruct Hf as (h & Hh & Hf). simpl in Hh.
  exists h. split.
  - eapply keeps_private_slots_trans; [apply keeps_private_slots_alloc|exact Hh].
  - destruct Hf as [[-> Hd]|(v & -> & Hd)]; [left|right; exists v]; split; auto.
Qed.

Lemma ledger_finish st st' desc :
  finish_phase st st' desc → ledger st (desc_handle desc) [] [] st'.
Proof.
  intros (h & _ & [[-> ->]|(value & -> & ->)]); [apply ledger_heap|].
  eapply ledger_eq;
    [exact (ledger_seq _ _ _ _ _ _ _ _ _ (ledger_heap st h)
              (ledger_new (set_heap st h) value))|..]; reflexivity.
Qed.

Lemma frame_finish st st' desc : finish_phase st st' desc → frame st st'.
Proof.
  intros (h & Hh & [[-> _]|(value & -> & _)]); [apply frame_set_heap; exact Hh|].
  eapply frame_trans; [apply frame_set_heap; exact Hh|apply frame_Persistent_new].
Qed.

(** The end of the operations that check [HasCaught]. *)
Lemma finish_caught {A} st (c : Completion A) (k : option (Interface * TryCatchDesc))
    st' r :
  (if HasCaught (TryCatch_of c) then try_catch_err st (TryCatch_of c) else k)
  = Some (st', r) →
  (k = Some (st', r) → finish_phase st st' (value_desc r) ∧ is_exception r = 0) →
  finish_phase st st' (value_desc r) ∧ flagged (inl r).
Proof.
  intros H Hk. destruct (HasCaught (TryCatch_of c)).
  - split; [eapply finish_try_catch_err; exact H|].
    right. eapply try_catch_err_is_exception; exact H.
  - destruct (Hk H). split; [assumption|left; assumption].
Qed.

(** The end of the operations that check the handle returned. *)
Lemma finish_empty {A} st (c : Completion A) (k : A → option (Interface * TryCatchDesc))
    st' r :
  match Maybe_of c with
  | None => try_catch_err st (TryCatch_of c)
  | Some a => k a
  end = Some (st', r) →
  (∀ a, k a = Some (st', r) → finish_phase st st' (value_desc r) ∧ is_exception r = 0) →
  finish_phase st st' (value_desc r) ∧ flagged (inl r).
Proof.
  intros H Hk. destruct (Maybe_of c) as [a|].
  - destruct (Hk a H). split; [assumption|left; assumption].
  - split; [eapply finish_try_catch_err; exact H|].
    right. eapply try_catch_err_is_exception; exact H.
Qed.

Lemma finish_ok st value st' r :
  Some (try_catch_ok st value) = Some (st', r) →
  finish_phase st st' (value_desc r) ∧ is_exception r = 0.
Proof.
  intros H. injection H as H. pose proof (finish_try_catch_ok st value) as Hf.
  rewrite H in Hf. split; [exact Hf|].
  unfold try_catch_ok in H. destruct (value_to_desc st value). injection H as _ <-.
  reflexivity.
Qed.

Lemma finish_new st value t st' r :
  is_reference_tag t = true →
  (let '(st, p) := Persistent_new st value in
   Some (st, try_catch_ok_val {| payload := p; tag := t |})) = Some (st', r) →
  finish_phase st st' (value_desc r) ∧ is_exception r = 0.
Proof.
  intros Ht H. pose proof (finish_Persistent_new st value) as Hf.
  unfold Persistent_new in *. simpl in *. injection H as <- <-.
  split; [|reflexivity]. apply Hf. unfold desc_handle. simpl. rewrite Ht. reflexivity.
Qed.

(** ** The course of an operation *)

Lemma elem_of_rev {A} (x : A) (l : list A) : x ∈ rev l ↔ x ∈ l.
Proof. rewrite !list_elem_of_In. symmetry. apply in_rev. Qed.

Lemma decode_values_cons st d ds st1 v st2 vs :
  desc_to_value st d = Some (st1, v) → decode_values st1 ds = Some (st2, vs) →
  decode_values st (d :: ds) = Some (st2, v :: vs).
Proof. intros H1 H2. simpl. rewrite H1. simpl. rewrite H2. reflexivity. Qed.

Lemma decode_values_one st d st1 v :
  desc_to_value st d = Some (st1, v) → decode_values st [d] = Some (st1, [v]).
Proof. intros H. eapply decode_values_cons; [exact H|reflexivity]. Qed.

Section Operations.
Variable g : Globals.
Variable E : Engine.

Ltac open_get H :=
  match type of H with
  | context [Persistent_get ?s ?p] =>
      let Hg := fresh "Hget" in
      destruct (Persistent_get s p) as [?local|] eqn:Hg; cbn in H; [|discriminate H]
  end.
Ltac open_decode H Hd :=
  match type of H with
  | context [desc_to_value ?s ?d] =>
      destruct (desc_to_value s d) as [[? ?]|] eqn:Hd; cbn in H; [|discriminate H]
  end.
Ltac open_args H Hd :=
  match type of H with
  | context [decode_arg_array ?s ?d ?n] =>
      rewrite (decode_arg_array_values s d) in H;
      destruct (decode_values s d) as [[? ?]|] eqn:Hd; cbn in H; [|discriminate H]
  end.
Ltac open_enter H He :=
  match type of H with
  | context [enter ?g ?s ?x] =>
      destruct (enter g s x) as [[? ?]|] eqn:He; cbn in H; [|discriminate H]
  end.
Ltac phases Hd He :=
  eexists _, _, _;
  split; [apply decode_values_one; exact Hd|
          split; [eapply phase_enter; [|exact He]; constructor|]].

Lemma Persistent_get_Some st p value :
  Persistent_get st p = Some value → is_Some (persistents st !! p).
Proof.
  unfold Persistent_get. destruct (persistents st !! p); [eauto|discriminate].
Qed.

(** Every operation decodes its operands, one after the other, enters
    the engine and ends with the desc it returns. *)
Lemma perform_phases st op st' r :
  perform g E st op = Some (st', r) →
  ∃ st1 values st2,
    decode_values st (operands op) = Some (st1, values)
    ∧ engine_phase g E st1 st2
    ∧ finish_phase st2 st' (returned_desc r) ∧ flagged r.
Proof.
  intros H. destruct op; simpl in H;
    match type of H with
    | _ <$> ?x = _ => destruct x as [[s t]|] eqn:Hx; cbn in H; [|discriminate H]
    end; injection H as <- <-.
  - unfold mv8_array_set in Hx. open_get Hx. open_decode Hx Hd. open_enter Hx He.
    phases Hd He. eapply finish_caught; [exact Hx|].
    intros [= <- <-]. split; [apply finish_refl|]; reflexivity.
  - unfold mv8_object_get in Hx. open_get Hx. open_decode Hx Hd. open_enter Hx He.
    phases Hd He. eapply finish_empty; [exact Hx|]. intros a. apply finish_ok.
  - unfold mv8_object_set in Hx. open_get Hx. open_decode Hx Hd. open_decode Hx Hd2.
    open_enter Hx He.
    eexists _, _, _; split; [|split; [eapply phase_enter; [|exact He]; constructor|]].
    { eapply decode_values_cons; [exact Hd|]. apply decode_values_one. exact Hd2. }
    eapply finish_caught; [exact Hx|].
    intros [= <- <-]. split; [apply finish_refl|]; reflexivity.
  - unfold mv8_object_remove in Hx. open_get Hx. open_decode Hx Hd. open_enter Hx He.
    phases Hd He. eapply finish_caught; [exact Hx|].
    intros [= <- <-]. split; [apply finish_refl|]; reflexivity.
  - unfold mv8_object_has in Hx. open_get Hx. open_decode Hx Hd. open_enter Hx He.
    phases Hd He. eapply finish_caught; [exact Hx|].
    destruct (Maybe_of _); cbn; [|discriminate].
    intros [= <- <-]. split; [apply finish_refl|]; reflexivity.
  - unfold mv8_coerce_boolean in Hx. open_decode Hx Hd. injection Hx as <- <-.
    eexists _, _, _; split; [|split; [apply phase_none|]].
    { apply decode_values_one. exact Hd. }
    split; [apply finish_refl; reflexivity|].
    simpl. unfold to_uint8. destruct (BooleanValue _); [right|left]; reflexivity.
  - unfold mv8_coerce_number in Hx. open_decode Hx Hd. open_enter Hx He.
    phases Hd He. eapply finish_caught; [exact Hx|].
    destruct (Maybe_of _); cbn; [|discriminate].
    intros [= <- <-]. split; [apply finish_refl|]; reflexivity.
  - unfold mv8_coerce_string in Hx. open_decode Hx Hd. open_enter Hx He.
    phases Hd He. eapply finish_caught; [exact Hx|].
    destruct (Maybe_of _) as [str|]; cbn; [|discriminate].
    apply finish_new. reflexivity.
  - unfold mv8_function_call in Hx. open_get Hx. open_decode Hx Hd. open_args Hx Hds.
    open_enter Hx He.
    eexists _, _, _; split; [|split; [eapply phase_enter; [|exact He]; constructor|]].
    { eapply decode_values_cons; [exact Hd|exact Hds]. }
    eapply finish_empty; [exact Hx|]. intros a. apply finish_ok.
  - unfold mv8_function_call_new in Hx. open_get Hx. open_args Hx Hds. open_enter Hx He.
    eexists _, _, _; split; [exact Hds|split; [eapply phase_enter; [|exact He]; constructor|]].
    eapply finish_empty; [exact Hx|]. intros a. apply finish_new. reflexivity.
Qed.

(** Evaluation, reading an element and listing the keys take no desc:
    they enter the engine and end with the desc they return. *)
Lemma inspect_phases st q st' r :
  inspect g E st q = Some (st', r) →
  ∃ st2, engine_phase g E st st2 ∧ finish_phase st2 st' (value_desc r)
         ∧ flagged (inl r).
Proof.
  intros H. destruct q as [source source_length name line column|array index|object inh];
    simpl in H.
  - rewrite mv8_interface_eval_steps in H.
    destruct (string_new source source_length) as [src|]; cbn in H; [|discriminate].
    destruct (script_origin name line column) as [origin|]; cbn in H; [|discriminate].
    open_enter H Hc.
    assert (Pc : engine_phase g E st i) by (eapply phase_enter; [|exact Hc]; constructor).
    destruct (Maybe_of c) as [script|].
    + open_enter H Hr. exists i0. split.
      { eapply phase_seq; [exact Pc|]. eapply phase_enter; [|exact Hr]. constructor. }
      eapply finish_empty; [exact H|]. intros a. apply finish_ok.
    + exists i. split; [exact Pc|].
      split; [eapply finish_try_catch_err; exact H|].
      right. eapply try_catch_err_is_exception; exact H.
  - unfold mv8_array_get in H. open_get H. open_enter H He.
    eexists. split; [eapply phase_enter; [|exact He]; constructor|].
    eapply finish_empty; [exact H|]. intros a. apply finish_ok.
  - unfold mv8_object_keys in H. open_get H.
    destruct (negb (inh =? 0)).
    + open_enter H He.
      eexists. split; [eapply phase_enter; [|exact He]; constructor|].
      eapply finish_caught; [exact H|].
      destruct (Maybe_of _) as [keys|]; cbn; [|discriminate].
      apply finish_new. reflexivity.
    + open_enter H He.
      eexists. split; [eapply phase_enter; [|exact He]; constructor|].
      eapply finish_caught; [exact H|].
      destruct (Maybe_of _) as [keys|]; cbn; [|discriminate].
      apply finish_new. reflexivity.
Qed.

(** The books of an operation: the cells of the operands are released
    first, then script hands cells to the host and gets cells back,
    and the cell of the desc returned is made last. *)
Lemma ledger_perform st op st' r :
  perform g E st op = Some (st', r) →
  ∃ calls,
    ledger st (desc_handle (returned_desc r) ++ handed_out calls)
      (handed_back g calls ++ rev (desc_handles (operands op))) calls st'
    ∧ drop_calls calls = [].
Proof.
  intros H. apply perform_phases in H as (st1 & values & st2 & Hd & Hp & Hf & _).
  apply ledger_decode_values in Hd. apply ledger_finish in Hf.
  destruct (ledger_phase _ _ _ _ Hp) as (calls & L & Hdrop).
  exists calls. split; [|exact Hdrop].
  eapply ledger_eq;
    [exact (ledger_seq _ _ _ _ _ _ _ _ _ (ledger_seq _ _ _ _ _ _ _ _ _ Hd L) Hf)|..].
  - rewrite app_nil_r. reflexivity.
  - reflexivity.
  - rewrite app_nil_r. reflexivity.
Qed.

Lemma ledger_inspect st q st' r :
  inspect g E st q = Some (st', r) →
  ∃ calls,
    ledger st (desc_handle (value_desc r) ++ handed_out calls)
      (handed_back g calls) calls st'
    ∧ drop_calls calls = [].
Proof.
  intros H. apply inspect_phases in H as (st2 & Hp & Hf & _).
  apply ledger_finish in Hf.
  destruct (ledger_phase _ _ _ _ Hp) as (calls & L & Hdrop).
  exists calls. split; [|exact Hdrop].
  eapply ledger_eq; [exact (ledger_seq _ _ _ _ _ _ _ _ _ L Hf)|..]; reflexivity.
Qed.

Lemma frame_perform st op st' r :
  engine_ok E → perform g E st op = Some (st', r) → frame st st'.
Proof.
  intros HE H. apply perform_phases in H as (st1 & values & st2 & Hd & Hp & Hf & _).
  eapply frame_trans; [eapply frame_decode_values; exact Hd|].
  eapply frame_trans; [eapply frame_phase; eassumption|].
  eapply frame_finish; exact Hf.
Qed.

Lemma frame_inspect st q st' r :
  engine_ok E → inspect g E st q = Some (st', r) → frame st st'.
Proof.
  intros HE H. apply inspect_phases in H as (st2 & Hp & Hf & _).
  eapply frame_trans; [eapply frame_phase; eassumption|].
  eapply frame_finish; exact Hf.
Qed.

(** Every operation on well-formed operands returns, when the engine
    reports what it catches and the calls that script makes return. *)
Lemma entry_returns {A} st (s : Script A) :
  host_answers g → calls_live E st → engine_reports E →
  script_of E (heap st) s →
  ∃ st' c, enter g st s = Some (st', c) ∧ reported c.
Proof.
  intros Hg Hlive Hrep Hs.
  destruct (enter_returns g s st Hg (Hlive _ _ Hs)) as [[st' c] He].
  exists st', c. split; [exact He|].
  eapply reported_enter; [apply (Hrep _ _ _ Hs)|exact He].
Qed.

Ltac use_get Hrecv :=
  match goal with
  | |- context [Persistent_get ?s ?p] =>
      destruct (Persistent_get_live s p (Hrecv _ eq_refl)) as [?local ->]; cbn
  end.
Ltac use_enter Hg Hlive HE :=
  match goal with
  | |- context [enter g ?s ?x] =>
      let st' := fresh "st" in
      let c := fresh "c" in
      let He := fresh "He" in
      let Hrep := fresh "Hrep" in
      destruct (entry_returns s x Hg Hlive HE ltac:(constructor))
        as (st' & c & He & Hrep);
      rewrite He; cbn
  end.

Lemma perform_returns st op :
  engine_reports E → well_formed st op → host_answers g →
  (∀ st1 values, decode_values st (operands op) = Some (st1, values) → calls_live E st1) →
  is_Some (perform g E st op).
Proof.
  intros HE (Hrecv & Hnd & Hlive) Hg Hcalls.
  destruct (decode_values_live (operands op) st Hnd Hlive) as [[st1 values] Hd].
  specialize (Hcalls st1 values Hd).
  destruct op as [array index vd|object kd|object kd vd|object kd|object kd|desc|desc|desc
                  |fv this_desc arg_descs|fv arg_descs];
    simpl in *; apply fmap_is_Some.
  - unfold mv8_array_set. use_get Hrecv.
    destruct (desc_to_value st vd) as [[s v]|]; cbn in Hd |- *; [|discriminate].
    injection Hd as -> _. cbn. use_enter Hg Hcalls HE.
    apply caught_returns; [assumption|]. eauto.
  - unfold mv8_object_get. use_get Hrecv.
    destruct (desc_to_value st kd) as [[s v]|]; cbn in Hd |- *; [|discriminate].
    injection Hd as -> _. cbn. use_enter Hg Hcalls HE.
    apply empty_returns; [assumption|]. eauto.
  - unfold mv8_object_set. use_get Hrecv.
    destruct (desc_to_value st kd) as [[s v]|]; cbn in Hd |- *; [|discriminate].
    destruct (desc_to_value s vd) as [[s2 v2]|]; cbn in Hd |- *; [|discriminate].
    injection Hd as -> _. cbn. use_enter Hg Hcalls HE.
    apply caught_returns; [assumption|]. eauto.
  - unfold mv8_object_remove. use_get Hrecv.
    destruct (desc_to_value st kd) as [[s v]|]; cbn in Hd |- *; [|discriminate].
    injection Hd as -> _. cbn. use_enter Hg Hcalls HE.
    apply caught_returns; [assumption|]. eauto.
  - unfold mv8_object_has. use_get Hrecv.
    destruct (desc_to_value st kd) as [[s v]|]; cbn in Hd |- *; [|discriminate].
    injection Hd as -> _. cbn. use_enter Hg Hcalls HE.
    apply caught_returns; [assumption|]. intros a ->. cbn. eauto.
  - unfold mv8_coerce_boolean.
    destruct (desc_to_value st desc) as [[s v]|]; cbn in Hd |- *; [|discriminate]. cbn. eauto.
  - unfold mv8_coerce_number.
    destruct (desc_to_value st desc) as [[s v]|]; cbn in Hd |- *; [|discriminate].
    injection Hd as -> _. cbn. use_enter Hg Hcalls HE.
    apply caught_returns; [assumption|]. intros a ->. cbn. eauto.
  - unfold mv8_coerce_string.
    destruct (desc_to_value st desc) as [[s v]|]; cbn in Hd |- *; [|discriminate].
    injection Hd as -> _. cbn. use_enter Hg Hcalls HE.
    apply caught_returns; [assumption|]. intros a ->. cbn.
    destruct (Persistent_new _ a). eauto.
  - unfold mv8_function_call. use_get Hrecv.
    destruct (desc_to_value st this_desc) as [[s v]|]; cbn in Hd |- *; [|discriminate].
    cbn. rewrite decode_arg_array_values.
    destruct (decode_values s arg_descs) as [[s2 vs]|]; cbn in Hd |- *; [|discriminate].
    injection Hd as -> _. cbn. use_enter Hg Hcalls HE.
    apply empty_returns; [assumption|]. eauto.
  - unfold mv8_function_call_new. use_get Hrecv.
    rewrite decode_arg_array_values, Hd. cbn. use_enter Hg Hcalls HE.
    apply empty_returns; [assumption|].
    intros a. destruct (Persistent_new _ a). eauto.
Qed.

(** The books of a sequence of operations. *)
Lemma ledger_perform_all ops : ∀ st st',
  perform_all g E st ops = Some st' →
  ∃ made gone calls,
    ledger st made gone calls st'
    ∧ ∀ p, p ∈ operand_handles ops → p ∈ gone.
Proof.
  induction ops as [|op ops IH]; intros st st' H; simpl in H.
  - injection H as <-. exists [], [], []. split; [apply ledger_refl|].
    intros p Hp. inversion Hp.
  - destruct (perform g E st op) as [[st1 r]|] eqn:Hp; cbn in H; [|discriminate].
    destruct (ledger_perform _ _ _ _ Hp) as (calls & L1 & _).
    destruct (IH _ _ H) as (made & gone & calls' & L2 & Hin).
    eexists _, _, _. split; [exact (ledger_seq _ _ _ _ _ _ _ _ _ L1 L2)|].
    intros p Hp'. simpl in Hp'. rewrite !elem_of_app.
    apply elem_of_app in Hp' as [Hp'|Hp']; [|auto].
    right. right. apply elem_of_rev. exact Hp'.
Qed.

End Operations.

Lemma fixed_engine_reports cv cb cs :
  reported cv → reported cb → reported cs → engine_reports (fixed_engine cv cb cs).
Proof. intros Hv Hb Hs h A s Hof. destruct Hof; simpl; assumption. Qed.

Lemma fixed_engine_ok cv cb cs : engine_ok (fixed_engine cv cb cs).
Proof. intros h A s Hof. destruct Hof; simpl; apply keeps_private_slots_refl. Qed.

Lemma fixed_engine_calls_live cv cb cs st : calls_live (fixed_engine cv cb cs) st.
Proof. intros A s Hof. destruct Hof; exact I. Qed.

Lemma native_result_ok h result : script_ok h (native_result h result).
Proof. destruct result; apply keeps_private_slots_refl. Qed.

Lemma call_function_ok h callee this args : script_ok h (call_function h callee this args).
Proof.
  unfold call_function.
  destruct callee; try apply keeps_private_slots_refl.
  destruct (obj_class <$> h !! addr) as [[| |[ext|]| |]|]; simpl;
    try apply keeps_private_slots_refl.
  split; [apply keeps_private_slots_refl|]. intros h' result. apply native_result_ok.
Qed.

Lemma calling_engine_ok : engine_ok calling_engine.
Proof.
  intros h A s Hof.
  destruct Hof;
    first [exact (keeps_private_slots_refl _)|exact (call_function_ok _ _ _ _)].
Qed.

Lemma call_function_reports h callee this args :
  script_reports (call_function h callee this args).
Proof.
  unfold call_function.
  destruct callee; simpl; try (right; eexists; reflexivity).
  destruct (obj_class <$> h !! addr) as [[| |[ext|]| |]|]; simpl;
    try (right; eexists; reflexivity).
  intros h' [value|value]; simpl; [exact I|right; eexists; reflexivity].
Qed.

Lemma calling_engine_reports : engine_reports calling_engine.
Proof.
  intros h A s Hof.
  destruct Hof; first [exact I|exact (call_function_reports _ _ _ _)].
Qed.

Lemma call_function_registered st callee this args :
  functions_registered st →
  calls_registered (callbacks st) (call_function (heap st) callee this args).
Proof.
  intros Hreg. unfold call_function.
  destruct callee; simpl; try exact I.
  destruct (heap st !! addr) as [o|] eqn:Ho; simpl; [|exact I].
  destruct (obj_class o) as [| |[ext|]| |] eqn:Hc; simpl; try exact I.
  split.
  - exists addr, o, ext. split; [reflexivity|]. split; [exact Ho|]. split; [exact Hc|].
    specialize (Hreg addr o Ho). unfold function_registered in Hreg. rewrite Hc in Hreg.
    apply bool_decide_eq_true_1 in Hreg. exact Hreg.
  - intros h' [value|value]; exact I.
Qed.

Lemma calling_engine_calls_live st :
  functions_registered st → calls_live calling_engine st.
Proof.
  intros Hreg A s Hof.
  destruct Hof; first [exact I|exact (call_function_registered _ _ _ _ Hreg)].
Qed.

Lemma sample_globals_answers : host_answers sample_globals.
Proof.
  eexists. split; [reflexivity|].
  intros iface closure this_desc arg_descs n p Hp. simpl in *.
  destruct (arg_descs !! 1%nat) as [desc|] eqn:Hd; simpl in Hp; [|inversion Hp].
  apply elem_of_app. right.
  destruct arg_descs as [|d0 [|d1 rest]]; try discriminate. injection Hd as ->.
  simpl. rewrite !elem_of_app. auto.
Qed.

(** C2. Every exported operation that takes descs releases the cell of
    each reference-variant desc it is given exactly once, whatever the
    engine does, whatever registered functions script calls on the
    way, and whether the outcome is a value or an exception. Whenever
    the operation returns, the cells released during it are the cells
    of its operands, released first and in the order of the operands,
    and after them the cells that the host handed back from the calls
    that script made of registered functions; no cell is released
    twice; a cell of an operand was live before and is dead after; the
    cells created are those handed to the host in those calls and the
    cell of the desc returned; and the books balance after it if they
    did before. On well-formed operands (live cells, no cell in two
    descs) the operation does return, when the engine leaves a stack
    trace or a message with whatever it catches and the calls that
    script makes are calls of live registrations that the host answers
    with a desc it was handed or one without a cell. After any
    sequence of operations every cell of an operand passed in has been
    released, no cell twice, and the cells created are as many as
    those released and those still live. *)
Theorem operands_released_once (g : Globals) (E : Engine) (st : Interface)
    (op : Operation) :
  alloc_ok st →
  (∀ st' r, perform g E st op = Some (st', r) →
     ∃ calls,
       host_calls st' = calls ++ host_calls st
       ∧ released st'
         = handed_back g calls ++ rev (desc_handles (operands op)) ++ released st
       ∧ NoDup (handed_back g calls ++ rev (desc_handles (operands op)))
       ∧ (∀ p, p ∈ desc_handles (operands op) →
            is_Some (persistents st !! p) ∧ persistents st' !! p = None)
       ∧ created st' = desc_handle (returned_desc r) ++ handed_out calls ++ created st
       ∧ alloc_ok st'
       ∧ (balanced st → balanced st'))
  ∧ (engine_reports E → well_formed st op → host_answers g →
     (∀ st1 values,
        decode_values st (operands op) = Some (st1, values) → calls_live E st1) →
     is_Some (perform g E st op))
  ∧ (∀ ops st', perform_all g E st ops = Some st' →
       ∃ gone,
         released st' = gone ++ released st
         ∧ NoDup gone
         ∧ (∀ p, p ∈ operand_handles ops → p ∈ gone ∧ persistents st' !! p = None)
         ∧ alloc_ok st'
         ∧ (balanced st → balanced st')).
Proof.
  intros Ha. split; [|split].
  - intros st' r H.
    destruct (ledger_perform _ _ _ _ _ _ H) as (calls & L & _).
    apply perform_phases in H as (st1 & values & st2 & Hd & _).
    apply decode_values_consumed in Hd.
    destruct (ledger_logs _ _ _ _ _ L) as (Hc & Hr & Hh & _).
    destruct (ledger_sound _ _ _ _ _ L Ha) as (Ha' & _ & Hnd & _ & _ & Hgone & _).
    exists calls. split; [exact Hh|].
    split; [rewrite Hr, app_assoc; reflexivity|]. split; [exact Hnd|].
    split; [|split; [rewrite Hc, app_assoc; reflexivity|
                     split; [exact Ha'|apply (balanced_ledger _ _ _ _ _ L Ha)]]].
    intros p Hp. split; [apply (consumed_live _ _ _ Hd p Hp)|].
    apply Hgone. apply elem_of_app. right. apply elem_of_rev. exact Hp.
  - apply perform_returns.
  - intros ops st' H.
    destruct (ledger_perform_all _ _ _ _ _ H) as (made & gone & calls & L & Hin).
    destruct (ledger_logs _ _ _ _ _ L) as (_ & Hr & _).
    destruct (ledger_sound _ _ _ _ _ L Ha) as (Ha' & _ & Hnd & _ & _ & Hgone & _).
    exists gone. split; [exact Hr|]. split; [exact Hnd|].
    split; [|split; [exact Ha'|apply (balanced_ledger _ _ _ _ _ L Ha)]].
    intros p Hp. split; [apply Hin; exact Hp|]. apply Hgone, Hin, Hp.
Qed.

(** ** Coercions *)

(** C9. Boolean coercion returns for every desc whose cell, if it has
    one, is live; what it returns is a bare byte, 0 or 1 (the
    ToBoolean of the decoded value), not an outcome, so there is no
    way for it to report an exception; and it releases the desc's
    cell. Numeric and string coercion, given the same desc, return an
    exception outcome when the engine's conversion throws (and leaves
    a stack trace or a message with the try-catch). *)
Theorem mv8_coerce_boolean_total (g : Globals) (E : Engine) (st : Interface)
    (desc : ValueDesc) :
  live_desc st desc →
  (∃ st' value,
      desc_to_value st desc = Some (st', value)
      ∧ mv8_coerce_boolean st desc = Some (st', if BooleanValue value then 1 else 0)
      ∧ released st' = rev (desc_handle desc) ++ released st
      ∧ ∀ p, p ∈ desc_handle desc → persistents st' !! p = None)
  ∧ (∀ st1 value st2 thrown report,
       desc_to_value st desc = Some (st1, value) →
       enter g st1 (Value_ToNumber E (heap st1) value)
       = Some (st2, Throws thrown report) →
       reported (@Throws Value thrown report) →
       ∃ st' r, mv8_coerce_number g E st desc = Some (st', r) ∧ is_exception r = 1)
  ∧ (∀ st1 value st2 thrown report,
       desc_to_value st desc = Some (st1, value) →
       enter g st1 (Value_ToString E (heap st1) value)
       = Some (st2, Throws thrown report) →
       reported (@Throws Value thrown report) →
       ∃ st' r, mv8_coerce_string g E st desc = Some (st', r) ∧ is_exception r = 1).
Proof.
  intros Hlive. split; [|split].
  - destruct (desc_to_value_live st desc Hlive) as [[st' value] Hd].
    exists st', value. split; [assumption|].
    unfold mv8_coerce_boolean. rewrite Hd; cbn.
    split; [destruct (BooleanValue value); reflexivity|].
    apply desc_to_value_consumed in Hd. destruct Hd as [Hr Hp _ _ _ _].
    split; [assumption|].
    intros p Hin. rewrite Hp. rewrite decide_True by assumption. reflexivity.
  - intros st1 value st2 thrown report Hd Hn Hrep. unfold mv8_coerce_number.
    rewrite Hd; cbn. rewrite Hn; cbn.
    destruct (try_catch_err_thrown st2 true thrown _ _ Hrep) as (st' & r & Ht & _).
    exists st', r. split; [exact Ht|].
    exact (try_catch_err_is_exception _ _ _ _ Ht).
  - intros st1 value st2 thrown report Hd Hn Hrep. unfold mv8_coerce_string.
    rewrite Hd; cbn. rewrite Hn; cbn.
    destruct (try_catch_err_thrown st2 true thrown _ _ Hrep) as (st' & r & Ht & _).
    exists st', r. split; [exact Ht|].
    exact (try_catch_err_is_exception _ _ _ _ Ht).
Qed.

(** Coercing the sample array's handle, on an engine whose conversions
    throw. *)
Lemma mv8_coerce_boolean_total_witness :
  let report := message_only "Uncaught no primitive value" in
  let E := fixed_engine (Throws (JsString "no primitive value") report) (Returns true)
             (Returns 0) in
  let desc := reference_desc ValueDescTag.Array 17 in
  (∃ st', mv8_coerce_boolean sample_interface desc = Some (st', 1)
          ∧ released st' = [17])
  ∧ (∃ st' r, mv8_coerce_number sample_globals E sample_interface desc = Some (st', r)
              ∧ is_exception r = 1).
Proof.
  intros report E desc.
  assert (Hlive : live_desc sample_interface desc).
  { intros p Hp. apply list_elem_of_singleton in Hp as ->. eexists; reflexivity. }
  destruct (mv8_coerce_boolean_total sample_globals E sample_interface desc Hlive)
    as ((st' & value & Hd & Hb & Hr & _) & Hn & _).
  split.
  - exists st'. injection Hd as <- <-. split; [exact Hb|exact Hr].
  - eapply (Hn _ _ _ (JsString "no primitive value") report eq_refl eq_refl).
    right. eexists; reflexivity.
Defined.

Lemma sample_interface_balanced : alloc_ok sample_interface ∧ balanced sample_interface.
Proof.
  split.
  - intros p [cell Hp]. simpl in Hp.
    destruct (decide (p = 16)) as [->|H16]; [reflexivity|].
    destruct (decide (p = 17)) as [->|H17]; [reflexivity|].
    rewrite lookup_insert_ne in Hp by congruence.
    rewrite lookup_singleton_ne in Hp by congruence. discriminate.
  - reflexivity.
Qed.

Lemma sample_interface_alloc_ok : alloc_ok sample_interface.
Proof. apply sample_interface_balanced. Qed.

(** ** The lifetime of a registration *)

Lemma registry_ok_new self : registry_ok (mv8_interface_new self).
Proof.
  split; simpl.
  - intros cb c H. rewrite lookup_empty in H. discriminate.
  - intros p cell H. rewrite lookup_empty in H. discriminate.
  - intros cb H. inversion H.
  - intros cb [c H]. rewrite lookup_empty in H. discriminate.
  - intros cb H. inversion H.
  - intros p [c H]. rewrite lookup_empty in H. discriminate.
  - intros cb H. inversion H.
  - constructor.
Qed.

(** The state after [mv8_function_create], field by field. *)
Section Create.
Variables (st : Interface) (fn fn_size : Z).
Let cb := next_alloc st.
Let a := fresh (dom (heap st)).
Let st' := (mv8_function_create st fn fn_size).1.

Lemma create_result : (mv8_function_create st fn fn_size).2 = cb + 1.
Proof. reflexivity. Qed.

Lemma create_heap :
  heap st' = <[a := {| obj_class := ClsFunction (Some cb); obj_private := Some cb;
                        obj_properties := []; obj_prototype := None |}]>
               (heap st).
Proof.
  subst st' cb a. unfold mv8_function_create, Persistent_new; cbn.
  unfold set_heap; cbn. rewrite alter_insert_eq. reflexivity.
Qed.

Lemma create_persistents :
  persistents st' = <[cb + 2 := weak_cell a cb]>
                      (<[cb + 1 := strong_cell (JsObject a)]> (persistents st)).
Proof.
  subst st' cb a. unfold mv8_function_create, Persistent_new; cbn.
  rewrite alter_insert_eq; cbn. rewrite alter_insert_eq; cbn.
  replace (next_alloc st + 1 + 1) with (next_alloc st + 2) by lia. reflexivity.
Qed.

Lemma create_callbacks :
  callbacks st' = <[cb := {| func := fn; func_size := fn_size; interface := self st;
                             value_ptr := cb + 2 |}]> (callbacks st).
Proof.
  subst st' cb a. unfold mv8_function_create, Persistent_new; cbn.
  rewrite alter_insert_eq; cbn.
  replace (next_alloc st + 1 + 1) with (next_alloc st + 2) by lia. reflexivity.
Qed.

Lemma create_next_alloc : next_alloc st' = cb + 3.
Proof. subst st' cb a. unfold mv8_function_create, Persistent_new; cbn. lia. Qed.

Lemma create_registered : registered st' = cb :: registered st.
Proof. reflexivity. Qed.

Lemma create_finalized : finalized st' = finalized st.
Proof. reflexivity. Qed.

Lemma create_external_memory :
  external_memory st'
  = to_int64 (external_memory st
              + to_int64 (to_uint64 (sizeof_RustCallback + fn_size))).
Proof. reflexivity. Qed.
End Create.

Lemma weak_cell_inj a cb a' cb' : weak_cell a cb = weak_cell a' cb' → cb = cb'.
Proof. intros [= _ H]. exact H. Qed.

Lemma count_occ_cons_other (l : list Z) x y :
  x ≠ y → count_occ Z.eq_dec (x :: l) y = count_occ Z.eq_dec l y.
Proof. intros H. apply count_occ_cons_neq. exact H. Qed.

Lemma registry_ok_create st fn fn_size :
  registry_ok st → registry_ok (mv8_function_create st fn fn_size).1.
Proof.
  intros [Hrec Hcell Hreg Hlive Hfin Hac Har Hnd].
  set (cb := next_alloc st). set (a := fresh (dom (heap st))).
  assert (Ha : heap st !! a = None)
    by (apply not_elem_of_dom; subst a; apply is_fresh).
  assert (Hcb : callbacks st !! cb = None).
  { destruct (callbacks st !! cb) eqn:E; [|reflexivity].
    specialize (Har cb (Hlive cb ltac:(eauto))). subst cb. lia. }
  assert (Hcbr : cb ∉ registered st).
  { intros H. specialize (Har cb H). subst cb. lia. }
  split; rewrite ?create_heap, ?create_persistents, ?create_callbacks,
           ?create_next_alloc, ?create_registered, ?create_finalized;
    fold cb; fold a.
  - intros cb' c. rewrite lookup_insert. case_decide as Heq.
    + intros [= <-]. subst cb'. simpl. exists a. eexists.
      rewrite !lookup_insert_eq. repeat split; reflexivity.
    + intros Hc. destruct (Hrec cb' c Hc) as (a' & o & Hp & Ho & Hpriv).
      exists a', o.
      assert (value_ptr c < cb) by (apply Hac; eauto).
      rewrite !lookup_insert_ne by lia.
      rewrite lookup_insert_ne by congruence. auto.
  - intros p cell. rewrite lookup_insert. case_decide as Heq.
    + intros [= <-] _. exists cb. eexists. exists a. subst p.
      rewrite lookup_insert_eq. repeat split; reflexivity.
    + rewrite lookup_insert. case_decide as Heq'.
      * intros [= <-]. simpl. intros [H|H]; congruence.
      * intros Hp Hw. destruct (Hcell p cell Hp Hw) as (cb' & c & a' & -> & Hc & Hv).
        exists cb', c, a'. split; [reflexivity|]. split; [|assumption].
        rewrite lookup_insert_ne; [assumption|]. congruence.
  - intros cb' Hin. apply elem_of_cons in Hin as [->|Hin].
    + left. rewrite lookup_insert_eq. split; [eauto|].
      apply count_occ_not_In. rewrite <- list_elem_of_In. intros H. apply Hcbr, Hfin, H.
    + assert (cb' ≠ cb) by congruence.
      rewrite lookup_insert_ne by congruence. auto.
  - intros cb'. rewrite lookup_insert. case_decide as Heq.
    + intros _. subst cb'. apply list_elem_of_here.
    + intros H. apply list_elem_of_further. auto.
  - intros cb' H. apply list_elem_of_further. auto.
  - intros p [cell Hp]. rewrite lookup_insert in Hp. case_decide; [lia|].
    rewrite lookup_insert in Hp. case_decide; [lia|].
    specialize (Hac p ltac:(eauto)). subst cb. lia.
  - intros cb' Hin. apply elem_of_cons in Hin as [->|Hin]; [lia|].
    specialize (Har cb' Hin). subst cb. lia.
  - constructor; assumption.
Qed.

(** The state after the finalizer, field by field. *)
Lemma callback_drop_inner_state g st cb c drop :
  callbacks st !! cb = Some c →
  is_Some (persistents st !! value_ptr c) →
  main_callback_drop_func g = Some drop →
  ∃ st', callback_drop_inner g st cb = Some st'
    ∧ heap st' = heap st
    ∧ persistents st' = delete (value_ptr c) (persistents st)
    ∧ callbacks st' = delete cb (callbacks st)
    ∧ next_alloc st' = next_alloc st
    ∧ registered st' = registered st
    ∧ finalized st' = cb :: finalized st
    ∧ released st' = value_ptr c :: released st
    ∧ created st' = created st
    ∧ host_calls st' = DropCall (func c) :: host_calls st
    ∧ external_memory st'
      = to_int64 (external_memory st
                  + to_int64 (to_uint64 (- to_uint64 (sizeof_RustCallback + func_size c)))).
Proof.
  intros Hc [cell Hcell] Hd. unfold callback_drop_inner.
  rewrite Hc; cbn. rewrite Hcell; cbn. rewrite Hd; cbn.
  unfold Persistent_delete; cbn. rewrite lookup_alter_eq, Hcell; cbn.
  eexists. split; [reflexivity|]. cbn.
  rewrite delete_alter_eq. repeat split; reflexivity.
Qed.

Lemma registry_ok_finalize g st cb c drop st' :
  registry_ok st →
  callbacks st !! cb = Some c →
  main_callback_drop_func g = Some drop →
  callback_drop_inner g st cb = Some st' →
  registry_ok st'.
Proof.
  intros [Hrec Hcell Hreg Hlive Hfin Hac Har Hnd] Hc Hd Hrun.
  destruct (Hrec cb c Hc) as (a & o & Hp & Ho & Hpriv).
  destruct (callback_drop_inner_state g st cb c drop Hc ltac:(eauto) Hd)
    as (st'' & Hrun' & Hh & Hps & Hcs & Hn & Hr & Hf & _).
  rewrite Hrun in Hrun'. injection Hrun' as <-.
  split; rewrite ?Hh, ?Hps, ?Hcs, ?Hn, ?Hr, ?Hf.
  - intros cb' c'. rewrite lookup_delete. case_decide as Heq; [discriminate|].
    intros Hc'. destruct (Hrec cb' c' Hc') as (a' & o' & Hp' & Ho' & Hpriv').
    exists a', o'. split; [|auto].
    rewrite lookup_delete_ne; [assumption|].
    intros Hv. rewrite Hv in Hp. rewrite Hp in Hp'.
    assert (Hw : weak_cell a cb = weak_cell a' cb') by congruence.
    apply weak_cell_inj in Hw. congruence.
  - intros p cell. rewrite lookup_delete. case_decide as Heq; [discriminate|].
    intros Hp' Hw. destruct (Hcell p cell Hp' Hw) as (cb' & c' & a' & -> & Hc' & Hv).
    exists cb', c', a'. split; [reflexivity|]. split; [|assumption].
    rewrite lookup_delete_ne; [assumption|]. intros <-. rewrite Hc in Hc'. congruence.
  - intros cb' Hin. destruct (decide (cb' = cb)) as [->|Hne].
    + right. rewrite lookup_delete_eq. split; [reflexivity|].
      destruct (Hreg cb Hin) as [[_ H0]|[Hnone _]]; [|congruence].
      simpl. destruct (Z.eq_dec cb cb); [|congruence]. rewrite H0. reflexivity.
    + rewrite lookup_delete_ne by congruence.
      rewrite count_occ_cons_other by congruence. auto.
  - intros cb'. rewrite lookup_delete. case_decide; [intros [? ?]; discriminate|]. auto.
  - intros cb' Hin. apply elem_of_cons in Hin as [->|Hin]; [apply Hlive; eauto|auto].
  - intros p [cell Hp']. rewrite lookup_delete in Hp'.
    case_decide; [discriminate|]. apply Hac. eauto.
  - assumption.
  - assumption.
Qed.

Lemma weak_cells_kept_lookup st st' p cell :
  weak_cells_kept st st' = true →
  persistents st !! p = Some cell → weak_parameter cell ≠ None →
  persistents st' !! p = Some cell.
Proof.
  unfold weak_cells_kept. intros H Hp Hw.
  rewrite forallb_forall in H. specialize (H (p, cell)). simpl in H.
  destruct (weak_parameter cell); [|congruence].
  eapply bool_decide_eq_true_1. apply H.
  apply list_elem_of_In, elem_of_map_to_list. assumption.
Qed.

Lemma registry_ok_frame st st' :
  registry_ok st → frame st st' → weak_cells_kept st st' = true → registry_ok st'.
Proof.
  intros [Hrec Hcell Hreg Hlive Hfin Hac Har Hnd] [Fc Fr Ff Fm Fd Fn Fp Fh] Hkept.
  split; rewrite ?Fc, ?Fr, ?Ff; try assumption.
  - intros cb c Hc. destruct (Hrec cb c Hc) as (a & o & Hp & Ho & Hpriv).
    destruct (Fh a o Ho) as (o' & Ho' & Hpriv').
    exists a, o'. split; [|split; [assumption|congruence]].
    eapply weak_cells_kept_lookup; [eassumption..|discriminate].
  - intros p cell Hp Hw. destruct (Fp p cell Hp) as [Hold|(_ & H0 & Hn)].
    + apply (Hcell p cell Hold Hw).
    + destruct Hw; congruence.
  - intros p [cell Hp]. destruct (Fp p cell Hp) as [Hold|(Hrange & _)]; [|lia].
    specialize (Hac p ltac:(eauto)). lia.
  - intros cb Hin. specialize (Har cb Hin). lia.
Qed.

(** ** Reading a data node *)

Lemma dbl_trunc_bounds d t :
  size_t_of_double d = Some t → 0 <= t < 2 ^ 64.
Proof.
  unfold size_t_of_double. destruct (dbl_trunc d) as [x|]; cbn; [|discriminate].
  destruct (Z.leb_spec 0 x); cbn; [|discriminate].
  destruct (Z.ltb_spec x (2 ^ 64)); cbn; [|discriminate].
  intros [= <-]. lia.
Qed.

Section DataNodeProperties.
Variable g : Globals.
Variable E : Engine.
Variable Array_Length : gmap nat JsObj → Value → nat.
Variable ArrayBuffer_GetContents : gmap nat JsObj → Value → option (Z * Z).

(** A property read is an entry of the engine. *)
Lemma Get_ToLocalChecked_phase st obj key st' value :
  Get_ToLocalChecked g E st obj key = Some (st', value) → engine_phase g E st st'.
Proof.
  unfold Get_ToLocalChecked. intros H.
  destruct (enter g st _) as [[st1 c]|] eqn:He; cbn in H; [|discriminate].
  destruct (Maybe_of c); cbn in H; [|discriminate]. injection H as <- _.
  eapply phase_enter; [|exact He]. constructor.
Qed.

Lemma read_buffers_slots remaining : ∀ i st buffers ptrs capacities st' ptrs' capacities',
  length capacities = length ptrs →
  read_buffers g E ArrayBuffer_GetContents remaining i st buffers ptrs capacities
  = Some (st', ptrs', capacities') →
  engine_phase g E st st'
  ∧ length ptrs' = length ptrs
  ∧ length capacities' = length capacities
  ∧ (remaining = 0 ∨ i + remaining ≤ length ptrs)%nat
  ∧ (∀ j, (j < i ∨ i + remaining ≤ j)%nat →
       ptrs' !! j = ptrs !! j ∧ capacities' !! j = capacities !! j).
Proof.
  induction remaining as [|n IH];
    intros i st buffers ptrs capacities st' ptrs' capacities' Hl H; simpl in H.
  - injection H as <- <- <-. split; [apply phase_none|]. auto.
  - destruct (enter g st _) as [[st1 c]|] eqn:He; cbn in H; [|discriminate].
    destruct (Maybe_of c) as [buffer_value|]; cbn in H; [|discriminate].
    destruct (ArrayBuffer_GetContents _ buffer_value) as [[data byte_length]|]; cbn in H;
      [|discriminate].
    destruct (ptrs !! i) as [slot|] eqn:Hi; cbn in H; [|discriminate].
    apply lookup_lt_Some in Hi.
    apply IH in H as (Hp & Hlp & Hlc & Hn & Hrest);
      [|rewrite !length_insert; exact Hl].
    rewrite !length_insert in *.
    split.
    { eapply phase_seq; [|exact Hp]. eapply phase_enter; [|exact He]. constructor. }
    split; [exact Hlp|]. split; [exact Hlc|].
    split; [right; lia|].
    intros j Hj. destruct (Hrest j ltac:(lia)) as [Hp' Hc'].
    rewrite Hp', Hc'. rewrite !list_lookup_insert_ne by lia. auto.
Qed.

(** Reading a data node decodes the desc and enters the engine for
    each property; what it returns has its fields in range. *)
Lemma data_node_phases st data_desc st' data :
  mv8_data_node_from_js g E Array_Length ArrayBuffer_GetContents st data_desc
  = Some (st', data) →
  ∃ st1 value,
    desc_to_value st data_desc = Some (st1, value)
    ∧ engine_phase g E st1 st'
    ∧ 0 <= n_buffers data <= 2
    ∧ length (buffer_ptrs data) = 2%nat
    ∧ length (buffer_capacities data) = 2%nat
    ∧ (∀ i, n_buffers data <= Z.of_nat i →
         (i < 2)%nat →
         buffer_ptrs data !! i = Some 0 ∧ buffer_capacities data !! i = Some 0)
    ∧ 0 <= len data < 2 ^ 64
    ∧ 0 <= null_count data < 2 ^ 64.
Proof.
  unfold mv8_data_node_from_js. intros H.
  destruct (desc_to_value st data_desc) as [[st1 value]|] eqn:Hd; cbn in H; [|discriminate].
  exists st1, value. split; [reflexivity|].
  destruct (IsObject value); cbn in H; [|discriminate].
  destruct (Get_ToLocalChecked g E st1 value (JsString "len")) as [[st2 len_value]|] eqn:H1;
    cbn in H; [|discriminate].
  apply Get_ToLocalChecked_phase in H1.
  destruct (Number_Cast_Value len_value) as [len_num|]; cbn in H; [|discriminate].
  destruct (size_t_of_double len_num) as [data_len|] eqn:Hlen; cbn in H; [|discriminate].
  destruct (Get_ToLocalChecked g E st2 value (JsString "null_count"))
    as [[st3 null_count_value]|] eqn:H2; cbn in H; [|discriminate].
  apply Get_ToLocalChecked_phase in H2.
  destruct (Number_Cast_Value null_count_value) as [null_count_num|]; cbn in H;
    [|discriminate].
  destruct (size_t_of_double null_count_num) as [data_null_count|] eqn:Hnull; cbn in H;
    [|discriminate].
  destruct (Get_ToLocalChecked g E st3 value (JsString "buffers"))
    as [[st4 buffers_value]|] eqn:H3; cbn in H; [|discriminate].
  apply Get_ToLocalChecked_phase in H3.
  destruct (IsArray st4 buffers_value); cbn in H; [|discriminate].
  destruct (Nat.leb_spec (Array_Length (heap st4) buffers_value) 2) as [Hn|Hn]; cbn in H;
    [|discriminate].
  destruct (read_buffers _ _ _ _ _ _ _ _ _) as [[[st5 ptrs] capacities]|] eqn:Hb; cbn in H;
    [|discriminate].
  apply read_buffers_slots in Hb as (H4 & Hlp & Hlc & _ & Hrest); [|reflexivity].
  destruct (Get_ToLocalChecked g E st5 value (JsString "null_bits"))
    as [[st6 null_bits_value]|] eqn:H5; cbn in H; [|discriminate].
  apply Get_ToLocalChecked_phase in H5.
  destruct (ArrayBuffer_GetContents _ null_bits_value) as [[cdata clen]|]; cbn in H;
    [|discriminate].
  injection H as <- <-. cbn.
  split.
  { do 4 (eapply phase_seq; [eassumption|]). assumption. }
  split; [lia|]. split; [exact Hlp|]. split; [exact Hlc|].
  split; [|split; eapply dbl_trunc_bounds; eassumption].
  intros i Hi H2'. destruct (Hrest i ltac:(lia)) as [-> ->].
  destruct i as [|[|i]]; [split; reflexivity..|lia].
Qed.

Lemma frame_data_node st data_desc st' data :
  engine_ok E →
  mv8_data_node_from_js g E Array_Length ArrayBuffer_GetContents st data_desc
  = Some (st', data) →
  frame st st'.
Proof.
  intros HE H. apply data_node_phases in H as (st1 & value & Hd & Hp & _).
  eapply frame_trans; [eapply frame_desc_to_value; exact Hd|].
  eapply frame_phase; eassumption.
Qed.

Lemma ledger_data_node st data_desc st' data :
  mv8_data_node_from_js g E Array_Length ArrayBuffer_GetContents st data_desc
  = Some (st', data) →
  ∃ calls, ledger st (handed_out calls) (handed_back g calls ++ desc_handle data_desc)
             calls st'
           ∧ drop_calls calls = [].
Proof.
  intros H. apply data_node_phases in H as (st1 & value & Hd & Hp & _).
  apply ledger_desc_to_value in Hd.
  destruct (ledger_phase _ _ _ _ Hp) as (calls & L & Hdrop).
  exists calls. split; [|exact Hdrop].
  eapply ledger_eq; [exact (ledger_seq _ _ _ _ _ _ _ _ _ Hd L)|..].
  - rewrite app_nil_r. reflexivity.
  - reflexivity.
  - rewrite app_nil_r. reflexivity.
Qed.
End DataNodeProperties.

(** ** The lifetime of the registrations *)

Lemma ledger_construct st c st' p :
  construct st c = Some (st', p) →
  ledger st [p] [] [] st' ∧ p = next_alloc st
  ∧ ∃ h value, keeps_private_slots (heap st) h
               ∧ st' = (Persistent_new (set_heap st h) value).1.
Proof.
  destruct c as [data length| |]; simpl; intros H.
  - unfold mv8_string_new in H.
    destruct (string_new data length) as [s|]; cbn in H; [|discriminate].
    injection H as <- <-.
    split; [apply ledger_new|]. split; [reflexivity|].
    exists (heap st), (JsString s). split; [apply keeps_private_slots_refl|].
    reflexivity.
  - injection H as <- <-.
    split; [|split; [reflexivity|]].
    + eapply ledger_eq;
        [exact (ledger_seq _ _ _ _ _ _ _ _ _
                  (ledger_heap st (<[fresh (dom (heap st)) := bare ClsArray]> (heap st)))
                  (ledger_new _ (JsObject (fresh (dom (heap st))))))|..]; reflexivity.
    + eexists _, _. split; [apply keeps_private_slots_alloc|reflexivity].
  - injection H as <- <-.
    split; [|split; [reflexivity|]].
    + eapply ledger_eq;
        [exact (ledger_seq _ _ _ _ _ _ _ _ _
                  (ledger_heap st (<[fresh (dom (heap st)) := bare ClsObject]> (heap st)))
                  (ledger_new _ (JsObject (fresh (dom (heap st))))))|..]; reflexivity.
    + eexists _, _. split; [apply keeps_private_slots_alloc|reflexivity].
Qed.

Lemma frame_construct st c st' p : construct st c = Some (st', p) → frame st st'.
Proof.
  intros H. apply ledger_construct in H as (_ & _ & h & value & Hh & ->).
  eapply frame_trans; [apply frame_set_heap; exact Hh|apply frame_Persistent_new].
Qed.

Lemma transition_frame g E st e st' :
  engine_ok E → by_host e = true → transition g E st e = Some st' → frame st st'.
Proof.
  intros HE Hh H.
  destruct e as [fn n|p|p|c|op|q|Array_Length ArrayBuffer_GetContents data_desc|p];
    try discriminate Hh; simpl in H.
  - unfold mv8_value_ptr_clone in H.
    destruct (Persistent_get st p) as [v|]; cbn in H; [|discriminate].
    injection H as <-. apply frame_Persistent_new.
  - eapply frame_Persistent_delete; eassumption.
  - destruct (construct st c) as [[s r]|] eqn:Hc; cbn in H; [|discriminate].
    injection H as <-. eapply frame_construct; eassumption.
  - destruct (perform g E st op) as [[s r]|] eqn:Hp; cbn in H; [|discriminate].
    injection H as <-. eapply frame_perform; eassumption.
  - destruct (inspect g E st q) as [[s r]|] eqn:Hp; cbn in H; [|discriminate].
    injection H as <-. eapply frame_inspect; eassumption.
  - destruct (mv8_data_node_from_js _ _ _ _ _ _) as [[s r]|] eqn:Hp; cbn in H;
      [|discriminate].
    injection H as <-. eapply frame_data_node; eassumption.
Qed.

(** *** External memory *)

Lemma to_int64_small a : - 2 ^ 63 <= a < 2 ^ 63 → to_int64 a = a.
Proof. intros H. unfold to_int64. rewrite Z.mod_small by lia. lia. Qed.

Lemma to_int64_add_sub a s : to_int64 (to_int64 (a + s) - s) = to_int64 a.
Proof.
  unfold to_int64. f_equal.
  replace ((a + s + 2 ^ 63) mod 2 ^ 64 - 2 ^ 63 - s + 2 ^ 63)
    with ((a + s + 2 ^ 63) mod 2 ^ 64 - s) by lia.
  rewrite Zminus_mod_idemp_l. f_equal. lia.
Qed.

Lemma size_credit s : 0 <= s < 2 ^ 63 → to_int64 (to_uint64 s) = s.
Proof.
  intros H. unfold to_uint64. rewrite Z.mod_small by lia. apply to_int64_small. lia.
Qed.

Lemma size_debit s : 0 <= s < 2 ^ 63 → to_int64 (to_uint64 (- to_uint64 s)) = - s.
Proof.
  intros H. unfold to_uint64 at 2. rewrite (Z.mod_small s) by lia.
  unfold to_int64, to_uint64. rewrite Zplus_mod_idemp_l.
  rewrite Z.mod_small by lia. lia.
Qed.

Lemma to_int64_eqm a b : a mod 2 ^ 64 = b mod 2 ^ 64 → to_int64 a = to_int64 b.
Proof.
  intros H. unfold to_int64. f_equal.
  rewrite (Zplus_mod a), (Zplus_mod b), H. reflexivity.
Qed.

Lemma to_int64_mod a : to_int64 a mod 2 ^ 64 = a mod 2 ^ 64.
Proof.
  unfold to_int64. rewrite Zminus_mod_idemp_l. f_equal. lia.
Qed.

Lemma to_int64_credit a s :
  to_int64 (to_int64 a + to_int64 (to_uint64 s)) = to_int64 (a + s).
Proof.
  apply to_int64_eqm. rewrite Zplus_mod, !to_int64_mod. unfold to_uint64.
  rewrite Zmod_mod, <- Zplus_mod. reflexivity.
Qed.

Lemma to_int64_debit a s :
  to_int64 (to_int64 a + to_int64 (to_uint64 (- to_uint64 s))) = to_int64 (a - s).
Proof.
  apply to_int64_eqm. rewrite Zplus_mod, !to_int64_mod. unfold to_uint64.
  rewrite Zmod_mod.
  replace (- (s mod 2 ^ 64)) with (0 - s mod 2 ^ 64) by lia.
  rewrite Zminus_mod_idemp_r, <- Zplus_mod. f_equal; lia.
Qed.

Lemma charged_insert cs cb c :
  cs !! cb = None → charged (<[cb := c]> cs) = charged cs + charge c.
Proof.
  intros H. unfold charged. rewrite map_fold_insert_L; [reflexivity| |exact H].
  intros. lia.
Qed.

Lemma charged_delete cs cb c :
  cs !! cb = Some c → charged (delete cb cs) = charged cs - charge c.
Proof.
  intros H. rewrite <- (insert_delete_id cs cb c H) at 2.
  rewrite charged_insert by apply lookup_delete_eq. lia.
Qed.

Lemma callback_drop_inner_debit g st cb c st' :
  callbacks st !! cb = Some c →
  callback_drop_inner g st cb = Some st' →
  external_memory st'
  = to_int64 (external_memory st
              + to_int64 (to_uint64 (- to_uint64 (sizeof_RustCallback + func_size c)))).
Proof.
  intros Hc H. unfold callback_drop_inner in H. rewrite Hc in H; cbn in H.
  destruct (persistents st !! value_ptr c) as [cell|] eqn:Hp; cbn in H; [|discriminate].
  destruct (main_callback_drop_func g) as [drop|] eqn:Hd; cbn in H; [|discriminate].
  destruct (callback_drop_inner_state g st cb c drop Hc ltac:(eauto) Hd)
    as (st'' & Hrun & Hrest).
  unfold callback_drop_inner in Hrun. rewrite Hc in Hrun; cbn in Hrun.
  rewrite Hp in Hrun; cbn in Hrun. rewrite Hd in Hrun; cbn in Hrun.
  rewrite H in Hrun. injection Hrun as <-. apply Hrest.
Qed.

Lemma create_fresh_record st : registry_ok st → callbacks st !! next_alloc st = None.
Proof.
  intros Hok. destruct (callbacks st !! next_alloc st) eqn:Hc; [|reflexivity].
  pose proof (ok_alloc_record st Hok _ (ok_live st Hok _ ltac:(eauto))). lia.
Qed.

Lemma accounted_create st fn fn_size :
  registry_ok st → memory_accounted st →
  memory_accounted (mv8_function_create st fn fn_size).1.
Proof.
  intros Hok Hm. unfold memory_accounted in *.
  rewrite create_external_memory, create_callbacks, Hm.
  rewrite charged_insert by (apply create_fresh_record; exact Hok).
  apply to_int64_credit.
Qed.

Lemma accounted_finalize g st cb c drop st' :
  registry_ok st →
  callbacks st !! cb = Some c →
  main_callback_drop_func g = Some drop →
  callback_drop_inner g st cb = Some st' →
  memory_accounted st → memory_accounted st'.
Proof.
  intros Hok Hc Hd Hrun Hm.
  destruct (ok_record st Hok cb c Hc) as (a & o & Hp & _).
  destruct (callback_drop_inner_state g st cb c drop Hc ltac:(eauto) Hd)
    as (st'' & Hrun' & _ & _ & Hcs & _ & _ & _ & _ & _ & _ & Hmem).
  rewrite Hrun in Hrun'. injection Hrun' as <-.
  unfold memory_accounted in *. rewrite Hmem, Hcs, Hm.
  rewrite (charged_delete _ _ _ Hc). apply to_int64_debit.
Qed.

Lemma accounted_new self : memory_accounted (mv8_interface_new self).
Proof. reflexivity. Qed.

(** *** The closures of the live registrations *)

Lemma live_funcs_insert (cs : gmap Z RustCallback) cb c :
  cs !! cb = None →
  func <$> (map_to_list (<[cb := c]> cs)).*2 ≡ₚ func c :: (func <$> (map_to_list cs).*2).
Proof. intros H. rewrite map_to_list_insert by exact H. reflexivity. Qed.

Lemma live_funcs_delete (cs : gmap Z RustCallback) cb c :
  cs !! cb = Some c →
  func <$> (map_to_list cs).*2 ≡ₚ func c :: (func <$> (map_to_list (delete cb cs)).*2).
Proof. intros H. rewrite <- (map_to_list_delete cs cb c H). reflexivity. Qed.

(** *** A weak callback run by the collector *)

Lemma collect_state g drop st p st' :
  main_callback_drop_func g = Some drop →
  registry_ok st →
  collect g st p = Some st' →
  ∃ a cb c,
    persistents st !! p = Some (weak_cell a cb)
    ∧ callbacks st !! cb = Some c
    ∧ value_ptr c = p
    ∧ callback_drop_inner g st cb = Some st'.
Proof.
  intros Hd Hok H. unfold collect, callback_drop in H.
  destruct (persistents st !! p) as [cell|] eqn:Hp; cbn in H; [|discriminate].
  destruct (weak_parameter cell) as [cb|] eqn:Hw; cbn in H; [|discriminate].
  destruct (ok_cell st Hok p cell Hp) as (cb' & c & a & -> & Hc & Hv).
  { right. congruence. }
  injection Hw as <-.
  destruct (callback_drop_inner g st cb') as [st1|] eqn:Hrun; cbn in H; [|discriminate].
  destruct (persistents st1 !! p); [discriminate|]. injection H as <-.
  exists a, cb', c. auto.
Qed.

(** The collector's callback for a weak cell of a sound registry
    returns. *)
Lemma collect_returns g drop st p cell :
  main_callback_drop_func g = Some drop →
  registry_ok st →
  persistents st !! p = Some cell → is_Some (weak_parameter cell) →
  is_Some (collect g st p).
Proof.
  intros Hd Hok Hp [cb Hw].
  destruct (ok_cell st Hok p cell Hp) as (cb' & c & a & -> & Hc & Hv).
  { right. congruence. }
  injection Hw as <-.
  destruct (callback_drop_inner_state g st cb' c drop Hc) as (st1 & Hrun & _ & Hps & _);
    [rewrite Hv; eauto|assumption|].
  unfold collect, callback_drop. rewrite Hp; cbn. rewrite Hrun; cbn.
  rewrite Hps, Hv, lookup_delete_eq. eauto.
Qed.

(** One event keeps the registry sound, the memory accounted and the
    closures in the books: every closure registered so far is live or
    has been dropped at the host. *)
Lemma lifetime_step g E drop st e st' :
  main_callback_drop_func g = Some drop → engine_ok E →
  registry_ok st → step g E st e = Some st' →
  registry_ok st'
  ∧ length (registered st') = (length (registered st) + registrations [e])%nat
  ∧ (memory_accounted st → memory_accounted st')
  ∧ drop_calls (host_calls st') ++ live_funcs st'
    ≡ₚ registered_funcs [e] ++ drop_calls (host_calls st) ++ live_funcs st.
Proof.
  intros Hd HE Hok Hs. unfold step in Hs.
  destruct (transition g E st e) as [st1|] eqn:Ht; cbn in Hs; [|discriminate].
  destruct (by_host e) eqn:Hh.
  - destruct (weak_cells_kept st st1) eqn:Hk; cbn in Hs; [|discriminate].
    injection Hs as <-.
    pose proof (transition_frame g E st e st1 HE Hh Ht) as Hf.
    split; [eapply registry_ok_frame; eassumption|].
    split.
    { rewrite (frame_registered _ _ Hf). unfold registrations.
      destruct e; try discriminate Hh; rewrite filter_cons_False by discriminate;
        simpl; lia. }
    split.
    { unfold memory_accounted.
      rewrite (frame_external_memory _ _ Hf), (frame_callbacks _ _ Hf). auto. }
    unfold live_funcs.
    rewrite (frame_drop_calls _ _ Hf), (frame_callbacks _ _ Hf).
    destruct e; try discriminate Hh; reflexivity.
  - cbn in Hs. injection Hs as <-.
    destruct e as [fn n|p|p|c|op|q|Array_Length ArrayBuffer_GetContents data_desc|p];
      try discriminate Hh; simpl in Ht.
    + assert (Hst : (mv8_function_create st fn n).1 = st1) by (injection Ht; auto).
      clear Ht. subst st1. split; [apply registry_ok_create; assumption|].
      split.
      { unfold registrations. rewrite filter_cons_True by reflexivity.
        change (registered (mv8_function_create st fn n).1)
          with (next_alloc st :: registered st).
        simpl. lia. }
      split; [apply accounted_create; assumption|].
      unfold live_funcs. rewrite create_callbacks.
      rewrite live_funcs_insert by (apply create_fresh_record; exact Hok).
      change (host_calls (mv8_function_create st fn n).1) with (host_calls st).
      simpl. symmetry. apply Permutation_middle.
    + destruct (collect_state g drop st p st1 Hd Hok Ht) as (a & cb & c & Hp & Hc & Hv & Hrun).
      split; [eapply registry_ok_finalize; eassumption|].
      destruct (callback_drop_inner_state g st cb c drop Hc) as (st'' & Hrun' & Hrest);
        [rewrite Hv, Hp; eauto|assumption|].
      rewrite Hrun in Hrun'. injection Hrun' as <-.
      destruct Hrest as (_ & _ & Hcs & _ & Hr & _ & _ & _ & Hcalls & _).
      split.
      { rewrite Hr. unfold registrations. rewrite filter_cons_False by discriminate.
        simpl. lia. }
      split; [eapply accounted_finalize; eassumption|].
      unfold live_funcs. rewrite Hcalls, Hcs. simpl.
      rewrite (live_funcs_delete (callbacks st) cb c Hc).
      apply Permutation_middle.
Qed.

Lemma lifetime_run g E drop events : ∀ st st',
  main_callback_drop_func g = Some drop → engine_ok E →
  registry_ok st → run g E st events = Some st' →
  registry_ok st'
  ∧ length (registered st') = (length (registered st) + registrations events)%nat
  ∧ (memory_accounted st → memory_accounted st')
  ∧ drop_calls (host_calls st') ++ live_funcs st'
    ≡ₚ registered_funcs events ++ drop_calls (host_calls st) ++ live_funcs st.
Proof.
  induction events as [|e events IH]; intros st st' Hd HE Hok Hr; simpl in Hr.
  - injection Hr as <-. split; [assumption|].
    split; [unfold registrations; simpl; lia|]. split; [auto|reflexivity].
  - destruct (step g E st e) as [st1|] eqn:Hs; cbn in Hr; [|discriminate].
    destruct (lifetime_step _ _ _ _ _ _ Hd HE Hok Hs) as (Hok1 & Hlen1 & Hm1 & Hf1).
    destruct (IH st1 st' Hd HE Hok1 Hr) as (Hok' & Hlen & Hm & Hf).
    split; [assumption|]. split.
    { rewrite Hlen, Hlen1. unfold registrations.
      destruct (decide (is_registration e = true)) as [He|He].
      + rewrite !filter_cons_True by assumption. simpl. lia.
      + rewrite !filter_cons_False by assumption. simpl. lia. }
    split; [auto|].
    rewrite Hf, Hf1.
    replace (registered_funcs (e :: events))
      with (registered_funcs [e] ++ registered_funcs events)
      by (destruct e; reflexivity).
    rewrite !app_assoc. apply Permutation_app_tail, Permutation_app_tail.
    apply Permutation_app_comm.
Qed.

Lemma run_app g E events1 : ∀ events2 st,
  run g E st (events1 ++ events2)
  = (st ← run g E st events1; run g E st events2).
Proof.
  induction events1 as [|e events1 IH]; intros events2 st; simpl; [reflexivity|].
  destruct (step g E st e) as [st1|]; cbn; [apply IH|reflexivity].
Qed.

Lemma VisitPersistentHandle_finalizes g st p a cb o :
  persistents st !! p = Some (weak_cell a cb) →
  heap st !! a = Some o →
  obj_private o = Some cb →
  VisitPersistentHandle g st p RUST_CALLBACK_CLASS_ID = callback_drop_inner g st cb.
Proof.
  intros Hp Ho Hpriv. unfold VisitPersistentHandle, Persistent_get, GetPrivate.
  rewrite Z.eqb_refl, Hp; cbn. rewrite Ho; cbn. rewrite Hpriv. reflexivity.
Qed.

(** The sweep finalizes every record that is still live. *)
Lemma visit_handles_sweeps g drop ps : ∀ st,
  main_callback_drop_func g = Some drop →
  registry_ok st →
  (∀ cb c, callbacks st !! cb = Some c → value_ptr c ∈ ps) →
  ∃ st', visit_handles (VisitPersistentHandle g) ps st = Some st'
         ∧ registry_ok st' ∧ callbacks st' = ∅ ∧ registered st' = registered st.
Proof.
  induction ps as [|p ps IH]; intros st Hd Hok Hin; simpl.
  - exists st. split; [reflexivity|]. split; [assumption|]. split; [|reflexivity].
    apply map_empty. intros cb. destruct (callbacks st !! cb) as [c|] eqn:Hc; [|reflexivity].
    specialize (Hin cb c Hc). inversion Hin.
  - assert (Hskip : (∀ cb c, callbacks st !! cb = Some c → value_ptr c ≠ p) →
              ∀ cb c, callbacks st !! cb = Some c → value_ptr c ∈ ps).
    { intros Hne cb c Hc. specialize (Hin cb c Hc).
      apply elem_of_cons in Hin as [Heq|Hin']; [|assumption].
      exfalso. exact (Hne cb c Hc Heq). }
    destruct (persistents st !! p) as [cell|] eqn:Hp.
    + destruct (Z.eqb_spec (wrapper_class_id cell) 0) as [Hz|Hnz].
      * apply IH; [assumption..|]. apply Hskip. intros cb c Hc Hv.
        destruct (ok_record st Hok cb c Hc) as (a & o & Hp' & _).
        rewrite Hv, Hp in Hp'. injection Hp' as ->. discriminate.
      * destruct (ok_cell st Hok p cell Hp ltac:(auto)) as (cb & c & a & -> & Hc & Hv).
        destruct (ok_record st Hok cb c Hc) as (a' & o & Hp' & Ho & Hpriv).
        rewrite Hv, Hp in Hp'. injection Hp' as <-.
        destruct (callback_drop_inner_state g st cb c drop Hc) as (st1 & Hrun & Hrest);
          [rewrite Hv; eauto|assumption|].
        change (wrapper_class_id (weak_cell a cb)) with RUST_CALLBACK_CLASS_ID.
        rewrite (VisitPersistentHandle_finalizes g st p a cb o Hp Ho Hpriv), Hrun; cbn.
        pose proof (registry_ok_finalize _ _ _ _ _ _ Hok Hc Hd Hrun) as Hok1.
        destruct Hrest as (_ & Hps & Hcs & _ & Hr & _).
        destruct (IH st1 Hd Hok1) as (st' & Hv' & Hok' & He & Hr').
        { intros cb' c'. rewrite Hcs, lookup_delete. case_decide; [discriminate|].
          intros Hc'. specialize (Hin cb' c' Hc').
          apply elem_of_cons in Hin as [Heq|Hin']; [|assumption].
          exfalso. destruct (ok_record st Hok cb' c' Hc') as (a'' & o'' & Hp'' & _).
          rewrite Heq, Hp in Hp''.
          assert (Hw : weak_cell a cb = weak_cell a'' cb') by congruence.
          apply weak_cell_inj in Hw. congruence. }
        exists st'. split; [assumption|]. split; [assumption|].
        split; [assumption|]. congruence.
    + apply IH; [assumption..|]. apply Hskip. intros cb c Hc Hv.
      destruct (ok_record st Hok cb c Hc) as (a & o & Hp' & _).
      rewrite Hv, Hp in Hp'. discriminate.
Qed.

Lemma accounted_sweep g drop ps : ∀ st st',
  main_callback_drop_func g = Some drop →
  registry_ok st → memory_accounted st →
  visit_handles (VisitPersistentHandle g) ps st = Some st' →
  memory_accounted st'.
Proof.
  induction ps as [|p ps IH]; intros st st' Hd Hok Hm Hv; simpl in Hv.
  - injection Hv as <-. exact Hm.
  - destruct (persistents st !! p) as [cell|] eqn:Hp; [|eauto].
    destruct (Z.eqb_spec (wrapper_class_id cell) 0) as [Hz|Hnz]; [eauto|].
    destruct (ok_cell st Hok p cell Hp ltac:(auto)) as (cb & c & a & -> & Hc & Hvp).
    destruct (ok_record st Hok cb c Hc) as (a' & o & Hp' & Ho & Hpriv).
    rewrite Hvp, Hp in Hp'. injection Hp' as <-.
    change (wrapper_class_id (weak_cell a cb)) with RUST_CALLBACK_CLASS_ID in Hv.
    rewrite (VisitPersistentHandle_finalizes g st p a cb o Hp Ho Hpriv) in Hv.
    destruct (callback_drop_inner g st cb) as [st1|] eqn:Hrun; cbn in Hv; [|discriminate].
    apply (IH st1 st' Hd); [| |exact Hv].
    + exact (registry_ok_finalize g st cb c drop st1 Hok Hc Hd Hrun).
    + exact (accounted_finalize g st cb c drop st1 Hok Hc Hd Hrun Hm).
Qed.

(** The sweep, record by record: [log] are the records it finalizes,
    in the order in which it comes to them; with the records it leaves
    they are the records there were, each once. *)
Lemma visit_handles_log g drop ps : ∀ st st',
  main_callback_drop_func g = Some drop →
  registry_ok st →
  visit_handles (VisitPersistentHandle g) ps st = Some st' →
  ∃ log : list (Z * RustCallback),
    Forall (λ x, callbacks st !! x.1 = Some x.2) log
    ∧ size (callbacks st) = (length log + size (callbacks st'))%nat
    ∧ released st' = rev (map (λ x, value_ptr x.2) log) ++ released st
    ∧ host_calls st' = rev (map (λ x, DropCall (func x.2)) log) ++ host_calls st
    ∧ created st' = created st
    ∧ map_to_list (callbacks st) ≡ₚ log ++ map_to_list (callbacks st')
    ∧ finalized st' = rev log.*1 ++ finalized st.
Proof.
  induction ps as [|p ps IH]; intros st st' Hd Hok Hv; simpl in Hv.
  - injection Hv as <-. exists []. split; [constructor|]. repeat split; reflexivity.
  - destruct (persistents st !! p) as [cell|] eqn:Hp; [|eauto].
    destruct (Z.eqb_spec (wrapper_class_id cell) 0) as [Hz|Hnz]; [eauto|].
    destruct (ok_cell st Hok p cell Hp ltac:(auto)) as (cb & c & a & -> & Hc & Hvp).
    destruct (ok_record st Hok cb c Hc) as (a' & o & Hp' & Ho & Hpriv).
    rewrite Hvp, Hp in Hp'. injection Hp' as <-.
    change (wrapper_class_id (weak_cell a cb)) with RUST_CALLBACK_CLASS_ID in Hv.
    rewrite (VisitPersistentHandle_finalizes g st p a cb o Hp Ho Hpriv) in Hv.
    destruct (callback_drop_inner_state g st cb c drop Hc) as (st1 & Hrun & Hrest);
      [rewrite Hvp; eauto|assumption|].
    rewrite Hrun in Hv; cbn in Hv.
    destruct Hrest as (_ & _ & Hcs & _ & _ & Hfin & Hrel & Hcr & Hcalls & _).
    destruct (IH st1 st' Hd (registry_ok_finalize g st cb c drop st1 Hok Hc Hd Hrun) Hv)
      as (log & Hlog & Hsize & Hr' & Hh' & Hc' & Hperm & Hf').
    exists ((cb, c) :: log). split; [|split; [|split; [|split; [|split; [|split]]]]].
    + constructor; [exact Hc|].
      eapply Forall_impl; [exact Hlog|]. intros [cb' c'] Hx. cbn in *.
      rewrite Hcs in Hx. apply lookup_delete_Some in Hx. apply Hx.
    + rewrite Hcs in Hsize.
      assert (Hdel : size (delete cb (callbacks st)) = pred (size (callbacks st)))
        by (apply map_size_delete_Some; eauto).
      rewrite Hdel in Hsize.
      assert (size (callbacks st) ≠ 0%nat).
      { intros H0. apply map_size_empty_inv in H0. rewrite H0, lookup_empty in Hc.
        discriminate. }
      simpl. lia.
    + rewrite Hr', Hrel. simpl. rewrite <- app_assoc. reflexivity.
    + rewrite Hh', Hcalls. simpl. rewrite <- app_assoc. reflexivity.
    + congruence.
    + rewrite <- (map_to_list_delete (callbacks st) cb c Hc). simpl.
      apply Permutation_cons; [reflexivity|]. rewrite <- Hcs. exact Hperm.
    + rewrite Hf', Hfin. simpl. rewrite <- app_assoc. reflexivity.
Qed.

Lemma drop_calls_log (log : list (Z * RustCallback)) :
  drop_calls (rev (map (λ x, DropCall (func x.2)) log)) = rev (func <$> log.*2).
Proof.
  induction log as [|[cb c] log IH]; [reflexivity|]. simpl.
  rewrite drop_calls_app, IH. reflexivity.
Qed.

(** The drop of an interface whose registry is sound: the sweep
    finalizes the records that are live, each once. *)
Lemma mv8_interface_drop_sweeps g drop st :
  main_callback_drop_func g = Some drop →
  registry_ok st →
  ∃ st1 (log : list (Z * RustCallback)),
    visit_handles (VisitPersistentHandle g) (map_to_list (persistents st)).*1 st = Some st1
    ∧ mv8_interface_drop g st = Some (Isolate_Dispose st1)
    ∧ registry_ok st1
    ∧ callbacks st1 = ∅
    ∧ registered st1 = registered st
    ∧ log ≡ₚ map_to_list (callbacks st)
    ∧ released st1 = rev (map (λ x, value_ptr x.2) log) ++ released st
    ∧ host_calls st1 = rev (map (λ x, DropCall (func x.2)) log) ++ host_calls st
    ∧ created st1 = created st
    ∧ finalized st1 = rev log.*1 ++ finalized st
    ∧ (memory_accounted st → external_memory st1 = 0).
Proof.
  intros Hd Hok.
  destruct (visit_handles_sweeps g drop (map_to_list (persistents st)).*1 st Hd Hok)
    as (st1 & Hv & Hok1 & He & Hr).
  { intros cb c Hc. destruct (ok_record st Hok cb c Hc) as (a & o & Hp & _).
    apply list_elem_of_fmap. exists (value_ptr c, weak_cell a cb).
    split; [reflexivity|]. apply elem_of_map_to_list. assumption. }
  destruct (visit_handles_log g drop _ st st1 Hd Hok Hv)
    as (log & _ & _ & Hrel & Hcalls & Hcr & Hperm & Hfin).
  exists st1, log. split; [exact Hv|].
  split.
  { unfold mv8_interface_drop, VisitHandlesWithClassIds. rewrite Hv. reflexivity. }
  split; [exact Hok1|]. split; [exact He|]. split; [exact Hr|].
  split.
  { rewrite Hperm, He, map_to_list_empty, app_nil_r. reflexivity. }
  split; [exact Hrel|]. split; [exact Hcalls|]. split; [exact Hcr|].
  split; [exact Hfin|].
  intros Hm. pose proof (accounted_sweep g drop _ st st1 Hd Hok Hm Hv) as Hm1.
  unfold memory_accounted in Hm1. rewrite Hm1, He. reflexivity.
Qed.

Lemma to_int64_debit_from a s :
  to_int64 (a + to_int64 (to_uint64 (- to_uint64 s))) = to_int64 (a - s).
Proof.
  apply to_int64_eqm. rewrite Zplus_mod, to_int64_mod. unfold to_uint64.
  rewrite Zmod_mod.
  replace (- (s mod 2 ^ 64)) with (0 - s mod 2 ^ 64) by lia.
  rewrite Zminus_mod_idemp_r, <- Zplus_mod. f_equal; lia.
Qed.

(** What the collector's weak callback does for the cell [p]: the
    finalizer of the record of that cell, whole. *)
Lemma step_Collect g E drop st p st' :
  main_callback_drop_func g = Some drop →
  registry_ok st →
  step g E st (Collect p) = Some st' →
  ∃ a cb c,
    persistents st !! p = Some (weak_cell a cb)
    ∧ callbacks st !! cb = Some c
    ∧ value_ptr c = p
    ∧ cb ∈ registered st
    ∧ (cb ∉ finalized st)
    ∧ persistents st' = delete p (persistents st)
    ∧ released st' = p :: released st
    ∧ host_calls st' = DropCall (func c) :: host_calls st
    ∧ callbacks st' = delete cb (callbacks st)
    ∧ finalized st' = cb :: finalized st
    ∧ external_memory st' = to_int64 (external_memory st - charge c).
Proof.
  intros Hd Hok Hs. unfold step in Hs. simpl in Hs.
  destruct (collect g st p) as [st1|] eqn:Ht; cbn in Hs; [|discriminate].
  injection Hs as <-.
  destruct (collect_state g drop st p st1 Hd Hok Ht) as (a & cb & c & Hp & Hc & Hv & Hrun).
  destruct (callback_drop_inner_state g st cb c drop Hc) as (st'' & Hrun' & Hrest);
    [rewrite Hv, Hp; eauto|assumption|].
  rewrite Hrun in Hrun'. injection Hrun' as <-.
  destruct Hrest as (_ & Hps & Hcs & _ & _ & Hfin & Hrel & _ & Hcalls & Hmem).
  exists a, cb, c. rewrite Hv in *.
  assert (Hreg : cb ∈ registered st) by (apply (ok_live st Hok); eauto).
  split; [exact Hp|]. split; [exact Hc|]. split; [reflexivity|].
  split; [exact Hreg|]. split.
  { intros Hin. destruct (ok_registered st Hok cb Hreg) as [[_ H0]|[Hnone _]];
      [|congruence].
    apply list_elem_of_In in Hin. apply (count_occ_In Z.eq_dec) in Hin. lia. }
  split; [exact Hps|]. split; [exact Hrel|]. split; [exact Hcalls|].
  split; [exact Hcs|]. split; [exact Hfin|].
  rewrite Hmem. apply to_int64_debit_from.
Qed.

(** C1. Over the lifetime of an interface, from its creation through
    any sequence of registrations, constructions, handle clones and
    drops, operations on values, evaluations (in which script may call
    registered functions) and weak callbacks run by the collector, to
    its drop. The finalizer of a closure's record runs exactly once:
    the drop succeeds, and when it is done every record that was
    registered is in the log of the finalizer once, the host's drop
    function has been called with the closures that were registered,
    once for each, and what the bridge has charged the external memory
    is debited in full; a record the collector had finalized is not
    finalized again by the sweep, and one it had not is finalized by
    the sweep. Every weak callback of the collector, for the cell [p],
    runs the finalizer of the record of that cell, which was registered
    and not yet finalized: the cell is reset and deleted, the host's
    drop function is called with the record's closure, the record is
    freed and logged, and the external memory is debited by the
    record's charge. The sweep does the same for the records that are
    live when the interface is dropped, each once. And the weak
    callback of any weak cell there is returns. *)
Theorem finalized_exactly_once (g : Globals) (E : Engine) (drop : rust_callback_drop)
    (self : Z) (events : list Event) (st : Interface) :
  main_callback_drop_func g = Some drop →
  engine_ok E →
  run g E (mv8_interface_new self) events = Some st →
  (∃ st', mv8_interface_drop g st = Some st'
    ∧ callbacks st' = ∅
    ∧ registered st' = registered st
    ∧ NoDup (registered st')
    ∧ length (registered st') = registrations events
    ∧ (∀ cb, cb ∈ registered st' → count_occ Z.eq_dec (finalized st') cb = 1%nat)
    ∧ (∀ cb, cb ∈ finalized st →
         count_occ Z.eq_dec (finalized st') cb = count_occ Z.eq_dec (finalized st) cb)
    ∧ (∀ cb, cb ∈ registered st → cb ∉ finalized st →
         count_occ Z.eq_dec (finalized st) cb = 0%nat
         ∧ count_occ Z.eq_dec (finalized st') cb = 1%nat)
    ∧ drop_calls (host_calls st') ≡ₚ registered_funcs events
    ∧ external_memory st' = 0
    ∧ ∃ log : list (Z * RustCallback),
        log ≡ₚ map_to_list (callbacks st)
        ∧ finalized st' = rev log.*1 ++ finalized st
        ∧ host_calls st' = rev (map (λ x, DropCall (func x.2)) log) ++ host_calls st
        ∧ released st' = rev (map (λ x, value_ptr x.2) log) ++ released st)
  ∧ (∀ pre p post, events = pre ++ Collect p :: post →
       ∃ st0 st1 a cb c,
         run g E (mv8_interface_new self) pre = Some st0
         ∧ step g E st0 (Collect p) = Some st1
         ∧ run g E st1 post = Some st
         ∧ persistents st0 !! p = Some (weak_cell a cb)
         ∧ callbacks st0 !! cb = Some c
         ∧ value_ptr c = p
         ∧ cb ∈ registered st0
         ∧ (cb ∉ finalized st0)
         ∧ persistents st1 = delete p (persistents st0)
         ∧ released st1 = p :: released st0
         ∧ host_calls st1 = DropCall (func c) :: host_calls st0
         ∧ callbacks st1 = delete cb (callbacks st0)
         ∧ finalized st1 = cb :: finalized st0
         ∧ external_memory st1 = to_int64 (external_memory st0 - charge c))
  ∧ (∀ p cell, persistents st !! p = Some cell → is_Some (weak_parameter cell) →
       is_Some (step g E st (Collect p))).
Proof.
  intros Hd HE Hrun.
  destruct (lifetime_run g E drop events _ _ Hd HE (registry_ok_new self) Hrun)
    as (Hok & Hlen & Hm & Hf).
  specialize (Hm (accounted_new self)).
  split; [|split].
  - destruct (mv8_interface_drop_sweeps g drop st Hd Hok)
      as (st1 & log & Hv & Hdrop & Hok1 & He & Hr & Hperm & Hrel & Hcalls & Hcr & Hfin
          & Hmem).
    assert (Honce : ∀ cb, cb ∈ registered st →
              count_occ Z.eq_dec (finalized st1) cb = 1%nat).
    { intros cb Hin. rewrite <- Hr in Hin.
      destruct (ok_registered st1 Hok1 cb Hin) as [[[c Hc] _]|[_ H1]]; [|assumption].
      rewrite He, lookup_empty in Hc. discriminate. }
    exists (Isolate_Dispose st1).
    split; [exact Hdrop|]. cbn.
    split; [assumption|]. split; [assumption|].
    split; [rewrite Hr; apply (ok_distinct st Hok)|].
    split; [rewrite Hr, Hlen; reflexivity|].
    split; [intros cb Hin; apply Honce; rewrite <- Hr; assumption|].
    split.
    { intros cb Hin. pose proof (ok_finalized st Hok cb Hin) as Hreg.
      rewrite (Honce cb Hreg).
      destruct (ok_registered st Hok cb Hreg) as [[_ H0]|[_ H1]]; [|congruence].
      exfalso. apply list_elem_of_In in Hin.
      apply (count_occ_In Z.eq_dec) in Hin. lia. }
    split.
    { intros cb Hreg Hnf. split; [|apply Honce; assumption].
      apply count_occ_not_In. rewrite <- list_elem_of_In. assumption. }
    split.
    { rewrite Hcalls, drop_calls_app, drop_calls_log, <- Permutation_rev.
      unfold live_funcs in Hf. rewrite <- Hperm in Hf.
      rewrite Permutation_app_comm, Hf. simpl.
      rewrite map_to_list_empty, !app_nil_r. reflexivity. }
    split; [apply Hmem; exact Hm|].
    exists log. auto.
  - intros pre p post ->. rewrite run_app in Hrun.
    destruct (run g E (mv8_interface_new self) pre) as [st0|] eqn:Hpre;
      cbn [mbind option_bind] in Hrun; [|discriminate].
    cbn [run] in Hrun.
    destruct (step g E st0 (Collect p)) as [st1|] eqn:Hs;
      cbn [mbind option_bind] in Hrun; [|discriminate].
    destruct (lifetime_run g E drop pre _ _ Hd HE (registry_ok_new self) Hpre)
      as (Hok0 & _).
    destruct (step_Collect g E drop st0 p st1 Hd Hok0 Hs) as (a & cb & c & Hfacts).
    exists st0, st1, a, cb, c.
    split; [reflexivity|]. split; [exact Hs|]. split; [exact Hrun|]. exact Hfacts.
  - intros p cell Hp Hw. unfold step. simpl.
    destruct (collect_returns g drop st p cell Hd Hok Hp Hw) as [st1 ->]. cbn. eauto.
Qed.

(** Two registrations; the host evaluates script that calls the first
    function with itself as an argument and gets it back, drops the
    handle that evaluation returned and coerces its handle of the
    first function away; the collector finalizes the first
    registration; the drop finalizes the second. *)
Lemma finalized_exactly_once_witness :
  let events :=
    [Register 4096 16; Register 8192 24;
     Inspect (Eval "f(1, f)" 7 None 0 0);
     Release 9;
     Operate (CoerceBoolean (reference_desc ValueDescTag.Function 3));
     Collect 4] in
  ∃ st st',
    run sample_globals calling_engine (mv8_interface_new 1) events = Some st
    ∧ mv8_interface_drop sample_globals st = Some st'
    ∧ length (registered st') = 2%nat
    ∧ (∀ cb, cb ∈ registered st' → count_occ Z.eq_dec (finalized st') cb = 1%nat)
    ∧ drop_calls (host_calls st') ≡ₚ [4096; 8192]
    ∧ external_memory st' = 0
    ∧ finalized st = [2]
    ∧ drop_calls (host_calls st) = [4096].
Proof.
  intros events.
  destruct (run sample_globals calling_engine (mv8_interface_new 1) events) as [st|]
    eqn:Hrun; [|vm_compute in Hrun; discriminate].
  destruct (finalized_exactly_once sample_globals calling_engine (λ _, tt) 1 events st
              eq_refl calling_engine_ok Hrun)
    as ((st' & Hdrop & _ & _ & _ & Hlen & Honce & _ & _ & Hcalls & Hmem & _) & Hcollect
        & _).
  destruct (Hcollect (firstn 5 events) 4 [] eq_refl)
    as (st0 & st1 & a & cb & c & Hpre & Hs & Hpost & _ & _ & _ & _ & _ & _ & _ & Hhost
        & _ & Hfin & _).
  exists st, st'. split; [reflexivity|]. split; [exact Hdrop|].
  split; [exact Hlen|]. split; [exact Honce|]. split; [exact Hcalls|].
  split; [exact Hmem|].
  injection Hpost as <-.
  vm_compute in Hpre. injection Hpre as <-.
  vm_compute in Hs. injection Hs as <-. split; reflexivity.
Defined.

Example finalized_log :
  (st ← run sample_globals calling_engine (mv8_interface_new 1)
          [Register 4096 16; Register 8192 24;
           Inspect (Eval "f(1, f)" 7 None 0 0);
           Release 9;
           Operate (CoerceBoolean (reference_desc ValueDescTag.Function 3));
           Collect 4];
   st ← mv8_interface_drop sample_globals st;
   Some (registered st, finalized st, released st, created st, drop_calls (host_calls st),
         external_memory st))
  = Some ([5; 2], [5; 2], [7; 4; 3; 9; 8], [9; 8; 7; 6; 4; 3], [8192; 4096], 0).
Proof. vm_compute. reflexivity. Qed.

Lemma alloc_ok_create st fn fn_size :
  alloc_ok st → alloc_ok (mv8_function_create st fn fn_size).1.
Proof.
  intros Ha p [cell Hp]. rewrite create_persistents in Hp. rewrite create_next_alloc.
  rewrite lookup_insert in Hp. case_decide; [lia|].
  rewrite lookup_insert in Hp. case_decide; [lia|].
  specialize (Ha p ltac:(eauto)). lia.
Qed.

Lemma functions_registered_decide st :
  bool_decide (functions_registered st) = true → functions_registered st.
Proof. apply bool_decide_eq_true_1. Qed.

(** The host calls the registered function with 1 and its handle of
    the sample array; the closure returns the array it was handed. The
    cell of the operand, 17, and the cell handed back by the host, 21,
    are the ones released. *)
Lemma operands_released_once_witness :
  let op :=
    FunctionCall 19 desc_undefined
      [number_desc ValueDescTag.Number (double_of_int32 1);
       reference_desc ValueDescTag.Array 17] in
  ∃ st' r,
    perform sample_globals calling_engine registered_interface op = Some (st', r)
    ∧ released st' = [21; 17]
    ∧ created st' = [22; 21; 20; 19; 17; 16]
    ∧ persistents st' !! 17 = None
    ∧ balanced st'.
Proof.
  intros op.
  assert (Ha : alloc_ok registered_interface)
    by (apply alloc_ok_create, sample_interface_alloc_ok).
  destruct (operands_released_once sample_globals calling_engine registered_interface op Ha)
    as (Hrel & Hret & _).
  destruct Hret as [[st' r] H].
  - exact calling_engine_reports.
  - split; [|split].
    + intros p [= <-]. eexists. reflexivity.
    + vm_compute. repeat constructor; set_solver.
    + intros p Hp. vm_compute in Hp. apply list_elem_of_singleton in Hp as ->.
      eexists. reflexivity.
  - exact sample_globals_answers.
  - intros st1 values Hd. apply calling_engine_calls_live.
    vm_compute in Hd. injection Hd as <- _.
    apply functions_registered_decide. vm_compute. reflexivity.
  - destruct (Hrel st' r H) as (calls & _ & _ & _ & Hgone & _ & _ & Hbal).
    exists st', r. split; [exact H|].
    split; [vm_compute in H; injection H as <- _; reflexivity|].
    split; [vm_compute in H; injection H as <- _; reflexivity|].
    split.
    + apply (Hgone 17). vm_compute. apply list_elem_of_here.
    + apply Hbal. reflexivity.
Defined.

(** ** External memory *)

(** C7, as stated, fails: registering a closure of 16 bytes charges 48. *)
Lemma registration_charge_not_closure_size :
  let st := mv8_interface_new 1 in
  external_memory (mv8_function_create st 4096 16).1 - external_memory st = 48
  ∧ external_memory (mv8_function_create st 4096 16).1 - external_memory st ≠ 16.
Proof. split; [reflexivity|discriminate]. Qed.

(** C7, amended. Registering a native callback charges the external
    memory by the size of the registration record plus the closure's
    size, [sizeof(RustCallback) + func_size]; finalizing that callback,
    whenever it happens, debits the same amount; and registering and
    then finalizing leaves the amount where it was. *)
Theorem external_memory_balance (g : Globals) (drop : rust_callback_drop) (st : Interface)
    (fn fn_size : Z) :
  0 <= fn_size < 2 ^ 32 →
  - 2 ^ 63 <= external_memory st < 2 ^ 63 →
  main_callback_drop_func g = Some drop →
  let st1 := (mv8_function_create st fn fn_size).1 in
  let cb := next_alloc st in
  let charge := sizeof_RustCallback + fn_size in
  external_memory st1 = to_int64 (external_memory st + charge)
  ∧ (∃ c, callbacks st1 !! cb = Some c ∧ func_size c = fn_size)
  ∧ (∀ st2 c st3,
       callbacks st2 !! cb = Some c → func_size c = fn_size →
       callback_drop_inner g st2 cb = Some st3 →
       external_memory st3 = to_int64 (external_memory st2 - charge))
  ∧ (∃ st3, callback_drop_inner g st1 cb = Some st3
            ∧ external_memory st3 = external_memory st).
Proof.
  intros Hsize Hmem Hd st1 cb charge.
  assert (Hcharge : 0 <= charge < 2 ^ 63) by (subst charge; unfold sizeof_RustCallback; lia).
  assert (Hcredit : external_memory st1 = to_int64 (external_memory st + charge)).
  { subst st1. rewrite create_external_memory. fold charge.
    rewrite size_credit by assumption. reflexivity. }
  assert (Hdebit : ∀ st2 c st3,
            callbacks st2 !! cb = Some c → func_size c = fn_size →
            callback_drop_inner g st2 cb = Some st3 →
            external_memory st3 = to_int64 (external_memory st2 - charge)).
  { intros st2 c st3 Hc Hfs Hrun.
    rewrite (callback_drop_inner_debit g st2 cb c st3 Hc Hrun), Hfs. fold charge.
    rewrite size_debit by assumption. f_equal; lia. }
  assert (Hc : callbacks st1 !! cb
               = Some {| func := fn; func_size := fn_size; interface := self st;
                         value_ptr := cb + 2 |}).
  { subst st1. rewrite create_callbacks. apply lookup_insert_eq. }
  split; [assumption|]. split; [eauto|]. split; [assumption|].
  destruct (callback_drop_inner_state g st1 cb _ drop Hc) as (st3 & Hrun & _).
  { subst st1. rewrite create_persistents. simpl. rewrite lookup_insert_eq. eauto. }
  { assumption. }
  exists st3. split; [assumption|].
  rewrite (Hdebit st1 _ st3 Hc eq_refl Hrun), Hcredit.
  rewrite to_int64_add_sub. apply to_int64_small. assumption.
Qed.

Lemma external_memory_balance_witness :
  let st := mv8_interface_new 1 in
  external_memory (mv8_function_create st 4096 16).1 = 48
  ∧ ∃ st3, callback_drop_inner sample_globals (mv8_function_create st 4096 16).1 2
           = Some st3
           ∧ external_memory st3 = 0.
Proof.
  intros st.
  destruct (external_memory_balance sample_globals (λ _, tt) st 4096 16)
    as (Hcredit & _ & _ & Hpair).
  - lia.
  - simpl. lia.
  - reflexivity.
  - split; [exact Hcredit|exact Hpair].
Defined.

(** ** The trampoline *)

(** C6. A call of a registered function object runs the trampoline,
    and the trampoline does what [invoke_trampoline] says with the
    dispatcher that [mv8_init] installed: [this] and the arguments are
    encoded in call order, the dispatcher gets the closure pointer of
    the registration and those descs, and the decoded desc of its
    outcome is thrown if [is_exception] is not 0 and returned
    otherwise. Without a dispatcher installed the trampoline has no
    other way to reach the closure. *)
Theorem rust_callback_dispatches (wrapper : rust_callback_wrapper)
    (drop_func : option rust_callback_drop) (st : Interface) (callee this : Value)
    (args : list Value) (ext : Z) (callback : RustCallback) :
  FunctionCallbackInfo_Data st callee = Some ext →
  callbacks st !! ext = Some callback →
  rust_callback (mv8_init (Some wrapper) drop_func) st callee this args
  = invoke_trampoline wrapper st callback this args
  ∧ rust_callback (mv8_init None drop_func) st callee this args = None
  ∧ encoded_in_order (value_to_desc st this).1 args
      (encode_values (value_to_desc st this).1 args).1
      (encode_values (value_to_desc st this).1 args).2.
Proof.
  intros Hdata Hcb. split; [|split].
  - eapply rust_callback_invoke; eassumption.
  - unfold rust_callback. rewrite Hdata; cbn. rewrite Hcb; cbn.
    destruct (value_to_desc st this) as [st1 this_desc].
    destruct (encode_args _ _ _ _ _). reflexivity.
  - apply encode_values_in_order.
Qed.

(** Before [mv8_init] there is no dispatcher to call. *)
Example rust_callback_before_init :
  rust_callback globals_at_start registered_interface (JsObject 3) JsUndefined [] = None.
Proof. reflexivity. Qed.

(** The callback round trip: a closure that returns its second
    argument, called with 1 and the sample array. *)
Lemma rust_callback_dispatches_witness :
  let wrapper : rust_callback_wrapper :=
    λ _ _ _ arg_descs _,
      {| value_desc := default desc_undefined (arg_descs !! 1%nat); is_exception := 0 |} in
  ∃ st',
    rust_callback (mv8_init (Some wrapper) None) registered_interface (JsObject 3)
      JsUndefined [JsNumber (double_of_int32 1); JsObject 1]
    = Some (st', ReturnValue_Set (JsObject 1))
    ∧ host_calls st'
      = [WrapperCall 1 4096 desc_undefined
           [number_desc ValueDescTag.Number (double_of_int32 1);
            reference_desc ValueDescTag.Array 21]].
Proof.
  intros wrapper.
  destruct (rust_callback_dispatches wrapper None registered_interface (JsObject 3)
              JsUndefined [JsNumber (double_of_int32 1); JsObject 1] 18
              {| func := 4096; func_size := 16; interface := 1; value_ptr := 20 |}
              eq_refl eq_refl) as (-> & _ & _).
  eexists. split; reflexivity.
Defined.

(** * Further properties of the bridge *)

(** ** Handles *)

Lemma reference_tag_cases t :
  is_reference_tag t = true →
  (t =? ValueDescTag.Null) = false ∧ (t =? ValueDescTag.Number) = false
  ∧ (t =? ValueDescTag.Boolean) = false ∧ (t =? ValueDescTag.Date) = false.
Proof.
  unfold is_reference_tag. intros H.
  repeat (apply orb_true_iff in H as [H|H]); apply Z.eqb_eq in H; subst t;
    repeat split; reflexivity.
Qed.

Lemma desc_to_value_reference st desc :
  is_reference_tag (tag desc) = true →
  desc_to_value st desc
  = (local ← Persistent_get st (payload desc);
     st' ← Persistent_delete st (payload desc);
     Some (st', local)).
Proof.
  intros Ht. destruct (reference_tag_cases _ Ht) as (H1 & H2 & H3 & H4).
  unfold desc_to_value. rewrite H1, H2, H3, H4, Ht. reflexivity.
Qed.

(** X1. A desc of a reference variant is good for one decoding: the
    decoding hands out the value its cell refers to and deletes the
    cell, after which decoding the same desc again, dropping its cell
    or cloning it is a use of a deleted cell. *)
Theorem desc_to_value_single_use (st : Interface) (desc : ValueDesc) (st' : Interface)
    (value : Value) :
  is_reference_tag (tag desc) = true →
  desc_to_value st desc = Some (st', value) →
  Persistent_get st (payload desc) = Some value
  ∧ persistents st' = delete (payload desc) (persistents st)
  ∧ released st' = payload desc :: released st
  ∧ desc_to_value st' desc = None
  ∧ mv8_value_ptr_drop st' (payload desc) = None
  ∧ mv8_value_ptr_clone st' (payload desc) = None.
Proof.
  intros Ht H. rewrite (desc_to_value_reference st desc Ht) in H.
  rewrite (desc_to_value_reference st' desc Ht).
  unfold mv8_value_ptr_drop, mv8_value_ptr_clone, Persistent_get, Persistent_delete in *.
  destruct (persistents st !! payload desc) as [cell|] eqn:Hcell; cbn in H; [|discriminate].
  injection H as <- <-. cbn. rewrite lookup_delete_eq. cbn.
  repeat split; reflexivity.
Qed.

Lemma desc_to_value_single_use_witness :
  let desc := reference_desc ValueDescTag.Array 17 in
  ∃ st', desc_to_value sample_interface desc = Some (st', JsObject 1)
         ∧ desc_to_value st' desc = None
         ∧ mv8_value_ptr_drop st' 17 = None.
Proof.
  intros desc. eexists. split; [reflexivity|].
  destruct (desc_to_value_single_use sample_interface desc _ (JsObject 1) eq_refl eq_refl)
    as (_ & _ & _ & Hd & Hdrop & _).
  split; [exact Hd|exact Hdrop].
Defined.

Lemma alloc_ok_free st : alloc_ok st → persistents st !! next_alloc st = None.
Proof.
  intros Ha. destruct (persistents st !! next_alloc st) eqn:Hp; [|reflexivity].
  specialize (Ha (next_alloc st) ltac:(eauto)). lia.
Qed.

(** X2. Cloning a handle makes a second, strong cell at a new address
    that refers to the same value; the two cells are independent:
    dropping the clone gives back the cells there were before, and
    dropping the original leaves the clone referring to the value. *)
Theorem mv8_value_ptr_clone_independent (st : Interface) (value_ptr : Z)
    (st1 : Interface) (clone : Z) :
  alloc_ok st →
  mv8_value_ptr_clone st value_ptr = Some (st1, clone) →
  ∃ value,
    Persistent_get st value_ptr = Some value
    ∧ clone ≠ value_ptr
    ∧ persistents st !! clone = None
    ∧ persistents st1 = <[clone := strong_cell value]> (persistents st)
    ∧ released st1 = released st
    ∧ (∃ st2, mv8_value_ptr_drop st1 clone = Some st2
              ∧ persistents st2 = persistents st)
    ∧ (∃ st2, mv8_value_ptr_drop st1 value_ptr = Some st2
              ∧ Persistent_get st2 clone = Some value
              ∧ Persistent_get st2 value_ptr = None).
Proof.
  intros Ha H. unfold mv8_value_ptr_clone, Persistent_get in H.
  destruct (persistents st !! value_ptr) as [cell|] eqn:Hcell; cbn in H; [|discriminate].
  injection H as <- <-. exists (referent cell).
  pose proof (alloc_ok_free st Ha) as Hfree.
  assert (Hne : next_alloc st ≠ value_ptr) by congruence.
  unfold mv8_value_ptr_drop, Persistent_delete, Persistent_get, Persistent_new; cbn.
  rewrite Hcell, lookup_insert_eq, lookup_insert_ne, Hcell by assumption. cbn.
  split; [reflexivity|]. split; [assumption|]. split; [assumption|].
  split; [reflexivity|]. split; [reflexivity|]. split.
  - eexists. split; [reflexivity|]. cbn.
    rewrite delete_insert_eq. apply delete_id. assumption.
  - eexists. split; [reflexivity|]. cbn.
    rewrite lookup_delete_ne, lookup_insert_eq, lookup_delete_eq by congruence.
    split; reflexivity.
Qed.

Lemma mv8_value_ptr_clone_independent_witness :
  ∃ st1 st2,
    mv8_value_ptr_clone sample_interface 17 = Some (st1, 18)
    ∧ mv8_value_ptr_drop st1 17 = Some st2
    ∧ Persistent_get st2 18 = Some (JsObject 1).
Proof.
  destruct (mv8_value_ptr_clone sample_interface 17) as [[st1 clone]|] eqn:Hc;
    [|discriminate].
  destruct (mv8_value_ptr_clone_independent sample_interface 17 st1 clone
              sample_interface_alloc_ok Hc)
    as (value & Hv & _ & _ & _ & _ & _ & st2 & Hd & Hg & _).
  injection Hv as <-. injection Hc as <- <-.
  exists (Persistent_new sample_interface (JsObject 1)).1, st2.
  split; [reflexivity|]. split; [exact Hd|exact Hg].
Defined.

(** ** Encoding and decoding, handle by handle *)

(** Decoding the desc of a cell that was just made. *)
Lemma desc_to_value_fresh st st1 p value t :
  is_reference_tag t = true →
  alloc_ok st →
  fresh_handle st st1 p value →
  ∃ st', desc_to_value st1 (reference_desc t p) = Some (st', value)
    ∧ persistents st' = persistents st
    ∧ created st' = p :: created st
    ∧ released st' = p :: released st
    ∧ heap st' = heap st
    ∧ callbacks st' = callbacks st
    ∧ external_memory st' = external_memory st.
Proof.
  intros Ht Ha (-> & Hp & Hc & Hr & Hh & Hcb & Hm).
  rewrite desc_to_value_reference by exact Ht.
  unfold Persistent_get, Persistent_delete; cbn.
  rewrite Hp, lookup_insert_eq; cbn.
  eexists. split; [reflexivity|]. cbn.
  rewrite delete_insert_eq, Hr.
  split; [apply delete_id, alloc_ok_free, Ha|]. auto.
Qed.

(** X3. Encoding a value and decoding the desc leaves no cell behind:
    the live cells afterwards are the live cells before, the one cell
    that a reference variant needs is made and released in between,
    and nothing but the heap of a date (decoded as a new Date object)
    changes otherwise. *)
Theorem decode_encode_neutral (st : Interface) (value : Value) :
  alloc_ok st →
  ∃ st' value',
    decode_encode st value = Some (st', value')
    ∧ persistents st' = persistents st
    ∧ callbacks st' = callbacks st
    ∧ external_memory st' = external_memory st
    ∧ ((created st' = created st ∧ released st' = released st)
       ∨ (created st' = next_alloc st :: created st
          ∧ released st' = next_alloc st :: released st))
    ∧ (IsDate st value = false → heap st' = heap st).
Proof.
  intros Ha. unfold decode_encode.
  destruct (value_to_desc_encodes st value) as (st1 & desc & Hv & Henc). rewrite Hv.
  assert (Hprim : ∀ d, st1 = st →
            desc_to_value st d = Some (st, value) ∨ desc_to_value st d = Some (st, JsUndefined) →
            desc = d →
            ∃ st' value',
              desc_to_value st1 desc = Some (st', value')
              ∧ persistents st' = persistents st
              ∧ callbacks st' = callbacks st
              ∧ external_memory st' = external_memory st
              ∧ ((created st' = created st ∧ released st' = released st)
                 ∨ (created st' = next_alloc st :: created st
                    ∧ released st' = next_alloc st :: released st))
              ∧ (IsDate st value = false → heap st' = heap st)).
  { intros d -> Hd ->. destruct Hd as [Hd|Hd]; rewrite Hd; eexists _, _;
      (split; [reflexivity|]); auto 10. }
  assert (Href : ∀ t p, is_reference_tag t = true →
            fresh_handle st st1 p value → desc = reference_desc t p →
            ∃ st' value',
              desc_to_value st1 desc = Some (st', value')
              ∧ persistents st' = persistents st
              ∧ callbacks st' = callbacks st
              ∧ external_memory st' = external_memory st
              ∧ ((created st' = created st ∧ released st' = released st)
                 ∨ (created st' = next_alloc st :: created st
                    ∧ released st' = next_alloc st :: released st))
              ∧ (IsDate st value = false → heap st' = heap st)).
  { intros t p Ht Hf ->.
    destruct (desc_to_value_fresh st st1 p value t Ht Ha Hf)
      as (st' & Hd & Hp & Hc & Hr & Hh & Hcb & Hm).
    destruct Hf as (-> & _).
    exists st', value. rewrite Hd. auto 10. }
  destruct value as [| | | |d|s|id|n|a]; simpl in Henc.
  1-5,7-8: destruct Henc as [Hst Hdesc]; eapply Hprim; [exact Hst| |exact Hdesc];
    try (left; reflexivity); try (right; reflexivity).
  - destruct Henc as (p & Hf & Hdesc). eapply Href; [|exact Hf|exact Hdesc]. reflexivity.
  - destruct (heap st !! a) as [[[ | |data|t|m] priv props proto]|] eqn:Hobj; simpl in Henc.
    1-3,5-6: destruct Henc as (p & Hf & Hdesc);
      (eapply Href; [|exact Hf|exact Hdesc]); reflexivity.
    destruct Henc as [-> ->].
    eexists _, _. split; [reflexivity|]. cbn.
    split; [reflexivity|]. split; [reflexivity|]. split; [reflexivity|].
    split; [left; split; reflexivity|].
    unfold IsDate, object_class. rewrite Hobj. cbn. discriminate.
Qed.

(** The sample array: cell 18 is made for its desc and released by the
    decoding. *)
Lemma decode_encode_neutral_witness :
  ∃ st', decode_encode sample_interface (JsObject 1) = Some (st', JsObject 1)
         ∧ persistents st' = persistents sample_interface
         ∧ created st' = 18 :: created sample_interface
         ∧ released st' = [18].
Proof.
  destruct (decode_encode_neutral sample_interface (JsObject 1) sample_interface_alloc_ok)
    as (st' & value' & Hd & Hp & _).
  exists st'. injection Hd as <- <-. split; [reflexivity|]. split; [exact Hp|].
  split; reflexivity.
Defined.

Lemma normal_form_idempotent desc : normal_form (normal_form desc) = normal_form desc.
Proof.
  unfold normal_form.
  destruct (tag desc =? ValueDescTag.Null); [reflexivity|].
  destruct (tag desc =? ValueDescTag.Number); [reflexivity|].
  destruct (tag desc =? ValueDescTag.Boolean).
  { simpl. destruct (payload_byte (payload desc) =? 0); reflexivity. }
  destruct (tag desc =? ValueDescTag.Date); reflexivity.
Qed.

(** X4. A desc without a cell whose double, if it carries one, is
    stored by V8 as it is given (a Number that is no NaN, a Date of a
    time value: a whole number of milliseconds within 8.64e15 of the
    epoch), decoded and encoded again, comes back in normal form, and
    a desc in normal form comes back as it is: the tag and the double
    of such a Number (also one that takes the int32 branch) and of
    such a Date are kept, the byte of a Boolean becomes 0 or 1, Null
    stays Null, and Undefined and every tag that is not a variant
    become Undefined. No cell is made or released on the way. (Of a
    NaN and of a Date that is no time value nothing is said: V8 makes
    the quiet NaN of the one and clips the other.) *)
Theorem value_to_desc_normal_form (st : Interface) (desc : ValueDesc) :
  is_reference_tag (tag desc) = false →
  stored_as_given desc = true →
  ∃ st1 value st2,
    desc_to_value st desc = Some (st1, value)
    ∧ value_to_desc st1 value = (st2, normal_form desc)
    ∧ persistents st2 = persistents st
    ∧ created st2 = created st
    ∧ released st2 = released st
    ∧ normal_form (normal_form desc) = normal_form desc.
Proof.
  intros Ht _. unfold desc_to_value, normal_form at 1. rewrite Ht.
  destruct (tag desc =? ValueDescTag.Null).
  { eexists _, _, _. split; [reflexivity|]. split; [reflexivity|].
    auto using normal_form_idempotent. }
  destruct (tag desc =? ValueDescTag.Number).
  { exists st, (JsNumber (payload desc)), st. split; [reflexivity|]. split.
    - unfold value_to_desc; simpl.
      destruct (dbl_is_int32 (payload desc)) eqn:Hint; [|reflexivity].
      unfold with_number, number_desc; simpl.
      rewrite (double_of_int32_integer _ Hint). reflexivity.
    - auto using normal_form_idempotent. }
  destruct (tag desc =? ValueDescTag.Boolean).
  { destruct (payload_byte (payload desc) =? 0);
      eexists _, _, _; (split; [reflexivity|]); (split; [reflexivity|]);
      auto using normal_form_idempotent. }
  destruct (tag desc =? ValueDescTag.Date).
  { unfold Date_New, heap_alloc, payload_number.
    eexists _, _, _. split; [reflexivity|]. split.
    - unfold value_to_desc, IsDate, Date_ValueOf, object_class; simpl.
      rewrite lookup_insert_eq. reflexivity.
    - auto using normal_form_idempotent. }
  eexists _, _, _. split; [reflexivity|]. split; [reflexivity|].
  auto using normal_form_idempotent.
Qed.

(** A Boolean desc with the byte 2, the Number -7, and the Date of
    the epoch. *)
Lemma value_to_desc_normal_form_witness :
  (∃ st1 value st2,
     desc_to_value sample_interface {| payload := 2; tag := ValueDescTag.Boolean |}
     = Some (st1, value)
     ∧ value_to_desc st1 value = (st2, {| payload := 1; tag := ValueDescTag.Boolean |}))
  ∧ (∃ st1 value st2,
       desc_to_value sample_interface
         (number_desc ValueDescTag.Number (double_of_int32 (-7))) = Some (st1, value)
       ∧ value_to_desc st1 value
         = (st2, number_desc ValueDescTag.Number (double_of_int32 (-7))))
  ∧ (∃ st1 value st2,
       desc_to_value sample_interface (number_desc ValueDescTag.Date 0) = Some (st1, value)
       ∧ value_to_desc st1 value = (st2, number_desc ValueDescTag.Date 0)).
Proof.
  split; [|split].
  - destruct (value_to_desc_normal_form sample_interface
                {| payload := 2; tag := ValueDescTag.Boolean |} eq_refl eq_refl)
      as (st1 & value & st2 & Hd & Hv & _).
    exists st1, value, st2. split; [exact Hd|exact Hv].
  - destruct (value_to_desc_normal_form sample_interface
                (number_desc ValueDescTag.Number (double_of_int32 (-7))) eq_refl eq_refl)
      as (st1 & value & st2 & Hd & Hv & _).
    exists st1, value, st2. split; [exact Hd|exact Hv].
  - destruct (value_to_desc_normal_form sample_interface
                (number_desc ValueDescTag.Date 0) eq_refl eq_refl)
      as (st1 & value & st2 & Hd & Hv & _).
    exists st1, value, st2. split; [exact Hd|exact Hv].
Defined.

(** ** What operations hand back *)

(** ** What operations hand back *)

(** The cells after a stretch of the bridge's code that ends with the
    desc it returns: the cell of that desc is made last, and is strong
    and live; a cell made before it is live and strong unless it was
    released since; the other cells are as they were unless they were
    released. *)
Lemma ledger_finish_cells st made gone calls st2 st' desc :
  alloc_ok st →
  ledger st made gone calls st2 →
  finish_phase st2 st' desc →
  created st' = desc_handle desc ++ made ++ created st
  ∧ released st' = gone ++ released st
  ∧ host_calls st' = calls ++ host_calls st
  ∧ NoDup (desc_handle desc ++ made)
  ∧ NoDup gone
  ∧ (∀ p, p ∈ desc_handle desc ++ made →
       next_alloc st <= p ∧ persistents st !! p = None)
  ∧ (∀ p, p ∈ desc_handle desc → ∃ value, persistents st' !! p = Some (strong_cell value))
  ∧ (∀ p, p ∈ made → p ∉ gone → ∃ value, persistents st' !! p = Some (strong_cell value))
  ∧ (∀ p, p ∈ gone → persistents st' !! p = None)
  ∧ (∀ q, q ∉ desc_handle desc → q ∉ made → q ∉ gone →
       persistents st' !! q = persistents st !! q)
  ∧ alloc_ok st'.
Proof.
  intros Ha L12 Hf. pose proof (ledger_finish _ _ _ Hf) as L3.
  destruct (ledger_sound _ _ _ _ _ L12 Ha) as (Ha2 & _ & _ & _ & _ & Hgone2 & _).
  destruct (ledger_sound _ _ _ _ _ L3 Ha2) as (_ & _ & _ & _ & Hmade3 & _).
  pose proof (ledger_seq _ _ _ _ _ _ _ _ _ L12 L3) as L. simpl in L.
  destruct (ledger_logs _ _ _ _ _ L) as (Hc & Hr & Hh & _ & _ & _ & _ & _ & Hrest).
  destruct (ledger_sound _ _ _ _ _ L Ha)
    as (Ha' & _ & Hnd & Hndm & Hmade & Hgone & Hstrong).
  split; [rewrite Hc, app_assoc; reflexivity|]. split; [exact Hr|].
  split; [exact Hh|]. split; [exact Hndm|]. split; [exact Hnd|].
  split.
  { intros p Hp. destruct (Hmade p Hp) as [Hlo _]. split; [exact Hlo|].
    destruct (persistents st !! p) eqn:Hcell; [|reflexivity].
    specialize (Ha p ltac:(eauto)). lia. }
  split.
  { intros p Hp. apply Hstrong; [apply elem_of_app; auto|].
    intros Hin. destruct (Hgone2 p Hin) as (_ & Hlt & _).
    destruct (Hmade3 p Hp). lia. }
  split; [intros p Hp Hn; apply Hstrong; [apply elem_of_app; auto|exact Hn]|].
  split; [intros p Hp; apply (Hgone p Hp)|].
  split; [|exact Ha'].
  intros q H1 H2 H3. rewrite Hrest by (rewrite elem_of_app; tauto).
  apply decide_False. exact H3.
Qed.

(** X5. What each of the ten operations that take descs hands back:
    the flag of an outcome is 0 or 1 (and a boolean coercion gives the
    byte 0 or 1). The cells made during the operation are the cells
    handed to the host in the calls that script made of registered
    functions and, made last, the cell of the desc returned, value or
    exception, if it carries one: all at addresses that were not live
    before, no two the same. The cell of the desc returned is strong
    and live; a cell handed to the host is strong and live unless the
    host handed it back, which released it. Every cell that is none of
    these, no operand's and not handed back by the host, the receiver
    among them, is as it was. When script called no registered
    function the one cell made is that of the desc returned. *)
Theorem perform_hands_over_once (g : Globals) (E : Engine) (st : Interface)
    (op : Operation) (st' : Interface) (r : TryCatchDesc + Z) :
  alloc_ok st →
  perform g E st op = Some (st', r) →
  match r with
  | inl r => is_exception r = 0 ∨ is_exception r = 1
  | inr b => b = 0 ∨ b = 1
  end
  ∧ ∃ calls,
      host_calls st' = calls ++ host_calls st
      ∧ created st' = desc_handle (returned_desc r) ++ handed_out calls ++ created st
      ∧ NoDup (desc_handle (returned_desc r) ++ handed_out calls)
      ∧ (∀ p, p ∈ desc_handle (returned_desc r) ++ handed_out calls →
           next_alloc st <= p ∧ persistents st !! p = None)
      ∧ (∀ p, p ∈ desc_handle (returned_desc r) →
           ∃ value, persistents st' !! p = Some (strong_cell value))
      ∧ (∀ p, p ∈ handed_out calls →
           if decide (p ∈ handed_back g calls) then persistents st' !! p = None
           else ∃ value, persistents st' !! p = Some (strong_cell value))
      ∧ (∀ q, q ∉ desc_handles (operands op) → q ∉ desc_handle (returned_desc r) →
           q ∉ handed_out calls → q ∉ handed_back g calls →
           persistents st' !! q = persistents st !! q)
      ∧ (calls = [] → created st' = desc_handle (returned_desc r) ++ created st).
Proof.
  intros Ha H.
  apply perform_phases in H as (st1 & values & st2 & Hd & Hp & Hf & Hflag).
  split; [exact Hflag|].
  pose proof (decode_values_consumed _ _ _ _ Hd) as Hcons.
  apply ledger_decode_values in Hd.
  destruct (ledger_phase _ _ _ _ Hp) as (calls & L & _).
  pose proof (ledger_seq _ _ _ _ _ _ _ _ _ Hd L) as L12.
  rewrite !app_nil_r in L12.
  destruct (ledger_finish_cells _ _ _ _ _ _ _ Ha L12 Hf)
    as (Hc & _ & Hh & Hnd & _ & Hnew & Hret & Hout & Hgone & Hrest & _).
  exists calls. split; [exact Hh|]. split; [exact Hc|]. split; [exact Hnd|].
  split; [exact Hnew|]. split; [exact Hret|]. split; [|split].
  - intros p Hp'. case_decide as Hb.
    + apply Hgone. apply elem_of_app. auto.
    + apply Hout; [exact Hp'|]. intros Hin. apply elem_of_app in Hin as [Hin|Hin];
        [exact (Hb Hin)|].
      rewrite elem_of_rev in Hin.
      destruct (Hnew p ltac:(apply elem_of_app; auto)) as [_ Hnone].
      destruct (consumed_live _ _ _ Hcons p Hin) as [cell Hcell]. congruence.
  - intros q H1 H2 H3 H4. apply Hrest; [exact H2|exact H3|].
    intros Hin. apply elem_of_app in Hin as [Hin|Hin]; [exact (H4 Hin)|].
    rewrite elem_of_rev in Hin. exact (H1 Hin).
  - intros ->. rewrite Hc. reflexivity.
Qed.

(** Constructing from the registered function with 1 and the host's
    handle of the sample array, the closure returning the array it was
    handed: the cell 17 of the operand is consumed, the cell 21 is
    handed to the host and back, the cell 22 is made for the object
    returned, and the function's cell 19 stays. *)
Lemma perform_hands_over_once_witness :
  let op :=
    FunctionCallNew 19
      [number_desc ValueDescTag.Number (double_of_int32 1);
       reference_desc ValueDescTag.Array 17] in
  ∃ st' r,
    perform sample_globals calling_engine registered_interface op = Some (st', inl r)
    ∧ value_desc r = reference_desc ValueDescTag.Object 22
    ∧ created st' = [22; 21] ++ created registered_interface
    ∧ persistents st' !! 22 = Some (strong_cell (JsObject 1))
    ∧ persistents st' !! 21 = None
    ∧ persistents st' !! 19 = persistents registered_interface !! 19.
Proof.
  intros op.
  destruct (perform sample_globals calling_engine registered_interface op)
    as [[st' r]|] eqn:Hp; [|vm_compute in Hp; discriminate].
  assert (Ha : alloc_ok registered_interface)
    by (apply alloc_ok_create, sample_interface_alloc_ok).
  destruct (perform_hands_over_once sample_globals calling_engine registered_interface op
              st' r Ha Hp)
    as (_ & calls & Hh & Hc & _ & _ & _ & Hout & Hrest & _).
  assert (Hcalls : calls
            = [WrapperCall 1 4096 desc_undefined
                 [number_desc ValueDescTag.Number (double_of_int32 1);
                  reference_desc ValueDescTag.Array 21]]).
  { vm_compute in Hp. injection Hp as <- _. simpl in Hh.
    rewrite app_nil_r in Hh. symmetry. exact Hh. }
  subst calls.
  specialize (Hout 21 ltac:(vm_compute; apply list_elem_of_here)).
  rewrite decide_True in Hout by (vm_compute; apply list_elem_of_here).
  specialize (Hrest 19).
  vm_compute in Hp. injection Hp as <- <-.
  eexists _, _. split; [reflexivity|]. split; [reflexivity|].
  split; [exact Hc|]. split; [reflexivity|]. split; [exact Hout|].
  apply Hrest; vm_compute; intros Hin;
    repeat (apply elem_of_cons in Hin as [Hin|Hin]; [discriminate Hin|]);
    inversion Hin.
Defined.

Lemma alloc_ok_new self : alloc_ok (mv8_interface_new self).
Proof. intros p [cell Hp]. simpl in Hp. rewrite lookup_empty in Hp. discriminate. Qed.

(** X6. Evaluation, reading an array element and listing an object's
    keys take no desc and consume none: the flag of the outcome is 0
    or 1; the cells released during them are the cells that the host
    handed back from the calls that script made of registered
    functions, and the cells made are the cells handed to the host in
    those calls and, made last, the cell of the desc returned, which is
    new, strong and live; every cell that was live and that the host
    did not hand back stays as it was, the receiver's too. When script
    called no registered function nothing is released and the one cell
    made is that of the desc returned. *)
Theorem inspect_borrows (g : Globals) (E : Engine) (st : Interface) (q : Inspection)
    (st' : Interface) (r : TryCatchDesc) :
  alloc_ok st →
  inspect g E st q = Some (st', r) →
  (is_exception r = 0 ∨ is_exception r = 1)
  ∧ ∃ calls,
      host_calls st' = calls ++ host_calls st
      ∧ released st' = handed_back g calls ++ released st
      ∧ created st' = desc_handle (value_desc r) ++ handed_out calls ++ created st
      ∧ (∀ p cell, persistents st !! p = Some cell → p ∉ handed_back g calls →
           persistents st' !! p = Some cell)
      ∧ (∀ p, p ∈ desc_handle (value_desc r) →
           persistents st !! p = None
           ∧ ∃ value, persistents st' !! p = Some (strong_cell value))
      ∧ (calls = [] →
           released st' = released st
           ∧ created st' = desc_handle (value_desc r) ++ created st
           ∧ ∀ p cell, persistents st !! p = Some cell →
               persistents st' !! p = Some cell).
Proof.
  intros Ha H. apply inspect_phases in H as (st2 & Hp & Hf & Hflag).
  split; [exact Hflag|].
  destruct (ledger_phase _ _ _ _ Hp) as (calls & L & _).
  destruct (ledger_finish_cells _ _ _ _ _ _ _ Ha L Hf)
    as (Hc & Hr & Hh & _ & _ & Hnew & Hret & _ & _ & Hrest & _).
  assert (Hkeep : ∀ p cell, persistents st !! p = Some cell → p ∉ handed_back g calls →
            persistents st' !! p = Some cell).
  { intros p cell Hcell Hb. rewrite Hrest; [exact Hcell| | |exact Hb].
    - intros Hin. destruct (Hnew p ltac:(apply elem_of_app; auto)). congruence.
    - intros Hin. destruct (Hnew p ltac:(apply elem_of_app; auto)). congruence. }
  exists calls. split; [exact Hh|]. split; [exact Hr|]. split; [exact Hc|].
  split; [exact Hkeep|]. split.
  - intros p Hin. split; [|apply Hret; exact Hin].
    apply (Hnew p). apply elem_of_app. auto.
  - intros ->. split; [exact Hr|]. split; [exact Hc|].
    intros p cell Hcell. apply (Hkeep p cell Hcell). intros Hin. inversion Hin.
Qed.

(** Evaluating script that calls the registered function with itself
    as an argument: the cell 5 is handed to the host and back, the
    cell 6 is made for the function returned; the host's own handle of
    the function, 3, is still there. *)
Lemma inspect_borrows_witness :
  let st := (mv8_function_create (mv8_interface_new 1) 4096 16).1 in
  ∃ st' r,
    inspect sample_globals calling_engine st (Eval "f(1, f)" 7 None 0 0) = Some (st', r)
    ∧ value_desc r = reference_desc ValueDescTag.Function 6
    ∧ released st' = [5]
    ∧ created st' = [6; 5; 4; 3]
    ∧ persistents st' !! 3 = Some (strong_cell (JsObject 0)).
Proof.
  intros st.
  destruct (inspect sample_globals calling_engine st (Eval "f(1, f)" 7 None 0 0))
    as [[st' r]|] eqn:Hq; [|vm_compute in Hq; discriminate].
  assert (Ha : alloc_ok st) by (apply alloc_ok_create, alloc_ok_new).
  destruct (inspect_borrows sample_globals calling_engine st _ st' r Ha Hq)
    as (_ & calls & Hh & Hr & Hc & Hkeep & _).
  assert (Hcalls : calls
            = [WrapperCall 1 4096 desc_undefined
                 [number_desc ValueDescTag.Number (double_of_int32 1);
                  reference_desc ValueDescTag.Function 5]]).
  { vm_compute in Hq. injection Hq as <- _. simpl in Hh.
    rewrite app_nil_r in Hh. symmetry. exact Hh. }
  subst calls.
  specialize (Hkeep 3 (strong_cell (JsObject 0)) eq_refl).
  vm_compute in Hq. injection Hq as <- <-.
  eexists _, _. split; [reflexivity|]. split; [reflexivity|].
  split; [exact Hr|]. split; [exact Hc|].
  apply Hkeep. vm_compute. intros Hin.
  apply list_elem_of_singleton in Hin. discriminate Hin.
Defined.

(** ** Argument arrays *)

(** X7. [decode_arg_array], the loop of [mv8_function_call] and
    [mv8_function_call_new], decodes exactly the first [arg_descs_len]
    descs, in index order, and gives as many values: a negative length
    gives nothing, a length beyond the descs runs off their end, a
    length of 0 touches nothing, and with a length short of the descs
    the cells of the descs beyond it are not released. *)
Theorem decode_arg_array_prefix (st : Interface) (arg_descs : list ValueDesc)
    (arg_descs_len : Z) :
  (arg_descs_len < 0 → decode_arg_array st arg_descs arg_descs_len = None)
  ∧ (Z.of_nat (length arg_descs) < arg_descs_len →
       decode_arg_array st arg_descs arg_descs_len = None)
  ∧ decode_arg_array st arg_descs 0 = Some (st, [])
  ∧ (∀ st' args,
       decode_arg_array st arg_descs arg_descs_len = Some (st', args) →
       0 <= arg_descs_len <= Z.of_nat (length arg_descs)
       ∧ Z.of_nat (length args) = arg_descs_len
       ∧ decode_values st (take (Z.to_nat arg_descs_len) arg_descs) = Some (st', args)
       ∧ consumed st st' (desc_handles (take (Z.to_nat arg_descs_len) arg_descs))).
Proof.
  unfold decode_arg_array. split; [|split; [|split]].
  - intros H. destruct (Z.ltb_spec arg_descs_len 0); [reflexivity|lia].
  - intros H. destruct (Z.ltb_spec arg_descs_len 0); [reflexivity|].
    apply decode_args_short. lia.
  - reflexivity.
  - intros st' args H.
    destruct (Z.ltb_spec arg_descs_len 0) as [|Hpos]; [discriminate|].
    destruct (decide (Z.to_nat arg_descs_len ≤ length arg_descs)%nat) as [Hlen|Hlen].
    + pose proof (decode_args_consumed _ _ _ _ _ _ _ H) as Hc. rewrite drop_0 in Hc.
      pose proof (decode_args_values _ 0%nat st arg_descs [] eq_refl Hlen) as Hv.
      simpl in Hv. rewrite Hv, drop_0 in H. clear Hv.
      destruct (decode_values st (take (Z.to_nat arg_descs_len) arg_descs))
        as [[st2 vs]|] eqn:Hd; simpl in H; [|discriminate].
      injection H as <- <-. apply decode_values_length in Hd as Hl.
      rewrite length_take in Hl.
      split; [lia|]. split; [lia|]. split; [reflexivity|exact Hc].
    + rewrite decode_args_short in H by lia. discriminate.
Qed.

(** Two descs and a length of 1: the first cell is released, the second
    is not; a length of 3 runs off the end. *)
Lemma decode_arg_array_prefix_witness :
  let arg_descs := [reference_desc ValueDescTag.Array 17;
                    reference_desc ValueDescTag.Object 16] in
  (∃ st', decode_arg_array sample_interface arg_descs 1 = Some (st', [JsObject 1])
          ∧ released st' = [17]
          ∧ is_Some (persistents st' !! 16))
  ∧ decode_arg_array sample_interface arg_descs 3 = None.
Proof.
  intros arg_descs. split.
  - destruct (decode_arg_array_prefix sample_interface arg_descs 1) as (_ & _ & _ & Hpre).
    destruct (decode_arg_array sample_interface arg_descs 1) as [[st' args]|] eqn:Hd;
      [|discriminate].
    destruct (Hpre st' args eq_refl) as (_ & _ & _ & Hc).
    injection Hd as <- <-. eexists. split; [reflexivity|].
    split; [exact (consumed_released _ _ _ Hc)|].
    rewrite (consumed_persistents _ _ _ Hc).
    change (desc_handles (take (Z.to_nat 1) arg_descs)) with [17].
    rewrite decide_False by (rewrite list_elem_of_singleton; discriminate).
    eexists; reflexivity.
  - destruct (decode_arg_array_prefix sample_interface arg_descs 3) as (_ & Hlong & _).
    apply Hlong. simpl. lia.
Defined.

(** Encoding makes cells at the next addresses and nowhere else. *)
Lemma value_to_desc_alloc st value :
  let st' := (value_to_desc st value).1 in
  heap st' = heap st
  ∧ next_alloc st <= next_alloc st'
  ∧ (∀ q, q < next_alloc st → persistents st' !! q = persistents st !! q)
  ∧ (alloc_ok st → alloc_ok st').
Proof.
  cbn zeta. destruct (value_to_desc_cases st value) as [-> | ->].
  - split; [reflexivity|]. split; [lia|]. auto.
  - unfold Persistent_new; cbn. split; [reflexivity|]. split; [lia|]. split.
    + intros q Hq. apply lookup_insert_ne. lia.
    + intros Ha p [cell Hp]. cbn in *. rewrite lookup_insert in Hp.
      case_decide; [lia|]. specialize (Ha p ltac:(eauto)). lia.
Qed.

Lemma encode_values_alloc values : ∀ st,
  let st' := (encode_values st values).1 in
  heap st' = heap st
  ∧ next_alloc st <= next_alloc st'
  ∧ (∀ q, q < next_alloc st → persistents st' !! q = persistents st !! q)
  ∧ (alloc_ok st → alloc_ok st')
  ∧ length (encode_values st values).2 = length values.
Proof.
  induction values as [|v values IH]; intros st; cbn zeta; simpl.
  - split; [reflexivity|]. split; [lia|]. auto.
  - destruct (value_to_desc_alloc st v) as (Hh & Hn & Hp & Ha).
    destruct (value_to_desc st v) as [st1 desc]. cbn in Hh, Hn, Hp, Ha.
    destruct (IH st1) as (Hh' & Hn' & Hp' & Ha' & Hl).
    destruct (encode_values st1 values) as [st2 descs]. cbn in *.
    split; [congruence|]. split; [lia|]. split; [|split; [auto|congruence]].
    intros q Hq. rewrite Hp' by lia. apply Hp. exact Hq.
Qed.

Lemma passes_through_heap st st' value :
  heap st' = heap st → passes_through st value → passes_through st' value.
Proof.
  unfold passes_through, classified, IsDate, IsArray, IsFunction, object_class.
  intros H. destruct value; simpl; rewrite ?H; auto.
Qed.

(** The desc of a value that passes through is decoded to the value:
    anywhere, if it carries no cell; where its cell is, if it does. *)
Lemma encodes_passes_through st value st' desc :
  passes_through st value → encodes st value st' desc →
  (st' = st ∧ ∀ s, desc_to_value s desc = Some (s, value))
  ∨ (∃ t, is_reference_tag t = true
          ∧ fresh_handle st st' (next_alloc st) value
          ∧ desc = reference_desc t (next_alloc st)).
Proof.
  intros [Hc Hd] Henc.
  assert (Href : ∀ t, is_reference_tag t = true →
            (∃ p, fresh_handle st st' p value ∧ desc = reference_desc t p) →
            ∃ t, is_reference_tag t = true
                 ∧ fresh_handle st st' (next_alloc st) value
                 ∧ desc = reference_desc t (next_alloc st)).
  { intros t Ht (p & Hf & ->). pose proof Hf as (-> & _). eauto. }
  destruct value as [| | | |d|s|id|n|a]; simpl in Henc; try discriminate Hc.
  1-5: left; destruct Henc as [-> ->]; split; [reflexivity|]; intros s; reflexivity.
  - right. apply (Href ValueDescTag.String); [reflexivity|exact Henc].
  - unfold IsDate, object_class in Hd.
    destruct (heap st !! a) as [[[ | |data|t|m] priv]|]; simpl in Henc, Hd;
      try discriminate Hd; right.
    + apply (Href ValueDescTag.Object); [reflexivity|exact Henc].
    + apply (Href ValueDescTag.Array); [reflexivity|exact Henc].
    + apply (Href ValueDescTag.Function); [reflexivity|exact Henc].
    + apply (Href ValueDescTag.Object); [reflexivity|exact Henc].
    + apply (Href ValueDescTag.Object); [reflexivity|exact Henc].
Qed.

(** Decoding, in any state that has the cells they made, the descs that
    encoding a list of values gave. *)
Lemma decode_values_encoded values : ∀ st s,
  alloc_ok st →
  Forall (passes_through st) values →
  (∀ q, next_alloc st <= q →
        persistents s !! q = persistents (encode_values st values).1 !! q) →
  ∃ s', decode_values s (encode_values st values).2 = Some (s', values)
        ∧ (∀ q, q < next_alloc st → persistents s' !! q = persistents s !! q)
        ∧ (∀ q, next_alloc st <= q → persistents s' !! q = None)
        ∧ heap s' = heap s.
Proof.
  induction values as [|v values IH]; intros st s Ha Hpass Hs; simpl in *.
  - exists s. split; [reflexivity|]. split; [auto|]. split; [|reflexivity].
    intros q Hq. rewrite Hs by exact Hq.
    destruct (persistents st !! q) eqn:Hp; [|reflexivity].
    specialize (Ha q ltac:(eauto)). lia.
  - apply Forall_cons in Hpass as [Hv Hpass].
    destruct (value_to_desc_encodes st v) as (st1 & desc & Henc1 & Henc).
    destruct (value_to_desc_alloc st v) as (Hh1 & Hn1 & Hp1 & Ha1).
    rewrite Henc1 in *. cbn in Hh1, Hn1, Hp1, Ha1.
    destruct (encode_values_alloc values st1) as (_ & _ & Hp2 & _ & _).
    specialize (IH st1).
    destruct (encode_values st1 values) as [st2 descs]. cbn in *.
    assert (Hpass1 : Forall (passes_through st1) values).
    { eapply Forall_impl; [exact Hpass|]. intros x. apply passes_through_heap. exact Hh1. }
    destruct (encodes_passes_through st v st1 desc Hv Henc)
      as [[-> Hd]|(t & Ht & Hf & ->)].
    + rewrite Hd; cbn.
      destruct (IH s Ha Hpass1 Hs) as (s' & Hdec & Hlow & Hhigh & Hheap).
      rewrite Hdec; cbn. exists s'. auto.
    + destruct Hf as (_ & Hpers & _).
      assert (Hnext : next_alloc st1 = next_alloc st + 1).
      { destruct (value_to_desc_cases st v) as [Hsame|Hnew];
          rewrite Henc1 in *; cbn in *.
        - subst st1. exfalso.
          assert (Hin : persistents st !! next_alloc st = Some (strong_cell v))
            by (rewrite Hpers; apply lookup_insert_eq).
          rewrite (alloc_ok_free st Ha) in Hin. discriminate.
        - rewrite Hnew. reflexivity. }
      assert (Hcell : persistents s !! next_alloc st = Some (strong_cell v)).
      { rewrite Hs by lia. rewrite Hp2 by lia. rewrite Hpers. apply lookup_insert_eq. }
      rewrite desc_to_value_reference by exact Ht.
      unfold Persistent_get, Persistent_delete; cbn. rewrite Hcell; cbn.
      match goal with
      | |- context [decode_values ?s1 descs] =>
          destruct (IH s1 (Ha1 Ha) Hpass1) as (s' & Hdec & Hlow & Hhigh & Hheap)
      end.
      { intros q Hq. cbn. rewrite lookup_delete_ne by lia. apply Hs. lia. }
      rewrite Hdec; cbn. exists s'. split; [reflexivity|]. cbn in *.
      split; [|split; [|exact Hheap]].
      * intros q Hq. rewrite Hlow by lia. apply lookup_delete_ne. lia.
      * intros q Hq. destruct (decide (q = next_alloc st)) as [->|Hne].
        -- rewrite Hlow by lia. apply lookup_delete_eq.
        -- apply Hhigh. lia.
Qed.

(** X8. The arguments that the trampoline encodes for the host come
    back unchanged when the host passes the same descs on as the
    arguments of a call: for values that pass through a desc, the
    encoding loop of [rust_callback] followed by the decoding loop of
    [mv8_function_call] gives the values back, in order, and leaves no
    cell behind and the heap as it was. *)
Theorem encode_args_decode_arg_array (st : Interface) (args : list Value) :
  alloc_ok st →
  Forall (passes_through st) args →
  ∃ st1 arg_descs st2,
    encode_args (length args) 0 st args (replicate (length args) desc_undefined)
    = (st1, arg_descs)
    ∧ decode_arg_array st1 arg_descs (Z.of_nat (length args)) = Some (st2, args)
    ∧ persistents st2 = persistents st
    ∧ heap st2 = heap st.
Proof.
  intros Ha Hpass.
  pose proof (encode_args_values (length args) 0 st args [] eq_refl eq_refl) as He.
  simpl in He. rewrite drop_0 in He. rewrite He. clear He.
  destruct (encode_values_alloc args st) as (Hh & _ & Hp & _ & Hl).
  destruct (decode_values_encoded args st (encode_values st args).1 Ha Hpass
              ltac:(reflexivity))
    as (st2 & Hdec & Hlow & Hhigh & Hheap).
  destruct (encode_values st args) as [st1 arg_descs]. cbn in *.
  exists st1, arg_descs, st2. split; [reflexivity|].
  split; [|split; [|congruence]].
  - unfold decode_arg_array. destruct (Z.ltb_spec (Z.of_nat (length args)) 0); [lia|].
    rewrite Nat2Z.id.
    pose proof (decode_args_values (length args) 0 st1 arg_descs [] eq_refl
                  ltac:(simpl; lia)) as Hv.
    simpl in Hv. rewrite Hv, drop_0, take_ge, Hdec by lia. reflexivity.
  - apply map_eq. intros q. destruct (Z.lt_ge_cases q (next_alloc st)) as [Hq|Hq].
    + rewrite Hlow, Hp by exact Hq. reflexivity.
    + rewrite Hhigh by exact Hq.
      destruct (persistents st !! q) eqn:Hc; [|reflexivity].
      specialize (Ha q ltac:(eauto)). lia.
Qed.

(** A number, the sample array and a string. *)
Lemma encode_args_decode_arg_array_witness :
  let args := [JsNumber (double_of_int32 1); JsObject 1; JsString "a"] in
  ∃ st1 arg_descs st2,
    encode_args 3 0 sample_interface args (replicate 3 desc_undefined) = (st1, arg_descs)
    ∧ decode_arg_array st1 arg_descs 3 = Some (st2, args)
    ∧ persistents st2 = persistents sample_interface.
Proof.
  intros args.
  destruct (encode_args_decode_arg_array sample_interface args sample_interface_alloc_ok)
    as (st1 & arg_descs & st2 & He & Hd & Hp & _).
  - repeat constructor.
  - exists st1, arg_descs, st2. split; [exact He|]. split; [exact Hd|exact Hp].
Defined.

(** ** External memory, over the lifetime of an interface *)

Lemma run_split g E pre e post : ∀ st st',
  run g E st (pre ++ e :: post) = Some st' →
  ∃ st0 st1,
    run g E st pre = Some st0 ∧ step g E st0 e = Some st1 ∧ run g E st1 post = Some st'.
Proof.
  intros st st' H. rewrite run_app in H.
  destruct (run g E st pre) as [st0|]; cbn [mbind option_bind] in H; [|discriminate].
  cbn [run] in H.
  destruct (step g E st0 e) as [st1|] eqn:Hs; cbn [mbind option_bind] in H;
    [|discriminate].
  exists st0, st1. auto.
Qed.

Lemma to_int64_credit_from a s :
  to_int64 (a + to_int64 (to_uint64 s)) = to_int64 (a + s).
Proof.
  apply to_int64_eqm. rewrite Zplus_mod, to_int64_mod. unfold to_uint64.
  rewrite Zmod_mod, <- Zplus_mod. reflexivity.
Qed.

(** An event of the host that is no registration leaves the bridge's
    account of the external memory, and the registrations, alone. *)
Lemma step_by_host g E st e st' :
  engine_ok E → by_host e = true → step g E st e = Some st' →
  external_memory st' = external_memory st ∧ callbacks st' = callbacks st.
Proof.
  intros HE Hh Hs. unfold step in Hs.
  destruct (transition g E st e) as [st1|] eqn:Ht; cbn in Hs; [|discriminate].
  rewrite Hh in Hs. destruct (weak_cells_kept st st1); cbn in Hs; [|discriminate].
  injection Hs as <-.
  pose proof (transition_frame g E st e st1 HE Hh Ht) as Hf.
  split; [apply (frame_external_memory _ _ Hf)|apply (frame_callbacks _ _ Hf)].
Qed.

(** X9. Over the lifetime of an interface, what the bridge has added
    to the isolate's counter of external memory and not taken off
    stands, after every event, at the sum of the charges of the
    registrations that are live ([sizeof(RustCallback)] plus the
    closure's size for each, as an [int64_t]). No construction, no
    operation on values, no evaluation, whatever registered functions
    script calls in the course of it, no read of a data node, no clone
    or drop of a handle has the bridge move the counter; a
    registration adds its charge and a weak callback takes the charge
    of its record off. When the interface is dropped the bridge has
    taken off all that it added. (What V8 itself counts under external
    memory, the backing stores of array buffers, is V8's own and is
    not in this account.) *)
Theorem external_memory_accounted (g : Globals) (E : Engine) (drop : rust_callback_drop)
    (self : Z) (events : list Event) (st : Interface) :
  main_callback_drop_func g = Some drop →
  engine_ok E →
  run g E (mv8_interface_new self) events = Some st →
  external_memory st = to_int64 (charged (callbacks st))
  ∧ (∀ pre e post, events = pre ++ e :: post →
       ∃ st0 st1,
         run g E (mv8_interface_new self) pre = Some st0
         ∧ step g E st0 e = Some st1
         ∧ external_memory st0 = to_int64 (charged (callbacks st0))
         ∧ match e with
           | Register fn fn_size =>
               external_memory st1
               = to_int64 (external_memory st0 + (sizeof_RustCallback + fn_size))
           | Collect p =>
               ∃ cb c, callbacks st0 !! cb = Some c ∧ value_ptr c = p
                       ∧ callbacks st1 = delete cb (callbacks st0)
                       ∧ external_memory st1
                         = to_int64 (external_memory st0 - charge c)
           | _ => external_memory st1 = external_memory st0
                  ∧ callbacks st1 = callbacks st0
           end)
  ∧ ∃ st', mv8_interface_drop g st = Some st' ∧ external_memory st' = 0.
Proof.
  intros Hd HE Hrun.
  destruct (lifetime_run g E drop events _ _ Hd HE (registry_ok_new self) Hrun)
    as (Hok & _ & Hm & _).
  specialize (Hm (accounted_new self)).
  split; [exact Hm|]. split.
  - intros pre e post ->.
    destruct (run_split _ _ _ _ _ _ _ Hrun) as (st0 & st1 & Hpre & Hs & _).
    destruct (lifetime_run g E drop pre _ _ Hd HE (registry_ok_new self) Hpre)
      as (Hok0 & _ & Hm0 & _).
    specialize (Hm0 (accounted_new self)).
    exists st0, st1. split; [exact Hpre|]. split; [exact Hs|]. split; [exact Hm0|].
    destruct e as [fn n|p|p|c|op|q|Array_Length ArrayBuffer_GetContents data_desc|p];
      cbn beta iota; try (eapply step_by_host; [exact HE| |exact Hs]; reflexivity).
    + unfold step in Hs. simpl in Hs. injection Hs as <-.
      change (external_memory (mv8_function_create st0 fn n).1)
        with (to_int64 (external_memory st0
                        + to_int64 (to_uint64 (sizeof_RustCallback + n)))).
      apply to_int64_credit_from.
    + destruct (step_Collect g E drop st0 p st1 Hd Hok0 Hs)
        as (a & cb & c & _ & Hc & Hv & _ & _ & _ & _ & _ & Hcs & _ & Hmem).
      exists cb, c. auto.
  - destruct (mv8_interface_drop_sweeps g drop st Hd Hok)
      as (st1 & log & _ & Hdrop & _ & _ & _ & _ & _ & _ & _ & _ & Hmem).
    exists (Isolate_Dispose st1). split; [exact Hdrop|]. apply Hmem, Hm.
Qed.

(** Two registrations, of 16 and of 24 bytes; script calls the first
    function; the first registration is collected. *)
Lemma external_memory_accounted_witness :
  let events :=
    [Register 4096 16; Register 8192 24;
     Inspect (Eval "f(1, f)" 7 None 0 0);
     Release 9;
     Operate (CoerceBoolean (reference_desc ValueDescTag.Function 3));
     Collect 4] in
  ∃ st st',
    run sample_globals calling_engine (mv8_interface_new 1) events = Some st
    ∧ external_memory st = 56
    ∧ mv8_interface_drop sample_globals st = Some st'
    ∧ external_memory st' = 0.
Proof.
  intros events.
  destruct (run sample_globals calling_engine (mv8_interface_new 1) events) as [st|]
    eqn:Hrun; [|vm_compute in Hrun; discriminate].
  destruct (external_memory_accounted sample_globals calling_engine (λ _, tt) 1 events st
              eq_refl calling_engine_ok Hrun)
    as (_ & _ & st' & Hdrop & Hzero).
  exists st, st'. split; [reflexivity|].
  split; [|split; [exact Hdrop|exact Hzero]].
  vm_compute in Hrun. injection Hrun as <-. reflexivity.
Defined.

(** ** What the drop of an interface touches *)

(** X10. The drop of an interface calls the host's drop function
    exactly once for each registration that is live, with its closure
    pointer, and calls the host for nothing else: the records that the
    sweep finalizes are the live registrations, every one of them and
    none twice. The cells it releases are the weak cells of those
    registrations and no others: a strong cell that the host still
    holds is never reset and deleted by the drop. *)
Theorem mv8_interface_drop_log (g : Globals) (E : Engine) (drop : rust_callback_drop)
    (self : Z) (events : list Event) (st : Interface) :
  main_callback_drop_func g = Some drop →
  engine_ok E →
  run g E (mv8_interface_new self) events = Some st →
  ∃ st' (log : list (Z * RustCallback)),
    mv8_interface_drop g st = Some st'
    ∧ length log = size (callbacks st)
    ∧ Forall (λ x, callbacks st !! x.1 = Some x.2
                   ∧ ∃ a, persistents st !! value_ptr x.2 = Some (weak_cell a x.1)) log
    ∧ released st' = rev (map (λ x, value_ptr x.2) log) ++ released st
    ∧ host_calls st' = rev (map (λ x, DropCall (func x.2)) log) ++ host_calls st
    ∧ (∀ p cell, persistents st !! p = Some cell → wrapper_class_id cell = 0 →
         p ∉ map (λ x, value_ptr x.2) log)
    ∧ log ≡ₚ map_to_list (callbacks st)
    ∧ NoDup log.*1
    ∧ NoDup (map (λ x, value_ptr x.2) log)
    ∧ (∀ cb c, callbacks st !! cb = Some c → (cb, c) ∈ log).
Proof.
  intros Hd HE Hrun.
  destruct (lifetime_run g E drop events _ _ Hd HE (registry_ok_new self) Hrun)
    as (Hok & _).
  destruct (mv8_interface_drop_sweeps g drop st Hd Hok)
    as (st1 & log & _ & Hdrop & _ & _ & _ & Hperm & Hrel & Hcalls & _).
  assert (Hlog : ∀ cb c, (cb, c) ∈ log ↔ callbacks st !! cb = Some c).
  { intros cb c. rewrite Hperm. apply elem_of_map_to_list. }
  assert (Hweak : Forall (λ x, callbacks st !! x.1 = Some x.2
                    ∧ ∃ a, persistents st !! value_ptr x.2 = Some (weak_cell a x.1)) log).
  { apply Forall_forall. intros [cb c] Hx. apply Hlog in Hx. cbn.
    split; [exact Hx|]. destruct (ok_record st Hok cb c Hx) as (a & o & Hp & _). eauto. }
  assert (Hnd : NoDup log.*1) by (rewrite Hperm; apply NoDup_fst_map_to_list).
  exists (Isolate_Dispose st1), log.
  split; [exact Hdrop|].
  split; [rewrite Hperm; apply length_map_to_list|].
  split; [exact Hweak|]. split; [exact Hrel|]. split; [exact Hcalls|].
  split.
  { intros p cell Hp Hz Hin. apply list_elem_of_fmap in Hin as ([cb c] & -> & Hx).
    rewrite Forall_forall in Hweak. destruct (Hweak _ Hx) as (_ & a & Hw). cbn in *.
    rewrite Hp in Hw. injection Hw as ->. discriminate Hz. }
  split; [exact Hperm|]. split; [exact Hnd|]. split; [|intros cb c; apply Hlog].
  clear Hrel Hcalls Hperm Hlog.
  induction log as [|[cb c] log IH]; [constructor|].
  apply Forall_cons in Hweak as [[Hc [a Ha]] Hweak]. apply NoDup_cons in Hnd as [Hn Hnd].
  simpl in *. constructor; [|apply IH; assumption].
  intros Hin. apply list_elem_of_fmap in Hin as ([cb' c'] & Hv & Hx). cbn in Hv.
  rewrite Forall_forall in Hweak. destruct (Hweak _ Hx) as (_ & a' & Ha'). cbn in Ha'.
  rewrite <- Hv, Ha in Ha'. injection Ha' as _ Hcb. subst cb'.
  apply Hn. apply list_elem_of_fmap. exists (cb, c'). auto.
Qed.

(** Two registrations, one collected before the drop: the drop calls
    the host once, for the other. *)
Lemma mv8_interface_drop_log_witness :
  let events :=
    [Register 4096 16; Register 8192 24;
     Inspect (Eval "f(1, f)" 7 None 0 0);
     Release 9;
     Operate (CoerceBoolean (reference_desc ValueDescTag.Function 3));
     Collect 4] in
  ∃ st st' log,
    run sample_globals calling_engine (mv8_interface_new 1) events = Some st
    ∧ mv8_interface_drop sample_globals st = Some st'
    ∧ length log = 1%nat
    ∧ released st' = rev (map (λ x : Z * RustCallback, value_ptr x.2) log) ++ released st
    ∧ host_calls st'
      = rev (map (λ x : Z * RustCallback, DropCall (func x.2)) log) ++ host_calls st.
Proof.
  intros events.
  destruct (run sample_globals calling_engine (mv8_interface_new 1) events) as [st|]
    eqn:Hrun; [|vm_compute in Hrun; discriminate].
  destruct (mv8_interface_drop_log sample_globals calling_engine (λ _, tt) 1 events st
              eq_refl calling_engine_ok Hrun)
    as (st' & log & Hdrop & Hlen & _ & Hrel & Hcalls & _).
  exists st, st', log. split; [reflexivity|]. split; [exact Hdrop|].
  split; [|split; [exact Hrel|exact Hcalls]].
  rewrite Hlen. vm_compute in Hrun. injection Hrun as <-. reflexivity.
Defined.

(** ** What the trampoline hands to the host *)

(** X11. A call of a registered function hands every cell that the
    trampoline makes to the host: the cells made are the cells of the
    descs of [this] and of the arguments, in order, the trampoline
    releases none of them, and a cell that was live before the call
    is as it was after it; the one cell the trampoline releases is
    the cell of the desc that the host returns. *)
Theorem rust_callback_hands_to_host (wrapper : rust_callback_wrapper)
    (drop_func : option rust_callback_drop) (st : Interface) (callee this : Value)
    (args : list Value) (ext : Z) (callback : RustCallback) (st' : Interface)
    (result : CallbackResult) :
  alloc_ok st →
  FunctionCallbackInfo_Data st callee = Some ext →
  callbacks st !! ext = Some callback →
  rust_callback (mv8_init (Some wrapper) drop_func) st callee this args
  = Some (st', result) →
  ∃ this_desc arg_descs,
    let returned :=
      value_desc (wrapper (interface callback) (func callback) this_desc arg_descs
                    (Z.of_nat (length args))) in
    host_calls st'
    = WrapperCall (interface callback) (func callback) this_desc arg_descs
        :: host_calls st
    ∧ created st' = rev (desc_handles (this_desc :: arg_descs)) ++ created st
    ∧ released st' = desc_handle returned ++ released st
    ∧ (∀ p, p ∈ desc_handles (this_desc :: arg_descs) →
         persistents st !! p = None
         ∧ (p ∉ desc_handle returned → is_Some (persistents st' !! p)))
    ∧ (∀ p, is_Some (persistents st !! p) → p ∉ desc_handle returned →
         persistents st' !! p = persistents st !! p).
Proof.
  intros Ha Hdata Hcb H.
  destruct (ledger_rust_callback _ _ _ _ _ _ _ H)
    as (iface & closure & this_desc & arg_descs & L & Hreg & Hlen). cbn zeta in L.
  destruct (Hreg ext callback Hdata Hcb) as [-> ->].
  unfold call_result in L. simpl in L. rewrite Hlen in L.
  exists this_desc, arg_descs. cbn zeta.
  set (returned := value_desc (wrapper _ _ _ _ _)) in *.
  destruct (ledger_logs _ _ _ _ _ L) as (Hc & Hr & Hh & _ & _ & _ & _ & _ & Hrest).
  destruct (ledger_sound _ _ _ _ _ L Ha) as (_ & _ & _ & _ & Hmade & _ & Hstrong).
  assert (Hnew : ∀ p, p ∈ desc_handles (this_desc :: arg_descs) →
            persistents st !! p = None).
  { intros p Hp. destruct (Hmade p ltac:(apply elem_of_rev; exact Hp)) as [Hlo _].
    destruct (persistents st !! p) eqn:Hcell; [|reflexivity].
    specialize (Ha p ltac:(eauto)). lia. }
  split; [exact Hh|]. split; [exact Hc|]. split; [exact Hr|]. split.
  - intros p Hp. split; [apply Hnew, Hp|]. intros Hout.
    destruct (Hstrong p ltac:(apply elem_of_rev; exact Hp) Hout) as [value ->]. eauto.
  - intros p [cell Hcell] Hout. rewrite Hrest.
    + apply decide_False. exact Hout.
    + rewrite elem_of_rev. intros Hin. rewrite (Hnew p Hin) in Hcell. discriminate.
Qed.

(** The closure that returns its second argument, called with 1 and
    the sample array: the array's cell, 21, goes out and comes back. *)
Lemma rust_callback_hands_to_host_witness :
  let wrapper : rust_callback_wrapper :=
    λ _ _ _ arg_descs _,
      {| value_desc := default desc_undefined (arg_descs !! 1%nat); is_exception := 0 |} in
  ∃ st' this_desc arg_descs,
    rust_callback (mv8_init (Some wrapper) None) registered_interface (JsObject 3)
      JsUndefined [JsNumber (double_of_int32 1); JsObject 1]
    = Some (st', ReturnValue_Set (JsObject 1))
    ∧ created st' = rev (desc_handles (this_desc :: arg_descs))
                      ++ created registered_interface
    ∧ host_calls st' = [WrapperCall 1 4096 this_desc arg_descs].
Proof.
  intros wrapper.
  destruct (rust_callback (mv8_init (Some wrapper) None) registered_interface (JsObject 3)
              JsUndefined [JsNumber (double_of_int32 1); JsObject 1])
    as [[st' result]|] eqn:Hr; [|discriminate].
  destruct (rust_callback_hands_to_host wrapper None registered_interface (JsObject 3)
              JsUndefined [JsNumber (double_of_int32 1); JsObject 1] 18
              {| func := 4096; func_size := 16; interface := 1; value_ptr := 20 |}
              st' result
              (alloc_ok_create _ _ _ sample_interface_alloc_ok) eq_refl eq_refl Hr)
    as (this_desc & arg_descs & Hcalls & Hcreated & _).
  exists st', this_desc, arg_descs.
  split; [|split; [exact Hcreated|exact Hcalls]].
  vm_compute in Hr. injection Hr as <- <-. reflexivity.
Defined.

(** ** Arrow data nodes *)

(** X12. [mv8_data_node_from_js], whenever it returns: the desc it was
    given is consumed (its cell is released once), and besides it the
    cells made and released are those of the calls that script (a
    getter of the node) made of registered functions, handed to the
    host and handed back by it; when there is no such call the cell of
    the desc is the one cell released and no cell is made. The node
    has at most two buffers, the arrays of buffer addresses and
    capacities have their two slots, and the slots from [n_buffers] on
    are zero, as [memset] left them; [len] and [null_count] are in the
    range of [size_t]. An array of more than two buffers gives no
    result. *)
Theorem mv8_data_node_from_js_returns (g : Globals) (E : Engine)
    (Array_Length : gmap nat JsObj → Value → nat)
    (ArrayBuffer_GetContents : gmap nat JsObj → Value → option (Z * Z))
    (st : Interface) (data_desc : ValueDesc) (st' : Interface) (data : DataFFI) :
  mv8_data_node_from_js g E Array_Length ArrayBuffer_GetContents st data_desc
  = Some (st', data) →
  (∃ calls,
     host_calls st' = calls ++ host_calls st
     ∧ released st' = handed_back g calls ++ desc_handle data_desc ++ released st
     ∧ created st' = handed_out calls ++ created st
     ∧ (∀ q, q ∉ handed_out calls →
          persistents st' !! q
          = if decide (q ∈ handed_back g calls ++ desc_handle data_desc) then None
            else persistents st !! q))
  ∧ (host_calls st' = host_calls st →
     released st' = desc_handle data_desc ++ released st
     ∧ created st' = created st
     ∧ (∀ q, persistents st' !! q
             = if decide (q ∈ desc_handle data_desc) then None else persistents st !! q))
  ∧ 0 <= n_buffers data <= 2
  ∧ length (buffer_ptrs data) = 2%nat
  ∧ length (buffer_capacities data) = 2%nat
  ∧ (∀ i, n_buffers data <= Z.of_nat i →
       (i < 2)%nat → buffer_ptrs data !! i = Some 0 ∧ buffer_capacities data !! i = Some 0)
  ∧ 0 <= len data < 2 ^ 64
  ∧ 0 <= null_count data < 2 ^ 64.
Proof.
  intros H.
  destruct (ledger_data_node _ _ _ _ _ _ _ _ H) as (calls & L & _).
  destruct (ledger_logs _ _ _ _ _ L) as (Hc & Hr & Hh & _ & _ & _ & _ & _ & Hrest).
  apply data_node_phases in H as (st1 & value & _ & _ & Hbounds).
  split; [|split; [|exact Hbounds]].
  - exists calls. split; [exact Hh|].
    split; [rewrite Hr, app_assoc; reflexivity|]. split; [exact Hc|exact Hrest].
  - intros Hsame. rewrite Hsame in Hh.
    assert (calls = []) as ->.
    { apply (app_inv_tail (host_calls st)). rewrite <- Hh. reflexivity. }
    split; [exact Hr|]. split; [exact Hc|].
    intros q. apply Hrest. intros Hin. inversion Hin.
Qed.

(** The sample object read as a data node: three rows, one buffer of 8
    bytes at 4096 in the first slot, the second slot zero; the
    object's cell, 16, is released. *)
Lemma mv8_data_node_from_js_returns_witness :
  ∃ st' data,
    mv8_data_node_from_js sample_globals data_engine (λ _ _, 1%nat) data_contents
      sample_interface (reference_desc ValueDescTag.Object 16) = Some (st', data)
    ∧ len data = 3
    ∧ n_buffers data = 1
    ∧ buffer_ptrs data = [4096; 0]
    ∧ released st' = [16]
    ∧ created st' = created sample_interface.
Proof.
  destruct (mv8_data_node_from_js sample_globals data_engine (λ _ _, 1%nat) data_contents
              sample_interface (reference_desc ValueDescTag.Object 16))
    as [[st' data]|] eqn:H; [|vm_compute in H; discriminate].
  destruct (mv8_data_node_from_js_returns _ _ _ _ _ _ _ _ H) as (_ & Hquiet & _).
  destruct Hquiet as (Hrel & Hcr & _).
  { vm_compute in H. injection H as <- _. reflexivity. }
  exists st', data. split; [reflexivity|].
  split; [|split; [|split; [|split; [exact Hrel|exact Hcr]]]];
    vm_compute in H; injection H as <- <-; reflexivity.
Defined.

(** X13. [mv8_data_node_from_js] has no exception channel: it reads
    the properties without a try-catch and unwraps what it gets, so
    given a value that is no object, an object whose [len] cannot be
    read without an exception, or one whose [len] is not a number, it
    returns nothing at all (the process is gone), where the operations
    with an outcome would report an exception. *)
Theorem mv8_data_node_from_js_unchecked (g : Globals) (E : Engine)
    (Array_Length : gmap nat JsObj → Value → nat)
    (ArrayBuffer_GetContents : gmap nat JsObj → Value → option (Z * Z))
    (st : Interface) (data_desc : ValueDesc) (st1 : Interface) (value : Value) :
  desc_to_value st data_desc = Some (st1, value) →
  (IsObject value = false →
     mv8_data_node_from_js g E Array_Length ArrayBuffer_GetContents st data_desc = None)
  ∧ (∀ st2 exception report,
       enter g st1 (Object_Get E (heap st1) value (JsString "len"))
       = Some (st2, Throws exception report) →
       mv8_data_node_from_js g E Array_Length ArrayBuffer_GetContents st data_desc = None)
  ∧ (∀ st2 len_value,
       enter g st1 (Object_Get E (heap st1) value (JsString "len"))
       = Some (st2, Returns len_value) →
       IsNumber len_value = false →
       mv8_data_node_from_js g E Array_Length ArrayBuffer_GetContents st data_desc = None).
Proof.
  intros Hd. unfold mv8_data_node_from_js. rewrite Hd; cbn. split; [|split].
  - intros ->. reflexivity.
  - intros st2 exception report Hg. destruct (IsObject value); [|reflexivity]. cbn.
    unfold Get_ToLocalChecked. rewrite Hg. reflexivity.
  - intros st2 len_value Hg Hn. destruct (IsObject value); [|reflexivity]. cbn.
    unfold Get_ToLocalChecked. rewrite Hg. cbn.
    unfold Number_Cast_Value. rewrite Hn. reflexivity.
Qed.

(** A number is no data node, and neither is an object whose [len]
    throws. *)
Lemma mv8_data_node_from_js_unchecked_witness :
  mv8_data_node_from_js sample_globals data_engine (λ _ _, 1%nat) data_contents
    sample_interface (number_desc ValueDescTag.Number (double_of_int32 3)) = None
  ∧ mv8_data_node_from_js sample_globals
      (fixed_engine (Throws (JsString "no len") (message_only "Uncaught no len"))
         (Returns true) (Returns 0))
      (λ _ _, 1%nat) data_contents sample_interface
      (reference_desc ValueDescTag.Object 16) = None.
Proof.
  split.
  - apply (proj1 (mv8_data_node_from_js_unchecked sample_globals data_engine (λ _ _, 1%nat)
                    data_contents sample_interface
                    (number_desc ValueDescTag.Number (double_of_int32 3))
                    sample_interface (JsNumber (double_of_int32 3)) eq_refl)).
    reflexivity.
  - destruct (desc_to_value sample_interface (reference_desc ValueDescTag.Object 16))
      as [[st1 value]|] eqn:Hd; [|discriminate].
    eapply (proj1 (proj2 (mv8_data_node_from_js_unchecked sample_globals _ (λ _ _, 1%nat)
                            data_contents sample_interface _ st1 value Hd))).
    reflexivity.
Defined.

(** ** The cast of a double to [size_t] *)

Lemma dbl_trunc_int32 i :
  - 2 ^ 31 <= i < 2 ^ 31 → dbl_trunc (double_of_int32 i) = Some i.
Proof.
  intros Hi. unfold double_of_int32.
  destruct (Z.eqb_spec i 0) as [->|Hnz]; [reflexivity|].
  set (a := Z.abs i). set (k := Z.log2 a).
  assert (Ha : 0 < a <= 2 ^ 31) by (subst a; lia).
  destruct (Z.log2_spec a ltac:(lia)) as [Hlo Hhi]. fold k in Hlo, Hhi.
  assert (Hk0 : 0 <= k) by (subst k; apply Z.log2_nonneg).
  assert (Hk1 : k <= 31).
  { destruct (Z_le_gt_dec k 31) as [|Hgt]; [assumption|exfalso].
    assert (2 ^ 32 <= 2 ^ k) by (apply Z.pow_le_mono_r; lia). lia. }
  rewrite Z.pow_succ_r in Hhi by lia.
  assert (Hp : 0 < 2 ^ (52 - k)) by (apply Z.pow_pos_nonneg; lia).
  assert (Hsplit : 2 ^ 52 = 2 ^ k * 2 ^ (52 - k))
    by (rewrite <- Z.pow_add_r by lia; f_equal; lia).
  set (f := (a - 2 ^ k) * 2 ^ (52 - k)).
  assert (Hf : 0 <= f < 2 ^ 52) by (subst f; nia).
  set (s := if i <? 0 then 1 else 0).
  replace ((if i <? 0 then 2 ^ 63 else 0) + (1023 + k) * 2 ^ 52 + f)
    with (s * 2 ^ 63 + (1023 + k) * 2 ^ 52 + f)
    by (subst s; destruct (i <? 0); lia).
  destruct (dbl_fields s (1023 + k) f) as (Hd & Hsign & Hexp & Hfrac);
    [subst s; destruct (i <? 0); lia|lia|assumption|].
  unfold dbl_trunc. cbv zeta in Hsign, Hexp, Hfrac. rewrite Hexp, Hfrac, Hsign.
  destruct (Z.eqb_spec (1023 + k) 2047); [lia|].
  destruct (Z.eqb_spec (1023 + k) 0); [lia|].
  replace (1023 + k - 1075) with (- (52 - k)) by lia.
  destruct (Z.leb_spec 0 (- (52 - k))); [lia|].
  rewrite Z.opp_involutive.
  replace (2 ^ 52 + f) with (a * 2 ^ (52 - k)) by (subst f; lia).
  rewrite Z.div_mul by lia.
  f_equal. subst s a. destruct (Z.ltb_spec i 0); simpl; lia.
Qed.

(** X14. The cast [(size_t)] that [mv8_data_node_from_js] applies to
    [len] and [null_count]: a number that is a 32-bit integer, the way
    [value_to_desc] and script hold small integers, is cast to that
    integer when it is not negative; a negative one, an infinity and a
    NaN have no [size_t] (the cast is undefined); minus zero gives 0. *)
Theorem size_t_of_double_int32 (i : Z) :
  - 2 ^ 31 <= i < 2 ^ 31 →
  size_t_of_double (double_of_int32 i) = (if 0 <=? i then Some i else None)
  ∧ (∀ d, dbl_exp d = 2047 → size_t_of_double d = None)
  ∧ size_t_of_double (2 ^ 63) = Some 0.
Proof.
  intros Hi. split; [|split].
  - unfold size_t_of_double. rewrite (dbl_trunc_int32 i Hi). cbn.
    destruct (Z.leb_spec 0 i); cbn; [|reflexivity].
    destruct (Z.ltb_spec i (2 ^ 64)); [reflexivity|lia].
  - intros d Hd. unfold size_t_of_double, dbl_trunc. rewrite Hd. reflexivity.
  - reflexivity.
Qed.

Lemma size_t_of_double_int32_witness :
  size_t_of_double (double_of_int32 3) = Some 3
  ∧ size_t_of_double (double_of_int32 (-1)) = None.
Proof.
  split.
  - apply (proj1 (size_t_of_double_int32 3 ltac:(lia))).
  - apply (proj1 (size_t_of_double_int32 (-1) ltac:(lia))).
Defined.

(** ** Constructors *)

Lemma utf8_decode_ascii s : ascii_text s = true → utf8_decode EmptyString None s = s.
Proof.
  induction s as [|a s IH]; simpl; [reflexivity|]. intros H.
  apply andb_true_iff in H as [Ha Hs]. unfold utf8_lead. rewrite Ha.
  rewrite (IH Hs). reflexivity.
Qed.

(** X15. [mv8_string_new], [mv8_array_new] and [mv8_object_new],
    whenever they return, hand out a new strong cell, at an address
    that was not live, releasing and changing no other cell; it refers
    to the string that [String::NewFromUtf8] makes of the first
    [length] bytes of [data], or to an object that was not in the heap
    before; encoding the value it refers to gives the variant under
    which the host holds it (String, Array, Object), and the desc of
    that variant with the cell decodes to the value and releases the
    cell, leaving the cells there were before the construction. The
    string is the text that the bytes are the UTF-8 of, with one
    U+FFFD for every sequence that is ill-formed or cut off by
    [length]: bytes that are all ASCII give the string of those bytes,
    and the length 0 gives the empty string. [mv8_array_new] and
    [mv8_object_new] always return; [mv8_string_new] returns nothing
    when [length] (an [int]) is past the bytes there are or past the
    longest string of V8. *)
Theorem construct_hands_over (st : Interface) (c : Construction) (st' : Interface)
    (p : Z) :
  alloc_ok st →
  construct st c = Some (st', p) →
  ∃ value,
    p = next_alloc st
    ∧ persistents st !! next_alloc st = None
    ∧ persistents st' = <[next_alloc st := strong_cell value]> (persistents st)
    ∧ released st' = released st
    ∧ created st' = next_alloc st :: created st
    ∧ match c with
      | NewString data length =>
          string_new data length = Some (match value with JsString s => s | _ => data end)
          ∧ IsString value = true
          ∧ heap st' = heap st
          ∧ (to_int32 length = 0 → value = JsString EmptyString)
          ∧ (0 < to_int32 length →
               to_int32 length <= Z.of_nat (String.length data)
               ∧ to_int32 length <= String_kMaxLength
               ∧ value
                 = JsString (utf8_decode EmptyString None
                               (String.substring 0 (Z.to_nat (to_int32 length)) data)))
          ∧ (0 < to_int32 length →
               ascii_text (String.substring 0 (Z.to_nat (to_int32 length)) data) = true →
               value = JsString (String.substring 0 (Z.to_nat (to_int32 length)) data))
      | NewArray | NewObject =>
          ∃ a, value = JsObject a ∧ heap st !! a = None ∧ is_Some (heap st' !! a)
      end
    ∧ tag (value_to_desc st' value).2 = constructed_tag c
    ∧ ∃ st2,
        desc_to_value st' {| payload := next_alloc st; tag := constructed_tag c |}
        = Some (st2, value)
        ∧ persistents st2 = persistents st.
Proof.
  intros Ha H. pose proof (alloc_ok_free st Ha) as Hfree.
  assert (Hdec : ∀ st1 value t,
            is_reference_tag t = true →
            persistents st1 = <[next_alloc st := strong_cell value]> (persistents st) →
            ∃ st2, desc_to_value st1 {| payload := next_alloc st; tag := t |}
                   = Some (st2, value)
                   ∧ persistents st2 = persistents st).
  { intros st1 value t Ht Hp. rewrite desc_to_value_reference by exact Ht.
    unfold Persistent_get, Persistent_delete; cbn. rewrite Hp, lookup_insert_eq; cbn.
    eexists. split; [reflexivity|]. cbn. rewrite delete_insert_eq.
    apply delete_id. exact Hfree. }
  destruct c as [data length| |]; cbn [construct constructed_tag] in *.
  - unfold mv8_string_new in H.
    destruct (string_new data length) as [s|] eqn:Hs; cbn in H; [|discriminate].
    injection H as <- <-.
    exists (JsString s).
    split; [reflexivity|]. split; [exact Hfree|]. split; [reflexivity|].
    split; [reflexivity|]. split; [reflexivity|].
    split; [|split; [reflexivity|apply Hdec; reflexivity]].
    split; [reflexivity|]. split; [reflexivity|]. split; [reflexivity|].
    unfold string_new in Hs. cbn zeta in Hs.
    destruct (Z.eqb_spec (to_int32 length) 0) as [H0|H0].
    { injection Hs as <-. split; [reflexivity|]. split; intros; lia. }
    destruct (Z.ltb_spec String_kMaxLength (to_int32 length)) as [Hk|Hk];
      [discriminate|].
    split; [intros; contradiction|].
    assert (Hpos : 0 < to_int32 length →
              to_int32 length <= Z.of_nat (String.length data)
              ∧ to_int32 length <= String_kMaxLength
              ∧ JsString s
                = JsString (utf8_decode EmptyString None
                              (String.substring 0 (Z.to_nat (to_int32 length)) data))).
    { intros Hl. destruct (Z.ltb_spec (to_int32 length) 0) as [Hn|Hn]; [lia|].
      cbn in Hs.
      destruct (Z.leb_spec (to_int32 length) (Z.of_nat (String.length data)));
        [|discriminate].
      injection Hs as <-. auto. }
    split; [exact Hpos|].
    intros Hl Hascii. destruct (Hpos Hl) as (_ & _ & ->).
    rewrite utf8_decode_ascii by exact Hascii. reflexivity.
  - injection H as <- <-.
    exists (JsObject (fresh (dom (heap st)))).
    split; [reflexivity|]. split; [exact Hfree|]. split; [reflexivity|].
    split; [reflexivity|]. split; [reflexivity|]. split; [|split].
    + eexists. split; [reflexivity|]. split; [apply not_elem_of_dom, is_fresh|].
      unfold mv8_array_new, Array_New, heap_alloc, Persistent_new; cbn.
      rewrite lookup_insert_eq. eauto.
    + unfold value_to_desc, IsDate, IsArray, object_class,
        mv8_array_new, Array_New, heap_alloc, Persistent_new; cbn.
      rewrite lookup_insert_eq. reflexivity.
    + apply Hdec; reflexivity.
  - injection H as <- <-.
    exists (JsObject (fresh (dom (heap st)))).
    split; [reflexivity|]. split; [exact Hfree|]. split; [reflexivity|].
    split; [reflexivity|]. split; [reflexivity|]. split; [|split].
    + eexists. split; [reflexivity|]. split; [apply not_elem_of_dom, is_fresh|].
      unfold mv8_object_new, Object_New, heap_alloc, Persistent_new; cbn.
      rewrite lookup_insert_eq. eauto.
    + unfold value_to_desc, IsDate, IsArray, IsFunction, object_class,
        mv8_object_new, Object_New, heap_alloc, Persistent_new; cbn.
      rewrite lookup_insert_eq. reflexivity.
    + apply Hdec; reflexivity.
Qed.

(** A string of the first two bytes of "abc", and a new array. *)
Lemma construct_hands_over_witness :
  (∃ st', construct sample_interface (NewString "abc" 2) = Some (st', 18)
          ∧ Persistent_get st' 18 = Some (JsString "ab"))
  ∧ (∃ st' value,
       construct sample_interface NewArray = Some (st', 18)
       ∧ Persistent_get st' 18 = Some value
       ∧ tag (value_to_desc st' value).2 = ValueDescTag.Array).
Proof.
  split.
  - destruct (construct sample_interface (NewString "abc" 2)) as [[st' p]|] eqn:Hc;
      [|discriminate].
    destruct (construct_hands_over sample_interface _ st' p sample_interface_alloc_ok Hc)
      as (value & -> & _ & Hcells & _ & _ & (_ & _ & _ & _ & _ & Hascii) & _).
    exists st'. split; [reflexivity|].
    unfold Persistent_get. rewrite Hcells, lookup_insert_eq. cbn.
    rewrite (Hascii ltac:(reflexivity) eq_refl). reflexivity.
  - destruct (construct sample_interface NewArray) as [[st' p]|] eqn:Hc; [|discriminate].
    destruct (construct_hands_over sample_interface _ st' p sample_interface_alloc_ok Hc)
      as (value & -> & _ & Hcells & _ & _ & _ & Htag & _).
    exists st', value. split; [reflexivity|]. split; [|exact Htag].
    unfold Persistent_get. rewrite Hcells, lookup_insert_eq. reflexivity.
Defined.

(** The bytes C3 A9 cut after the first, and the bytes FF 61: a
    sequence cut off and a byte that starts none become U+FFFD. A
    length past the bytes there are gives no string, and a negative
    length takes the bytes before the first NUL. *)
Example string_new_ill_formed :
  string_new (String (Ascii.ascii_of_nat 195) (String (Ascii.ascii_of_nat 169) EmptyString))
    1 = Some replacement_character
  ∧ string_new (String (Ascii.ascii_of_nat 195)
                  (String (Ascii.ascii_of_nat 169) EmptyString)) 2
    = Some (String (Ascii.ascii_of_nat 195) (String (Ascii.ascii_of_nat 169) EmptyString))
  ∧ string_new (String (Ascii.ascii_of_nat 255) (String (Ascii.ascii_of_nat 97) EmptyString))
      2 = Some (replacement_character +:+ String (Ascii.ascii_of_nat 97) EmptyString)
  ∧ string_new "abc" 5 = None
  ∧ string_new ("ab" +:+ String Ascii.zero "c") (-1) = Some "ab".
Proof. repeat split; reflexivity. Qed.

(** ** A registered function, called *)

(** X16. The function that [mv8_function_create] makes for a closure
    is the one that calls it: the handle returned refers to a function
    object (encoded as the Function variant) whose data is the new
    registration, so that a call of that object runs the trampoline
    with the closure pointer and the interface given at registration,
    and the host's dispatcher is called with exactly those. *)
Theorem mv8_function_create_dispatches (wrapper : rust_callback_wrapper)
    (drop_func : option rust_callback_drop) (st : Interface) (fn fn_size : Z)
    (this : Value) (args : list Value) :
  alloc_ok st →
  let st1 := (mv8_function_create st fn fn_size).1 in
  let func_value := (mv8_function_create st fn fn_size).2 in
  let callback := {| func := fn; func_size := fn_size; interface := self st;
                     value_ptr := func_value + 1 |} in
  ∃ callee,
    Persistent_get st1 func_value = Some callee
    ∧ persistents st !! func_value = None
    ∧ tag (value_to_desc st1 callee).2 = ValueDescTag.Function
    ∧ rust_callback (mv8_init (Some wrapper) drop_func) st1 callee this args
      = invoke_trampoline wrapper st1 callback this args
    ∧ ∀ st2 result,
        rust_callback (mv8_init (Some wrapper) drop_func) st1 callee this args
        = Some (st2, result) →
        ∃ this_desc arg_descs,
          host_calls st2 = WrapperCall (self st) fn this_desc arg_descs :: host_calls st.
Proof.
  intros Ha st1 func_value callback.
  set (a := fresh (dom (heap st))).
  assert (Hheap : heap st1 !! a
                  = Some {| obj_class := ClsFunction (Some (next_alloc st));
                            obj_private := Some (next_alloc st);
                            obj_properties := []; obj_prototype := None |}).
  { subst st1. rewrite create_heap. apply lookup_insert_eq. }
  assert (Hget : Persistent_get st1 func_value = Some (JsObject a)).
  { subst st1 func_value. unfold Persistent_get.
    rewrite create_persistents, create_result.
    rewrite lookup_insert_ne, lookup_insert_eq by lia. reflexivity. }
  assert (Hdata : FunctionCallbackInfo_Data st1 (JsObject a) = Some (next_alloc st)).
  { unfold FunctionCallbackInfo_Data, object_class. rewrite Hheap. reflexivity. }
  assert (Hcb : callbacks st1 !! next_alloc st = Some callback).
  { subst st1 callback func_value. rewrite create_callbacks, create_result.
    rewrite lookup_insert_eq. do 2 f_equal. lia. }
  exists (JsObject a). split; [exact Hget|]. split.
  { subst func_value. rewrite create_result.
    destruct (persistents st !! (next_alloc st + 1)) eqn:Hp; [|reflexivity].
    specialize (Ha _ ltac:(eauto)). lia. }
  split.
  { destruct (value_to_desc_encodes st1 (JsObject a)) as (s & d & Hv & Henc).
    rewrite Hv. cbn in Henc. rewrite Hheap in Henc. cbn in Henc.
    destruct Henc as (p & _ & ->). reflexivity. }
  pose proof (rust_callback_invoke wrapper drop_func st1 (JsObject a) this args
                (next_alloc st) callback Hdata Hcb) as Hinv.
  split; [exact Hinv|].
  intros st2 result Hr.
  destruct (ledger_rust_callback _ _ _ _ _ _ _ Hr)
    as (iface & closure & this_desc & arg_descs & L & Hreg & _). cbn zeta in L.
  destruct (Hreg _ _ Hdata Hcb) as [-> ->].
  destruct (ledger_logs _ _ _ _ _ L) as (_ & _ & Hh & _).
  exists this_desc, arg_descs. exact Hh.
Qed.

(** A closure at 4096, registered and called with no arguments. *)
Lemma mv8_function_create_dispatches_witness :
  let wrapper : rust_callback_wrapper :=
    λ _ _ _ _ _, {| value_desc := desc_undefined; is_exception := 0 |} in
  ∃ st2,
    rust_callback (mv8_init (Some wrapper) None)
      (mv8_function_create sample_interface 4096 16).1 (JsObject 3) JsUndefined []
    = Some (st2, ReturnValue_Set JsUndefined)
    ∧ host_calls st2 = [WrapperCall 1 4096 desc_undefined []].
Proof.
  intros wrapper.
  destruct (mv8_function_create_dispatches wrapper None sample_interface 4096 16
              JsUndefined [] sample_interface_alloc_ok)
    as (callee & Hget & _ & _ & _ & Hcall).
  vm_compute in Hget. injection Hget as <-.
  destruct (rust_callback (mv8_init (Some wrapper) None)
              (mv8_function_create sample_interface 4096 16).1 (JsObject 3) JsUndefined [])
    as [[st2 result]|] eqn:Hr; [|vm_compute in Hr; discriminate].
  destruct (Hcall st2 result eq_refl) as (this_desc & arg_descs & Hcalls).
  vm_compute in Hr. injection Hr as <- <-.
  eexists. split; reflexivity.
Defined.

(** X17. Once a registration is finalized, its function object must
    not be called again: the record that the object's data points to
    is gone, and a call of the object has nothing to dispatch on (the
    trampoline reads a deleted record). This is the state in which the
    sweep of [mv8_interface_drop] leaves every registered function
    until the isolate is disposed. *)
Theorem rust_callback_after_finalization (g g' : Globals) (drop : rust_callback_drop)
    (st : Interface) (callee this : Value) (args : list Value) (cb : Z)
    (c : RustCallback) (st' : Interface) :
  main_callback_drop_func g = Some drop →
  FunctionCallbackInfo_Data st callee = Some cb →
  callbacks st !! cb = Some c →
  is_Some (persistents st !! value_ptr c) →
  callback_drop_inner g st cb = Some st' →
  FunctionCallbackInfo_Data st' callee = Some cb
  ∧ callbacks st' !! cb = None
  ∧ rust_callback g' st' callee this args = None
  ∧ callback_drop_inner g st' cb = None.
Proof.
  intros Hd Hdata Hc Hp Hrun.
  destruct (callback_drop_inner_state g st cb c drop Hc Hp Hd)
    as (st'' & Hrun' & Hh & _ & Hcs & _).
  rewrite Hrun in Hrun'. injection Hrun' as <-.
  assert (Hdata' : FunctionCallbackInfo_Data st' callee = Some cb).
  { unfold FunctionCallbackInfo_Data, object_class in *. rewrite Hh. exact Hdata. }
  assert (Hgone : callbacks st' !! cb = None) by (rewrite Hcs; apply lookup_delete_eq).
  split; [exact Hdata'|]. split; [exact Hgone|]. split.
  - unfold rust_callback. rewrite Hdata'; cbn. rewrite Hgone. reflexivity.
  - unfold callback_drop_inner. rewrite Hgone. reflexivity.
Qed.

(** The registered function of the sample, finalized and then called. *)
Lemma rust_callback_after_finalization_witness :
  ∃ st',
    callback_drop_inner sample_globals registered_interface 18 = Some st'
    ∧ rust_callback sample_globals st' (JsObject 3) JsUndefined [] = None.
Proof.
  destruct (callback_drop_inner sample_globals registered_interface 18) as [st'|] eqn:Hrun;
    [|discriminate].
  destruct (rust_callback_after_finalization sample_globals sample_globals (λ _, tt)
              registered_interface (JsObject 3) JsUndefined [] 18
              {| func := 4096; func_size := 16; interface := 1; value_ptr := 20 |}
              st' eq_refl eq_refl eq_refl ltac:(eexists; reflexivity) Hrun)
    as (_ & _ & Hcall & _).
  exists st'. split; [reflexivity|exact Hcall].
Defined.

(** ** Evaluation *)

(** ** Evaluation *)

(** X18. [mv8_interface_eval] on a source that does not compile reports
    the exception of the compilation as an exception outcome and runs
    nothing: the state is the one the compilation left, with the cell
    of the outcome if it needs one. And when no name is given
    ([name_data] is NULL) the script has no origin, so that the line
    and column offsets have no effect on the evaluation. *)
Theorem mv8_interface_eval_compile_error (g : Globals) (E : Engine) (st : Interface)
    (source : string) (source_length : Z) (name : option (string * Z))
    (line_offset column_offset : Z) (src : string) (origin : option (string * Z * Z))
    (st1 : Interface) (exception : Value) (report : Report) :
  string_new source source_length = Some src →
  script_origin name line_offset column_offset = Some origin →
  enter g st (Script_Compile E (heap st) src origin)
  = Some (st1, Throws exception report) →
  reported (@Throws Z exception report) →
  (∃ st' r,
     mv8_interface_eval g E st source source_length name line_offset column_offset
     = Some (st', r)
     ∧ is_exception r = 1
     ∧ (st', value_desc r) = value_to_desc st1 exception
     ∧ heap st' = heap st1)
  ∧ ∀ line column,
      mv8_interface_eval g E st source source_length None line column
      = mv8_interface_eval g E st source source_length None line_offset column_offset.
Proof.
  intros Hsrc Horigin Hc Hrep. split; [|reflexivity].
  rewrite mv8_interface_eval_steps, Hsrc, Horigin. cbn. rewrite Hc. cbn.
  destruct (try_catch_err_thrown st1 true exception _ _ Hrep)
    as (st' & r & Ht & Hv & Hflag).
  exists st', r. split; [exact Ht|]. split; [exact Hflag|]. split; [exact Hv|].
  destruct (value_to_desc_alloc st1 exception) as (Hh & _).
  rewrite <- Hv in Hh. exact Hh.
Qed.

(** A source that does not compile, on an engine that says so by
    throwing a string. *)
Lemma mv8_interface_eval_compile_error_witness :
  let E := fixed_engine (Returns JsUndefined) (Returns true)
             (Throws (JsString "SyntaxError") (message_only "Uncaught SyntaxError")) in
  ∃ st' r,
    mv8_interface_eval sample_globals E sample_interface "1 +" 3 (Some ("a.js", 4)) 0 0
    = Some (st', r)
    ∧ is_exception r = 1
    ∧ value_desc r = reference_desc ValueDescTag.String 18.
Proof.
  intros E.
  destruct (mv8_interface_eval_compile_error sample_globals E sample_interface "1 +" 3
              (Some ("a.js", 4)) 0 0 "1 +" (Some ("a.js", 0, 0)) sample_interface
              (JsString "SyntaxError") (message_only "Uncaught SyntaxError")
              eq_refl eq_refl)
    as ((st' & r & He & Hflag & Hv & _) & _).
  - unfold E. simpl. rewrite set_heap_id. reflexivity.
  - right. eexists; reflexivity.
  - exists st', r. split; [exact He|]. split; [exact Hflag|].
    apply (f_equal snd) in Hv. cbn in Hv. rewrite Hv. reflexivity.
Defined.

(** ** Dropping an interface without a drop function *)

Lemma visit_handles_nothing visit ps : ∀ st,
  (∀ p cell, persistents st !! p = Some cell → wrapper_class_id cell = 0) →
  visit_handles visit ps st = Some st.
Proof.
  induction ps as [|p ps IH]; intros st Hz; simpl; [reflexivity|].
  destruct (persistents st !! p) as [cell|] eqn:Hp; [|auto].
  rewrite (Hz p cell Hp). cbn. auto.
Qed.

Lemma visit_handles_no_drop_func g ps : ∀ st cb c,
  main_callback_drop_func g = None →
  registry_ok st →
  callbacks st !! cb = Some c → value_ptr c ∈ ps →
  visit_handles (VisitPersistentHandle g) ps st = None.
Proof.
  induction ps as [|p ps IH]; intros st cb c Hd Hok Hc Hin; simpl; [inversion Hin|].
  destruct (ok_record st Hok cb c Hc) as (a & o & Hcell & Ho & Hpriv).
  assert (Hnext : value_ptr c ≠ p → value_ptr c ∈ ps).
  { intros Hne. apply elem_of_cons in Hin as [?|?]; [contradiction|assumption]. }
  destruct (persistents st !! p) as [cell|] eqn:Hp.
  - destruct (Z.eqb_spec (wrapper_class_id cell) 0) as [Hz|Hnz].
    + eapply IH; [eassumption..|]. apply Hnext. intros Heq.
      rewrite Heq, Hp in Hcell. injection Hcell as ->. discriminate Hz.
    + destruct (ok_cell st Hok p cell Hp ltac:(auto)) as (cb' & c' & a' & -> & Hc' & Hv').
      destruct (ok_record st Hok cb' c' Hc') as (a'' & o' & Hcell' & Ho' & Hpriv').
      rewrite Hv', Hp in Hcell'. injection Hcell' as <-.
      change (wrapper_class_id (weak_cell a' cb')) with RUST_CALLBACK_CLASS_ID.
      rewrite (VisitPersistentHandle_finalizes g st p a' cb' o' Hp Ho' Hpriv').
      unfold callback_drop_inner. rewrite Hc'; cbn. rewrite Hv', Hp; cbn.
      rewrite Hd. reflexivity.
  - eapply IH; [eassumption..|]. apply Hnext. intros Heq.
    rewrite Heq, Hp in Hcell. discriminate.
Qed.

(** X19. An interface can be dropped without a drop function having
    been installed ([mv8_init] not called, or called with NULL) exactly
    when no registration is live: then the sweep finds nothing to
    finalize; with a live registration the sweep calls through the
    NULL pointer. *)
Theorem mv8_interface_drop_without_drop_func (g g0 : Globals) (E : Engine)
    (drop : rust_callback_drop) (self : Z) (events : list Event) (st : Interface) :
  main_callback_drop_func g = Some drop →
  engine_ok E →
  run g E (mv8_interface_new self) events = Some st →
  main_callback_drop_func g0 = None →
  (callbacks st = ∅ → mv8_interface_drop g0 st = Some (Isolate_Dispose st))
  ∧ (callbacks st ≠ ∅ → mv8_interface_drop g0 st = None)
  ∧ mv8_interface_drop g0 (mv8_interface_new self)
    = Some (Isolate_Dispose (mv8_interface_new self)).
Proof.
  intros Hd HE Hrun Hd0.
  destruct (lifetime_run g E drop events _ _ Hd HE (registry_ok_new self) Hrun)
    as (Hok & _).
  unfold mv8_interface_drop, VisitHandlesWithClassIds. split; [|split].
  - intros Hempty. rewrite visit_handles_nothing; [reflexivity|].
    intros p cell Hp. destruct (Z.eq_dec (wrapper_class_id cell) 0) as [|Hnz]; [assumption|].
    destruct (ok_cell st Hok p cell Hp ltac:(auto)) as (cb & c & _ & _ & Hc & _).
    rewrite Hempty, lookup_empty in Hc. discriminate.
  - intros Hlive.
    destruct (map_choose _ Hlive) as (cb & c & Hc).
    destruct (ok_record st Hok cb c Hc) as (a & o & Hp & _).
    rewrite (visit_handles_no_drop_func g0 _ st cb c Hd0 Hok Hc); [reflexivity|].
    apply list_elem_of_fmap. exists (value_ptr c, weak_cell a cb).
    split; [reflexivity|]. apply elem_of_map_to_list. assumption.
  - reflexivity.
Qed.

(** One registration, and a drop before [mv8_init]. *)
Lemma mv8_interface_drop_without_drop_func_witness :
  let E := fixed_engine (Returns JsUndefined) (Returns true) (Returns 0) in
  ∃ st,
    run sample_globals E (mv8_interface_new 1) [Register 4096 16] = Some st
    ∧ mv8_interface_drop globals_at_start st = None.
Proof.
  intros E.
  destruct (run sample_globals E (mv8_interface_new 1) [Register 4096 16]) as [st|] eqn:Hrun;
    [|vm_compute in Hrun; discriminate].
  destruct (mv8_interface_drop_without_drop_func sample_globals globals_at_start E
              (λ _, tt) 1 [Register 4096 16] st eq_refl (fixed_engine_ok _ _ _) Hrun
              eq_refl) as (_ & Hnone & _).
  exists st. split; [reflexivity|]. apply Hnone.
  vm_compute in Hrun. injection Hrun as <-. intros Hempty.
  apply (f_equal (λ m : gmap Z RustCallback, m !! 2)) in Hempty.
  vm_compute in Hempty. discriminate.
Defined.
